(** * gorm-migrator: the reconciliation engine and the migration controller

    A shallow embedding of [migrator.go] and of the [migration] package it
    uses.  Go slices are lists read by index, [int64] versions are integers
    with the wrap-around of [+ 1] written out, a run-time panic (index out of
    range, call of a nil func) is an explicit outcome, and the [*gorm.DB]
    handle is an explicit store value threaded through every call. *)

From Stdlib Require Import String ZArith List Bool Lia Sorted Permutation.
Import ListNotations.
Open Scope Z_scope.

(** ** Outcomes of Go code *)

Inductive panic : Type :=
| IndexOutOfRange (index len : nat)
| NilFuncCall.

(** [OutOfFuel] only bounds the unrolling of [for] loops in this embedding;
    [merge_fuel_enough] and [correlate_fuel_enough] below show that the
    budgets used are never exhausted. *)
Inductive result (A : Type) : Type :=
| Ok (a : A)
| Panic (p : panic)
| OutOfFuel.
Arguments Ok {A} a.
Arguments Panic {A} p.
Arguments OutOfFuel {A}.

Definition bind {A B : Type} (r : result A) (k : A -> result B) : result B :=
  match r with
  | Ok a => k a
  | Panic p => Panic p
  | OutOfFuel => OutOfFuel
  end.

Notation "x <- e ;; k" := (bind e (fun x => k))
  (at level 61, e at next level, right associativity).

(** [s[k]] on a Go slice. *)
Definition index {A : Type} (s : list A) (k : nat) : result A :=
  match nth_error s k with
  | Some x => Ok x
  | None => Panic (IndexOutOfRange k (length s))
  end.

(** ** int64 arithmetic *)

Module Int64.
Definition modulus : Z := 2 ^ 64.
Definition min_int : Z := - 2 ^ 63.
Definition max_int : Z := 2 ^ 63 - 1.
Definition in_range (z : Z) : Prop := min_int <= z <= max_int.
Definition wrap (z : Z) : Z := (z + 2 ^ 63) mod modulus - 2 ^ 63.
Definition add (x y : Z) : Z := wrap (x + y).
End Int64.

(** ** Errors *)

(** Modelled from the spec: the package's error constants
    ([ErrorTargetVersionNotFound], [ErrorSomeMigrationsAreAbsent]) are
    declared in the package's errors file, of which [migrator.go] shows only
    the uses; the store's errors are gorm's and the database's, and
    [ErrProcedure] stands for whatever error a migration procedure
    returns. *)
Inductive error : Type :=
| ErrorTargetVersionNotFound
| ErrorSomeMigrationsAreAbsent
| ErrRecordNotFound
| ErrDuplicatedKey
| ErrNoSuchTable
| ErrMissingWhereClause
| ErrDatabaseFull
| ErrProcedure (msg : string).

(** Modelled from the spec: the errors of the entry points around the core.
    The usage errors of [Run] and [parseVersion] are constants of the same
    errors file; [ErrTableExists] is the database's refusal to create a
    table that is there; [Err] carries an error of the kinds above. *)
Inductive failure : Type :=
| Err (e : error)
| ErrorCommandRequired
| ErrorUnexpectedCommand
| ErrorVersionNumberRequired
| ErrorInvalidVersionArgumentFormat
| ErrTableExists.

(** ** The store behind [*gorm.DB]

    The [migrations] table holds rows [(version, name)] with [version] as the
    primary key; [rows] keeps them in insertion order and is [None] while the
    table does not exist.  [objects] is the rest of the schema, the part the
    migration procedures act on.

    [version] is an integer primary key, and gorm takes the value zero of
    such a field for "not set": [Create] sends a row of version 0 without a
    key and the database assigns one, and [Delete] finds no key to delete
    by.  The key assigned is the database's choice; it is modelled as SQLite
    chooses it, one more than the greatest key in the table (1 in an empty
    table), with no key left above MaxInt64. *)

Module gorm.

Definition Row : Type := (Z * string)%type.

Record DB : Type := mkDB {
  objects : list string;
  rows : option (list Row)
}.

Definition keys (t : list Row) : list Z := map fst t.

Fixpoint insert_sorted (r : Row) (t : list Row) : list Row :=
  match t with
  | [] => [r]
  | x :: t' => if fst r <=? fst x then r :: t else x :: insert_sorted r t'
  end.

(** [ORDER BY version ASC]. *)
Fixpoint order_asc (t : list Row) : list Row :=
  match t with
  | [] => []
  | x :: t' => insert_sorted x (order_asc t')
  end.

(** [db.Order("version ASC").Find(&history)]. *)
Definition Find (d : DB) : list Row * option error :=
  match rows d with
  | None => ([], Some ErrNoSuchTable)
  | Some t => (order_asc t, None)
  end.

(** The row with the greatest key among [x :: t]. *)
Fixpoint greatest (x : Row) (t : list Row) : Row :=
  match t with
  | [] => x
  | y :: t' => if fst x <? fst y then greatest y t' else greatest x t'
  end.

(** [db.Last(&mig)]: gorm orders by the primary key, descending, takes one
    row ([ORDER BY version DESC LIMIT 1]) and reports [ErrRecordNotFound]
    when there is none. *)
Definition Last (d : DB) : Row + error :=
  match rows d with
  | None => inr ErrNoSuchTable
  | Some [] => inr ErrRecordNotFound
  | Some (x :: t) => inl (greatest x t)
  end.

Fixpoint distinct (ks : list Z) : bool :=
  match ks with
  | [] => true
  | k :: ks' => negb (existsb (Z.eqb k) ks') && distinct ks'
  end.

(** The key the database assigns to a row sent without one, if there is
    one left. *)
Definition assigned_key (t : list Row) : option Z :=
  match t with
  | [] => Some 1
  | x :: t' =>
      let k := fst (greatest x t') in
      if k =? Int64.max_int then None else Some (k + 1)
  end.

(** The rows [new] as they are stored after the rows [t], one after the
    other: a row of key zero under the key assigned to it, any other under
    its own. *)
Fixpoint filled (t new : list Row) : option (list Row) :=
  match new with
  | [] => Some []
  | r :: new' =>
      let stored :=
        if fst r =? 0
        then option_map (fun k => (k, snd r)) (assigned_key t)
        else Some r in
      match stored with
      | None => None
      | Some r' => option_map (cons r') (filled (t ++ [r']) new')
      end
  end.

(** [db.Create(&value)] for one row or a slice of rows: a single [INSERT]
    statement, which fails as a whole on a primary-key conflict. *)
Definition Create (new : list Row) (d : DB) : DB * option error :=
  match rows d with
  | None => (d, Some ErrNoSuchTable)
  | Some t =>
      match filled t new with
      | None => (d, Some ErrDatabaseFull)
      | Some new' =>
          if distinct (keys (t ++ new'))
          then (mkDB (objects d) (Some (t ++ new')), None)
          else (d, Some ErrDuplicatedKey)
      end
  end.

(** The keys a successful [Create] leaves in the caller's value: gorm
    writes the key assigned by the database back into a row sent without
    one. *)
Definition written_back (new : list Row) (d : DB) : list Z :=
  match rows d with
  | None => keys new
  | Some t =>
      match filled t new with
      | None => keys new
      | Some new' => keys new'
      end
  end.

(** [db.Exec("DELETE FROM migrations")]. *)
Definition DeleteAll (d : DB) : DB * option error :=
  match rows d with
  | None => (d, Some ErrNoSuchTable)
  | Some _ => (mkDB (objects d) (Some []), None)
  end.

(** [db.Order("version DESC").First(&old)]: the row of greatest version,
    [ErrRecordNotFound] when there is none. *)
Definition FirstByVersionDesc (d : DB) : Row + error := Last d.

(** [db.Delete(&mig)]: delete by primary key; deleting no row is no error.
    With a zero key gorm has no condition to delete by and refuses the
    statement with [ErrMissingWhereClause], the table left as it is. *)
Definition Delete (v : Z) (d : DB) : DB * option error :=
  if v =? 0 then (d, Some ErrMissingWhereClause)
  else
    match rows d with
    | None => (d, Some ErrNoSuchTable)
    | Some t =>
        (mkDB (objects d) (Some (filter (fun r => negb (fst r =? v)) t)), None)
    end.

(** [db.Migrator().CreateTable(&mig)]: a plain [CREATE TABLE], which fails
    when the table exists. *)
Definition CreateTable (d : DB) : DB * option failure :=
  match rows d with
  | Some _ => (d, Some ErrTableExists)
  | None => (mkDB (objects d) (Some []), None)
  end.

End gorm.

(** ** Package [migration] *)

Module migration.

(** [type ApplyFunc func(db *gorm.DB) error]; a Go func value may be nil. *)
Definition ApplyFunc : Type := option (gorm.DB -> gorm.DB * option error).

Record Migration : Type := mkMigration {
  Version : Z;
  Name : string;
  Up : ApplyFunc;
  Down : ApplyFunc;
  Stored : bool
}.

Definition CompareMigrations (left right : Migration) : bool :=
  Version left <? Version right.

Definition Less (mig other : Migration) : bool :=
  CompareMigrations mig other.

Definition Eq (mig other : Migration) : bool :=
  Version other =? Version mig.

End migration.

(** ** Package [migrator] *)

Module migrator.

Import migration.

Record Migrator : Type := mkMigrator {
  migrations : list Migration
}.

(** *** mergeMigrations *)

Section Merge.
Variables applied actual : list Migration.
Variable max : Z.

Let appliedLength := length applied.
Let actualLength := length actual.

(** [actualLength == 0 || actual[j].Version < max] *)
Definition below_max (j : nat) : result bool :=
  if (actualLength =? 0)%nat then Ok true
  else (r <- index actual j ;; Ok (Version r <? max)).

(** The first loop; returns the cursors and the slice built so far. *)
Fixpoint merge_walk (fuel : nat) (i j : nat) (merged : list Migration)
  : result (nat * nat * list Migration) :=
  match fuel with
  | O => OutOfFuel
  | S fuel' =>
      if ((i <? appliedLength) && (j <? actualLength))%nat then
        c <- below_max j ;;
        if c : bool then
          a <- index applied i ;;
          r <- index actual j ;;
          if Less a r then
            merge_walk fuel' (S i) j (merged ++ [a])
          else
            r' <- index actual j ;;
            a' <- index applied j ;;
            if Less r' a' then
              merge_walk fuel' i (S j) (merged ++ [r'])
            else
              merge_walk fuel' (S i) (S j) (merged ++ [a])
        else Ok (i, j, merged)
      else Ok (i, j, merged)
  end.

(** [for i < appliedLength { merged = append(merged, applied[i]); i++ }] *)
Fixpoint merge_rest_applied (fuel : nat) (i : nat) (merged : list Migration)
  : result (list Migration) :=
  match fuel with
  | O => OutOfFuel
  | S fuel' =>
      if (i <? appliedLength)%nat then
        a <- index applied i ;;
        merge_rest_applied fuel' (S i) (merged ++ [a])
      else Ok merged
  end.

(** The last loop, over what is left of [actual] below [max]. *)
Fixpoint merge_rest_actual (fuel : nat) (j : nat) (merged : list Migration)
  : result (list Migration) :=
  match fuel with
  | O => OutOfFuel
  | S fuel' =>
      if (j <? actualLength)%nat then
        c <- below_max j ;;
        if c : bool then
          r <- index actual j ;;
          merge_rest_actual fuel' (S j) (merged ++ [r])
        else Ok merged
      else Ok merged
  end.

End Merge.

(** The bound [max]: zero when [actual] is empty, else one past the last
    registry version ([target == -1]) or one past the target. *)
Definition merge_bound (actual : list Migration) (target : Z) : result Z :=
  if (0 <? length actual)%nat then
    if target =? -1 then
      l <- index actual (length actual - 1) ;;
      Ok (Int64.add (Version l) 1)
    else Ok (Int64.add target 1)
  else Ok 0.

Definition mergeMigrations (applied actual : list Migration) (target : Z)
  : result (list Migration) :=
  max <- merge_bound actual target ;;
  w <- merge_walk applied actual max
         (S (length applied + length actual)) 0 0 [] ;;
  let '(i, j, merged) := w in
  merged1 <- merge_rest_applied applied (S (length applied)) i merged ;;
  merge_rest_actual actual max (S (length actual)) j merged1.

(** *** correlateMigrations *)

Section Correlate.
Variables applied actual : list Migration.

Let appliedLength := length applied.
Let actualLength := length actual.

Fixpoint correlate_walk (fuel : nat) (i j : nat) (correlated : list Migration)
  : result (list Migration * option error) :=
  match fuel with
  | O => OutOfFuel
  | S fuel' =>
      if ((i <? appliedLength) && (j <? actualLength))%nat then
        a <- index applied i ;;
        r <- index actual j ;;
        if Less a r then
          Ok (correlated ++ [a], Some ErrorSomeMigrationsAreAbsent)
        else if Less r a then
          correlate_walk fuel' i (S j) correlated
        else
          correlate_walk fuel' (S i) (S j) (correlated ++ [r])
      else if (i <? appliedLength)%nat then
        a <- index applied i ;;
        Ok (correlated ++ [a], Some ErrorSomeMigrationsAreAbsent)
      else Ok (correlated, None)
  end.

End Correlate.

Definition correlateMigrations (applied actual : list Migration)
  : result (list Migration * option error) :=
  correlate_walk applied actual (S (length applied + length actual)) 0 0 [].

(** *** The controller

    [log] is a spy: every call of a migration procedure and every write to
    the store is appended to it, with the error it returned. *)

Inductive event : Type :=
| Forward (v : Z) (e : option error)
| Backward (v : Z) (e : option error)
| Insert (vs : list Z) (e : option error)
| DeleteRow (v : Z) (e : option error)
| DeleteAllRows (e : option error).

Record World : Type := mkWorld {
  db : gorm.DB;
  log : list event
}.

(** What a controller entry point hands back:
    [(oldVersion, newVersion, err)]. *)
Definition reply : Type := (Z * Z * option error)%type.

(** A record read from the store: the procedures and [Stored] are not
    persisted (tag [gorm:"-"]) and come back as zero values. *)
Definition loaded (r : gorm.Row) : Migration :=
  mkMigration (fst r) (snd r) None None false.

(** The row written for a descriptor. *)
Definition record_of (migr : Migration) : gorm.Row :=
  (migration.Version migr, migration.Name migr).

Definition set_Stored (b : bool) (migr : Migration) : Migration :=
  mkMigration (migration.Version migr) (migration.Name migr)
              (migration.Up migr) (migration.Down migr) b.

(** [Version]. *)
Definition Version (m : Migrator) (w : World) : reply :=
  match gorm.Last (db w) with
  | inr e => (0, 0, Some e)
  | inl mig => (fst mig, fst mig, None)
  end.

(** The [range m.migrations] loop of [SetVersion]: copy descriptors into
    [migs] up to and including the first one at the target version. *)
Fixpoint collect_until (target : Z) (ms : list Migration) (i : nat)
         (migs : list Migration) : list Migration * Z :=
  match ms with
  | [] => (migs, -1)
  | migr :: ms' =>
      if migration.Version migr =? target
      then (migs ++ [migr], Z.of_nat i)
      else collect_until target ms' (S i) (migs ++ [migr])
  end.

Definition SetVersion (m : Migrator) (target : Z) (w : World)
  : World * result reply :=
  let '(oldVersion, _, err) := Version m w in
  match err with
  | Some e => (w, Ok (oldVersion, 0, Some e))
  | None =>
      let '(migs, idx) := collect_until target (migrations m) 0 [] in
      if idx =? -1 then (w, Ok (oldVersion, 0, Some ErrorTargetVersionNotFound))
      else
        match index (migrations m) (Z.to_nat idx) with
        | Panic p => (w, Panic p)
        | OutOfFuel => (w, OutOfFuel)
        | Ok found =>
            let newVersion :=
              if oldVersion =? migration.Version found then oldVersion else 0 in
            let '(d1, e1) := gorm.DeleteAll (db w) in
            let w1 := mkWorld d1 (log w ++ [DeleteAllRows e1]) in
            match e1 with
            | Some e => (w1, Ok (oldVersion, newVersion, Some e))
            | None =>
                let '(d2, e2) := gorm.Create (map record_of migs) d1 in
                let w2 :=
                  mkWorld d2
                    (log w1 ++ [Insert (map migration.Version migs) e2]) in
                match e2 with
                | Some e => (w2, Ok (oldVersion, newVersion, Some e))
                | None =>
                    (* [migs] now carries the keys written back *)
                    match index (gorm.written_back (map record_of migs) d1)
                                (length migs - 1) with
                    | Panic p => (w2, Panic p)
                    | OutOfFuel => (w2, OutOfFuel)
                    | Ok version => (w2, Ok (oldVersion, version, None))
                    end
                end
            end
        end
  end.

(** The [range merged] loop of [Up]; returns [(newVersion, err)]. *)
Fixpoint Up_range (merged : list Migration) (newVersion : Z) (w : World)
  : World * result (Z * option error) :=
  match merged with
  | [] => (w, Ok (newVersion, None))
  | migr :: rest =>
      if Stored migr then Up_range rest newVersion w
      else
        match migration.Up migr with
        | None => (w, Panic NilFuncCall)
        | Some forward =>
            let '(d1, e1) := forward (db w) in
            let w1 :=
              mkWorld d1 (log w ++ [Forward (migration.Version migr) e1]) in
            match e1 with
            | Some e => (w1, Ok (newVersion, Some e))
            | None =>
                let '(d2, e2) := gorm.Create [record_of migr] d1 in
                let w2 :=
                  mkWorld d2
                    (log w1 ++ [Insert [migration.Version migr] e2]) in
                match e2 with
                | Some e => (w2, Ok (migration.Version migr, Some e))
                | None => Up_range rest (migration.Version migr) w2
                end
            end
        end
  end.

(** The applied history as [Up] and [Reset] load it: all records in
    ascending version order, each marked [Stored]. *)
Definition history_of (found : list gorm.Row) : list Migration :=
  map (set_Stored true) (map loaded found).

(** [history[length-1].Version] when there is a history, else zero. *)
Definition last_version (history : list Migration) : result Z :=
  if (0 <? length history)%nat then
    l <- index history (length history - 1) ;;
    Ok (migration.Version l)
  else Ok 0.

Definition Up (m : Migrator) (target : Z) (w : World)
  : World * result reply :=
  match gorm.Find (db w) with
  | (_, Some e) => (w, Ok (0, 0, Some e))
  | (found, None) =>
      let history := history_of found in
      match last_version history with
      | Panic p => (w, Panic p)
      | OutOfFuel => (w, OutOfFuel)
      | Ok version =>
          match mergeMigrations history (migrations m) target with
          | Panic p => (w, Panic p)
          | OutOfFuel => (w, OutOfFuel)
          | Ok merged =>
              let '(w', r) := Up_range merged version w in
              (w', nv <- r ;; Ok (version, fst nv, snd nv))
          end
      end
  end.

(** The descending loop of [Down] over [m.migrations], given reversed: the
    head is [m.migrations[i]], the entry after it [m.migrations[i-1]]. *)
Fixpoint Down_scan (reversed : list Migration) (old : Z) (w : World)
  : World * result (Z * option error) :=
  match reversed with
  | [] => (w, Ok (old, None))
  | mig :: below =>
      if migration.Version mig =? old then
        match below with
        | [] => (w, Ok (old, None))
        | previous :: _ =>
            match migration.Down mig with
            | None => (w, Panic NilFuncCall)
            | Some backward =>
                let '(d1, e1) := backward (db w) in
                let w1 :=
                  mkWorld d1 (log w ++ [Backward (migration.Version mig) e1]) in
                match e1 with
                | Some e => (w1, Ok (old, Some e))
                | None =>
                    let '(d2, e2) := gorm.Delete (migration.Version mig) d1 in
                    let w2 :=
                      mkWorld d2
                        (log w1 ++ [DeleteRow (migration.Version mig) e2]) in
                    (w2, Ok (migration.Version previous, e2))
                end
            end
        end
      else Down_scan below old w
  end.

Definition Down (m : Migrator) (w : World) : World * result reply :=
  match gorm.FirstByVersionDesc (db w) with
  | inr e => (w, Ok (0, 0, Some e))
  | inl old =>
      let '(w', r) := Down_scan (rev (migrations m)) (fst old) w in
      (w', nv <- r ;; Ok (fst old, fst nv, snd nv))
  end.

(** The descending loop of [Reset] over [correlated], given reversed. *)
Fixpoint Reset_range (reversed : list Migration) (newVersion : Z) (w : World)
  : World * result (Z * option error) :=
  match reversed with
  | [] => (w, Ok (newVersion, None))
  | migr :: below =>
      match migration.Down migr with
      | None => (w, Panic NilFuncCall)
      | Some backward =>
          let '(d1, e1) := backward (db w) in
          let w1 :=
            mkWorld d1 (log w ++ [Backward (migration.Version migr) e1]) in
          match e1 with
          | Some e => (w1, Ok (newVersion, Some e))
          | None =>
              let newVersion' :=
                match below with
                | previous :: _ => migration.Version previous
                | [] => migration.Version migr
                end in
              if 1 <? migration.Version migr then
                let '(d2, e2) := gorm.Delete (migration.Version migr) d1 in
                let w2 :=
                  mkWorld d2
                    (log w1 ++ [DeleteRow (migration.Version migr) e2]) in
                match e2 with
                | Some e => (w2, Ok (newVersion', Some e))
                | None => Reset_range below newVersion' w2
                end
              else Reset_range below newVersion' w1
          end
      end
  end.

Definition Reset (m : Migrator) (w : World) : World * result reply :=
  match gorm.Find (db w) with
  | (_, Some e) => (w, Ok (0, 0, Some e))
  | (found, None) =>
      let history := history_of found in
      match last_version history with
      | Panic p => (w, Panic p)
      | OutOfFuel => (w, OutOfFuel)
      | Ok version =>
          match correlateMigrations history (migrations m) with
          | Panic p => (w, Panic p)
          | OutOfFuel => (w, OutOfFuel)
          | Ok (_, Some e) => (w, Ok (version, version, Some e))
          | Ok (correlated, None) =>
              let '(w', r) := Reset_range (rev correlated) version w in
              (w', nv <- r ;; Ok (version, fst nv, snd nv))
          end
      end
  end.

(** What [Init] and [Run] hand back. *)
Definition answer : Type := (Z * Z * option failure)%type.

Definition lift (r : result reply) : result answer :=
  x <- r ;; let '(old, new, e) := x in Ok (old, new, option_map Err e).

(** [Init]: both versions stay zero. *)
Definition Init (m : Migrator) (w : World) : World * result answer :=
  let '(d1, e1) := gorm.CreateTable (db w) in
  match e1 with
  | Some e => (mkWorld d1 (log w), Ok (0, 0, Some e))
  | None =>
      let '(d2, e2) := gorm.Create [(1, "-"%string)] d1 in
      (mkWorld d2 (log w ++ [Insert [1] e2]), Ok (0, 0, option_map Err e2))
  end.

Section Commands.
(** [strconv.ParseInt(s, 10, 64)]: the value and whether an error came with
    it. *)
Variable ParseInt : string -> Z * bool.

Definition parseVersion (required : bool) (args : list string)
  : Z * option failure :=
  match args with
  | [] => if required then (0, Some ErrorVersionNumberRequired) else (-1, None)
  | a :: _ =>
      let '(version, failed) := ParseInt a in
      if failed : bool then (version, Some ErrorInvalidVersionArgumentFormat)
      else (version, None)
  end.

Definition Run (m : Migrator) (args : list string) (w : World)
  : World * result answer :=
  match args with
  | [] => (w, Ok (0, 0, Some ErrorCommandRequired))
  | command :: rest =>
      if String.eqb command "init" then Init m w
      else if String.eqb command "up" then
        match parseVersion false rest with
        | (_, Some e) => (w, Ok (0, 0, Some e))
        | (target, None) => let '(w', r) := Up m target w in (w', lift r)
        end
      else if String.eqb command "down" then
        let '(w', r) := Down m w in (w', lift r)
      else if String.eqb command "reset" then
        let '(w', r) := Reset m w in (w', lift r)
      else if String.eqb command "version" then (w, lift (Ok (Version m w)))
      else if String.eqb command "set_version" then
        match parseVersion true rest with
        | (_, Some e) => (w, Ok (0, 0, Some e))
        | (target, None) => let '(w', r) := SetVersion m target w in (w', lift r)
        end
      else (w, Ok (0, 0, Some ErrorUnexpectedCommand))
  end.

End Commands.

Section Construction.
(** [sort.Sort(migration.Migrations(all))], which orders by [Less] and
    promises nothing about entries of equal version; and the no-op procedure
    [migration.DummyUpDown], declared elsewhere in the package. *)
Variable sort : list Migration -> list Migration.
Variable DummyUpDown : ApplyFunc.

Definition NewMigrator (migrations : list Migration) : Migrator :=
  mkMigrator
    (sort (migrations ++ [mkMigration 1 "-" DummyUpDown DummyUpDown false])).

End Construction.

End migrator.

(** * Properties *)

Import migration.

(** The versions of a sequence, in order. *)
Definition versions (l : list Migration) : list Z := map Version l.

(** Strictly ascending by version: sorted, and no version twice. *)
Definition ascending (l : list Migration) : Prop :=
  StronglySorted Z.lt (versions l).

(** Version and [Stored] flag of every entry. *)
Definition tags (l : list Migration) : list (Z * bool) :=
  map (fun x => (Version x, Stored x)) l.

Definition result_map {A B : Type} (f : A -> B) (r : result A) : result B :=
  x <- r ;; Ok (f x).

(** Concrete descriptors and records for the examples below. *)
Module Sample.

Definition create (name : string) : ApplyFunc :=
  Some (fun d => (gorm.mkDB (name :: gorm.objects d) (gorm.rows d), None)).

Definition drop (name : string) : ApplyFunc :=
  Some (fun d =>
          (gorm.mkDB (filter (fun o => negb (String.eqb o name)) (gorm.objects d))
                     (gorm.rows d), None)).

(** A registry descriptor. *)
Definition descriptor (v : Z) (name : string) : Migration :=
  mkMigration v name (create name) (drop name) false.

(** An applied record as [Up] loads it. *)
Definition applied (v : Z) (name : string) : Migration :=
  migrator.set_Stored true (migrator.loaded (v, name)).

(** A procedure that fails. *)
Definition failing (msg : string) : ApplyFunc :=
  Some (fun d => (d, Some (ErrProcedure msg))).

(** A registry whose third migration cannot be applied. *)
Definition broken_registry : migrator.Migrator :=
  migrator.mkMigrator
    [descriptor 1 "-"; descriptor 2 "addUsers";
     mkMigration 3 "addIndex" (failing "boom") (drop "addIndex") false].

(** A registry with version 2 declared twice. *)
Definition clashing_registry : migrator.Migrator :=
  migrator.mkMigrator
    [descriptor 1 "-"; descriptor 2 "addUsers"; descriptor 2 "addRoles"].

Definition registry3 : migrator.Migrator :=
  migrator.mkMigrator
    [descriptor 1 "-"; descriptor 2 "addUsers"; descriptor 3 "addIndex"].

Definition store (t : list gorm.Row) : migrator.World :=
  migrator.mkWorld (gorm.mkDB [] (Some t)) [].

End Sample.

(** ** Vocabulary of the statements *)

(** Calls of migration procedures recorded in a log. *)
Definition procedure_calls (l : list migrator.event) : list migrator.event :=
  filter (fun e => match e with
                   | migrator.Forward _ _ | migrator.Backward _ _ => true
                   | _ => false
                   end) l.

(** Does [l] hold a descriptor of version [v]? *)
Definition has_version (v : Z) (l : list Migration) : bool :=
  existsb (Z.eqb v) (versions l).

(** The descriptors of [R] whose version occurs in [A], in the order of [R]. *)
Definition matching (A R : list Migration) : list Migration :=
  filter (fun r => has_version (Version r) A) R.

(** The walk of [correlateMigrations] seen from the cursors: [R] and [A] are
    what is left of [actual] and of [applied]. *)
Fixpoint corr (R A : list Migration) : list Migration * option error :=
  match A with
  | [] => ([], None)
  | a :: A' =>
      match R with
      | [] => ([a], Some ErrorSomeMigrationsAreAbsent)
      | r :: R' =>
          if Less a r then ([a], Some ErrorSomeMigrationsAreAbsent)
          else if Less r a then corr R' A
          else let '(c, e) := corr R' A' in (r :: c, e)
      end
  end.

(** Entries of a merged sequence that [Up] will run. *)
Definition unstored (l : list Migration) : list Migration :=
  filter (fun x => negb (Stored x)) l.

(** What the spy records when the entries of [l] are applied one after the
    other, each forward procedure and each insert succeeding. *)
Definition applied_steps (l : list Migration) : list migrator.event :=
  flat_map (fun x => [migrator.Forward (Version x) None;
                      migrator.Insert [Version x] None]) l.

(** A procedure that leaves the [migrations] table alone. *)
Definition keeps_records (f : ApplyFunc) : Prop :=
  forall g d, f = Some g -> gorm.rows (fst (g d)) = gorm.rows d.

(** How many elements of [l] are at most [v], and how many at least [v]. *)
Definition count_le (v : Z) (l : list Z) : nat :=
  length (filter (fun x => x <=? v) l).

Definition count_ge (v : Z) (l : list Z) : nat :=
  length (filter (fun x => v <=? x) l).

(** Sorted, duplicates allowed: what [sort.Sort] and [ORDER BY] deliver. *)
Definition nondecreasing (l : list Z) : Prop := StronglySorted Z.le l.

(** [delivered A R max i merged]: the sequence built so far holds the first
    [i] applied entries, and whatever it holds is an applied entry or a
    registry entry below [max]. *)
Definition delivered (A R : list Migration) (max : Z) (i : nat)
           (merged : list Migration) : Prop :=
  (forall x, In x (firstn i A) -> In x merged) /\
  (forall x, In x merged ->
             In x A \/ (In x R /\ Version x < max)).

(** [seen A R max i j merged] relates the cursors of a merge of [A] with [R]
    to the sequence built so far: every registry entry before [j] lies below
    [max]; counting the applied versions together with the registry versions
    emitted so far, at least [k + 1] of them are at most the version at
    registry index [k], and at least [j - k] of those met so far are at
    least that version. *)
Definition seen (A R : list Migration) (max : Z) (i j : nat)
           (merged : list Migration) : Prop :=
  (j <= length R)%nat /\
  (forall x, In x merged -> In x A \/ In x R) /\
  forall k r, (k < j)%nat -> nth_error R k = Some r ->
    Version r < max /\
    (S k <= count_le (Version r)
              (versions A ++ versions (unstored merged)))%nat /\
    (j - k <= count_ge (Version r)
                (firstn i (versions A) ++ versions (unstored merged)))%nat.

(** [settled A' R max m]: the registry entries below [max] are the first
    [m]; at least [k + 1] versions of [A'] are at most the registry version
    at index [k < m], and at least [m - k] are at least that version. *)
Definition settled (A' R : list Migration) (max : Z) (m : nat) : Prop :=
  (m = length R \/ exists r, nth_error R m = Some r /\ max <= Version r) /\
  forall k r, (k < m)%nat -> nth_error R k = Some r ->
    Version r < max /\
    (S k <= count_le (Version r) (versions A'))%nat /\
    (m - k <= count_ge (Version r) (versions A'))%nat.

(** The statement of C10 as the specification words it: [Version] reports
    the record inserted last. *)
Definition Version_reports_last_inserted : Prop :=
  forall (m : migrator.Migrator) (w : migrator.World) (t : list gorm.Row)
         (r : gorm.Row),
    gorm.rows (migrator.db w) = Some (t ++ [r]) ->
    migrator.Version m w = (fst r, fst r, None).

(** The statement of C9 as worded: an unknown target is always answered with
    the target-not-found error, the world left as it was. *)
Definition SetVersion_unknown_target_not_found : Prop :=
  forall (m : migrator.Migrator) (target : Z) (w : migrator.World),
    ~ In target (versions (migrator.migrations m)) ->
    exists old new,
      migrator.SetVersion m target w
        = (w, Ok (old, new, Some ErrorTargetVersionNotFound)).

(** The statement of C8 as worded, for a registry with distinct, ascending
    versions: after [SetVersion v], [Version] answers [v]. *)
Definition SetVersion_then_Version : Prop :=
  forall (m : migrator.Migrator) (v : Z) (w : migrator.World),
    ascending (migrator.migrations m) ->
    In v (versions (migrator.migrations m)) ->
    migrator.Version m (fst (migrator.SetVersion m v w)) = (v, v, None).

(** The statement of C6 as worded, for a well-formed registry: a second
    [Up] changes nothing and returns the newVersion of the first. *)
Definition Up_twice_same_newVersion : Prop :=
  forall (m : migrator.Migrator) (target : Z) (w w1 : migrator.World)
         (old1 new1 : Z),
    ascending (migrator.migrations m) ->
    (forall x, In x (migrator.migrations m) -> Stored x = false) ->
    (forall x, In x (migrator.migrations m) -> keeps_records (Up x)) ->
    migrator.Up m target w = (w1, Ok (old1, new1, None)) ->
    exists old2, migrator.Up m target w1 = (w1, Ok (old2, new1, None)).

(** The registry entries of [l] below the bound of a merge. *)
Definition below (max : Z) (l : list Migration) : list Migration :=
  filter (fun r => Version r <? max) l.

(** A procedure that is there, succeeds, and leaves the [migrations] table
    alone. *)
Definition runs_clean (f : ApplyFunc) : Prop :=
  exists g, f = Some g /\
    forall d, snd (g d) = None /\ gorm.rows (fst (g d)) = gorm.rows d.

(** The entries of [l] with a version up to [target]. *)
Definition upto (target : Z) (l : list Migration) : list Migration :=
  filter (fun x => Version x <=? target) l.

(** A store without the record of version [v]. *)
Definition without (v : Z) (t : list gorm.Row) : list gorm.Row :=
  filter (fun r => negb (fst r =? v)) t.

(** [v] is the greatest version on record in [t]. *)
Definition greatest_key (v : Z) (t : list gorm.Row) : Prop :=
  In v (gorm.keys t) /\ forall k, In k (gorm.keys t) -> k <= v.

(** What the spy records when the entries of [l] are reversed one after the
    other by [Reset], each backward procedure and each delete succeeding:
    the record of a version up to 1 is not deleted. *)
Definition reversed_steps (l : list Migration) : list migrator.event :=
  flat_map (fun x =>
              migrator.Backward (Version x) None
              :: (if 1 <? Version x
                  then [migrator.DeleteRow (Version x) None] else [])) l.

(** The records that survive the deletes [Reset] issues for the entries of
    [l]: those of no entry of [l] with a version above 1. *)
Definition survives (l : list Migration) (r : gorm.Row) : bool :=
  negb (existsb (fun x => (1 <? Version x) && (fst r =? Version x)) l).

(** The registry that results when the caller declares a version 1 of its
    own beside the sentinel. *)
Definition registry_with_two_baselines : migrator.Migrator :=
  migrator.mkMigrator
    [Sample.descriptor 1 "-"; Sample.descriptor 1 "baseline";
     Sample.descriptor 2 "addUsers"].

(** The sentinel descriptor [NewMigrator] adds. *)
Definition sentinel (DummyUpDown : ApplyFunc) : Migration :=
  mkMigration 1 "-" DummyUpDown DummyUpDown false.

(** One sort that meets the contract of [sort.Sort]: insertion by [Less]. *)
Fixpoint insert_by_version (x : Migration) (l : list Migration)
  : list Migration :=
  match l with
  | [] => [x]
  | y :: l' => if Less y x then y :: insert_by_version x l' else x :: l
  end.

Fixpoint sort_by_version (l : list Migration) : list Migration :=
  match l with
  | [] => []
  | x :: l' => insert_by_version x (sort_by_version l')
  end.

(** A no-op procedure. *)
Definition no_op : ApplyFunc := Some (fun d => (d, None)).

(** The command words [Run] knows. *)
Definition commands : list string :=
  ["init"; "up"; "down"; "reset"; "version"; "set_version"]%string.

(** Argument lists [Run] cannot dispatch, each with the error it earns:
    no command, an unknown command, [set_version] without a version, and
    [up] or [set_version] with a version [ParseInt] rejects. *)
Inductive misuse (ParseInt : string -> Z * bool)
  : list string -> failure -> Prop :=
| no_command : misuse ParseInt [] ErrorCommandRequired
| unknown_command command rest :
    ~ In command commands ->
    misuse ParseInt (command :: rest) ErrorUnexpectedCommand
| no_version : misuse ParseInt ["set_version"%string] ErrorVersionNumberRequired
| bad_version command a rest v :
    command = "up"%string \/ command = "set_version"%string ->
    ParseInt a = (v, true) ->
    misuse ParseInt (command :: a :: rest) ErrorInvalidVersionArgumentFormat.

(** A database without the [migrations] table. *)
Definition fresh (w : migrator.World) : Prop :=
  gorm.rows (migrator.db w) = None.

(** Every descriptor of [l] carries a key: none has version 0, which gorm
    takes for a key that is not set. *)
Definition keyed (l : list Migration) : Prop :=
  forall x, In x l -> Version x <> 0.

(** Decides [keyed] on a list written out. *)
Ltac keyed_list :=
  let H := fresh "H" in
  unfold keyed; simpl; intros ? H;
  repeat (destruct H as [<-|H]; [simpl; discriminate|]);
  destruct H.

(** A forward procedure that takes the [migrations] table away. *)
Definition unplug : ApplyFunc :=
  Some (fun d => (gorm.mkDB (gorm.objects d) None, None)).

(** A registry whose third migration drops the table the records live in,
    so that the insert of its own record fails. *)
Definition unplugging_registry : migrator.Migrator :=
  migrator.mkMigrator
    [Sample.descriptor 1 "-"; Sample.descriptor 2 "addUsers";
     mkMigration 3 "dropAll" unplug (Sample.drop "dropAll") false].

(** The statement of C7 as worded: when [Up] stops on a failing step, after
    it applied the migrations [done] in this call (forward procedure run and
    record inserted), its newVersion is the version of the last of [done],
    or the pre-call version when [done] is empty. *)
Definition Up_failure_reports_last_applied : Prop :=
  forall (m : migrator.Migrator) (target : Z) (w w' : migrator.World)
         (old new v : Z) (e : error) (done : list Migration),
    migrator.Up m target w = (w', Ok (old, new, Some e)) ->
    (migrator.log w'
       = migrator.log w ++ applied_steps done
           ++ [migrator.Forward v (Some e)]
     \/
     migrator.log w'
       = migrator.log w ++ applied_steps done
           ++ [migrator.Forward v None; migrator.Insert [v] (Some e)]) ->
    new = last (versions done) old.

(** A registry that declares a migration of version 0 before the sentinel. *)
Definition registry_with_zero : migrator.Migrator :=
  migrator.mkMigrator
    [Sample.descriptor (-1) "first"; Sample.descriptor 0 "zero";
     Sample.descriptor 1 "-"].

(** A registry that declares a migration of version 0 next to the sentinel
    and one more. *)
Definition registry_from_zero : migrator.Migrator :=
  migrator.mkMigrator
    [Sample.descriptor 0 "zero"; Sample.descriptor 1 "-";
     Sample.descriptor 2 "addUsers"].

(** ** Slices *)

Lemma index_Some {A : Type} (s : list A) (k : nat) (x : A) :
  nth_error s k = Some x -> index s k = Ok x.
Proof. unfold index. intros ->. reflexivity. Qed.

Lemma index_in_range {A : Type} (s : list A) (k : nat) :
  (k < length s)%nat -> exists x, nth_error s k = Some x /\ index s k = Ok x.
Proof.
  intros H. destruct (nth_error s k) as [x|] eqn:E.
  - exists x. split; [reflexivity | now apply index_Some].
  - apply nth_error_None in E. lia.
Qed.

Lemma index_not_OutOfFuel {A : Type} (s : list A) (k : nat) :
  index s k <> OutOfFuel.
Proof. unfold index. destruct (nth_error s k); discriminate. Qed.

Lemma skipn_cons_nth {A : Type} (s : list A) (k : nat) (x : A) :
  nth_error s k = Some x -> skipn k s = x :: skipn (S k) s.
Proof.
  revert k. induction s as [|y s IH]; intros [|k] H; simpl in *; try discriminate.
  - now inversion H.
  - now apply IH.
Qed.

(** ** The loop budgets are never exhausted *)

Section Fuel.
Variables applied actual : list Migration.
Variable max : Z.

Lemma below_max_not_OutOfFuel j :
  migrator.below_max actual max j <> OutOfFuel.
Proof.
  unfold migrator.below_max.
  destruct (length actual =? 0)%nat; [discriminate|].
  unfold index. destruct (nth_error actual j); discriminate.
Qed.

Lemma merge_walk_fuel fuel : forall i j merged,
  (length applied - i + (length actual - j) < fuel)%nat ->
  migrator.merge_walk applied actual max fuel i j merged <> OutOfFuel.
Proof.
  induction fuel as [|fuel IH]; intros i j merged Hf; [lia|].
  simpl.
  destruct ((i <? length applied)%nat && (j <? length actual)%nat) eqn:G;
    [|discriminate].
  apply andb_true_iff in G. destruct G as [Gi Gj].
  apply Nat.ltb_lt in Gi, Gj.
  pose proof (below_max_not_OutOfFuel j) as Hb.
  destruct (migrator.below_max actual max j) as [[|]| |]; simpl;
    try discriminate; try congruence.
  destruct (index_in_range applied i Gi) as [a [_ ->]].
  destruct (index_in_range actual j Gj) as [r [_ ->]]. simpl.
  destruct (Less a r); [apply IH; lia|].
  unfold index at 1. destruct (nth_error applied j); simpl; [|discriminate].
  destruct (Less r m); apply IH; lia.
Qed.

Lemma merge_rest_applied_fuel fuel : forall i merged,
  (length applied - i < fuel)%nat ->
  migrator.merge_rest_applied applied fuel i merged <> OutOfFuel.
Proof.
  induction fuel as [|fuel IH]; intros i merged Hf; [lia|].
  simpl. destruct (i <? length applied)%nat eqn:G; [|discriminate].
  apply Nat.ltb_lt in G.
  destruct (index_in_range applied i G) as [a [_ ->]]. simpl.
  apply IH. lia.
Qed.

Lemma merge_rest_actual_fuel fuel : forall j merged,
  (length actual - j < fuel)%nat ->
  migrator.merge_rest_actual actual max fuel j merged <> OutOfFuel.
Proof.
  induction fuel as [|fuel IH]; intros j merged Hf; [lia|].
  simpl. destruct (j <? length actual)%nat eqn:G; [|discriminate].
  apply Nat.ltb_lt in G.
  pose proof (below_max_not_OutOfFuel j) as Hb.
  destruct (migrator.below_max actual max j) as [[|]| |]; simpl;
    try discriminate; try congruence.
  destruct (index_in_range actual j G) as [r [_ ->]]. simpl.
  apply IH. lia.
Qed.

End Fuel.

(** [mergeMigrations] always comes back: with a merged slice or a panic. *)
Lemma merge_fuel_enough applied actual target :
  migrator.mergeMigrations applied actual target <> OutOfFuel.
Proof.
  unfold migrator.mergeMigrations, migrator.merge_bound.
  assert (Hb : forall z, (z <- (Ok z : result Z) ;;
      w <- migrator.merge_walk applied actual z
             (S (length applied + length actual)) 0 0 [] ;;
      let '(i, j, merged) := w in
      merged1 <- migrator.merge_rest_applied applied (S (length applied)) i merged ;;
      migrator.merge_rest_actual actual z (S (length actual)) j merged1)
      <> OutOfFuel).
  { intros z. cbn [bind].
    pose proof (merge_walk_fuel applied actual z
                  (S (length applied + length actual)) 0 0 []) as Hw.
    destruct (migrator.merge_walk applied actual z _ 0 0 []) as [[[i j] mg]| |];
      cbn [bind]; try discriminate;
      [|exfalso; apply Hw; [lia|reflexivity]].
    pose proof (merge_rest_applied_fuel applied (S (length applied)) i mg) as Ha.
    destruct (migrator.merge_rest_applied applied _ i mg) as [mg1| |];
      cbn [bind]; try discriminate;
      [|exfalso; apply Ha; [lia|reflexivity]].
    apply merge_rest_actual_fuel. lia. }
  destruct (0 <? length actual)%nat; [|apply Hb].
  destruct (target =? -1); [|apply Hb].
  unfold index. destruct (nth_error actual (length actual - 1)); cbn [bind].
  - apply (Hb (Int64.add (Version m) 1)).
  - discriminate.
Qed.

(** ** mergeMigrations on concrete histories

    The second comparison of the first loop reads [applied[j]], with the
    registry cursor, where [correlateMigrations] reads [applied[i]]. *)

(** C1: on the disjoint, strictly ascending inputs A = 2, 3, 10 and
    R = 1, 5, 20 with no target, the merge returns 1, 2, 3, 10, 20: registry
    version 5 is lost, so the result is not the union of the versions. *)
Theorem C1_merge_loses_registry_version :
  let A := [Sample.applied 2 "b"; Sample.applied 3 "c"; Sample.applied 10 "j"] in
  let R := [Sample.descriptor 1 "-"; Sample.descriptor 5 "e";
            Sample.descriptor 20 "t"] in
  ascending A /\ ascending R /\
  (forall v, In v (versions A) -> ~ In v (versions R)) /\
  result_map tags (migrator.mergeMigrations A R (-1))
    = Ok [(1, false); (2, true); (3, true); (10, true); (20, false)].
Proof.
  cbv zeta. repeat split.
  - unfold ascending. simpl. repeat constructor.
  - unfold ascending. simpl. repeat constructor.
  - simpl. intros v [<-|[<-|[<-|[]]]] [H|[H|[H|[]]]]; discriminate H.
Qed.

(** C2: with the applied history 1, 4 and the registry 1, 2, 3, 4, both
    ascending, the merge reads [applied[2]] in a slice of length 2 and
    panics. *)
Theorem C2_merge_index_out_of_range :
  let A := [Sample.applied 1 "-"; Sample.applied 4 "d"] in
  let R := [Sample.descriptor 1 "-"; Sample.descriptor 2 "b";
            Sample.descriptor 3 "c"; Sample.descriptor 4 "d"] in
  ascending A /\ ascending R /\
  migrator.mergeMigrations A R (-1) = Panic (IndexOutOfRange 2 2).
Proof.
  cbv zeta. repeat split; unfold ascending; simpl; repeat constructor.
Qed.

(** C3: with the same history and registry and the target set to 4, the
    merge panics as well, so it returns no sequence at all and the applied
    versions 1 and 4 are not delivered. *)
Theorem C3_merge_with_target_panics :
  let A := [Sample.applied 1 "-"; Sample.applied 4 "d"] in
  let R := [Sample.descriptor 1 "-"; Sample.descriptor 2 "b";
            Sample.descriptor 3 "c"; Sample.descriptor 4 "d"] in
  migrator.mergeMigrations A R 4 = Panic (IndexOutOfRange 2 2) /\
  forall merged, migrator.mergeMigrations A R 4 <> Ok merged.
Proof.
  cbv zeta. split; [reflexivity|]. intros merged H. discriminate H.
Qed.

(** ** The store *)

Lemma greatest_spec t : forall x,
  In (gorm.greatest x t) (x :: t) /\
  forall y, In y (x :: t) -> fst y <= fst (gorm.greatest x t).
Proof.
  induction t as [|z t IH]; intros x; simpl.
  - split; [now left|]. intros y [<-|[]]. lia.
  - destruct (fst x <? fst z) eqn:C.
    + apply Z.ltb_lt in C. destruct (IH z) as [Hin Hmax]. split.
      * now right.
      * intros y [<-|Hy]; [|now apply Hmax].
        specialize (Hmax z (or_introl eq_refl)). lia.
    + apply Z.ltb_ge in C. destruct (IH x) as [Hin Hmax]. split.
      * destruct Hin as [Hin|Hin]; [now left | now right; right].
      * intros y [<-|[<-|Hy]].
        -- apply Hmax. now left.
        -- specialize (Hmax x (or_introl eq_refl)). lia.
        -- apply Hmax. now right.
Qed.

Lemma distinct_NoDup ks : gorm.distinct ks = true <-> NoDup ks.
Proof.
  induction ks as [|k ks IH]; simpl.
  - split; [constructor | reflexivity].
  - rewrite andb_true_iff, negb_true_iff, IH. split.
    + intros [Hk Hd]. constructor; [|assumption].
      intros Hin. assert (existsb (Z.eqb k) ks = true); [|congruence].
      apply existsb_exists. exists k. split; [assumption | apply Z.eqb_refl].
    + intros Hn. inversion Hn as [|? ? Hk Hd]; subst. split; [|assumption].
      destruct (existsb (Z.eqb k) ks) eqn:E; [|reflexivity].
      apply existsb_exists in E. destruct E as [k' [Hin Hk']].
      apply Z.eqb_eq in Hk'. subst k'. contradiction.
Qed.

(** Rows that carry a key are stored as they are. *)
Lemma filled_keyed new : forall t,
  (forall r, In r new -> fst r <> 0) -> gorm.filled t new = Some new.
Proof.
  induction new as [|r new IH]; intros t H; [reflexivity|].
  cbn [gorm.filled].
  replace (fst r =? 0) with false
    by (symmetry; apply Z.eqb_neq, H; now left).
  rewrite IH by (intros x Hx; apply H; now right). reflexivity.
Qed.

Lemma records_keyed l :
  keyed l -> forall r, In r (map migrator.record_of l) -> fst r <> 0.
Proof.
  intros H r Hr. apply in_map_iff in Hr. destruct Hr as [x [<- Hx]].
  now apply H.
Qed.

Lemma Create_keyed new d :
  (forall r, In r new -> fst r <> 0) ->
  gorm.Create new d
    = match gorm.rows d with
      | None => (d, Some ErrNoSuchTable)
      | Some t =>
          if gorm.distinct (gorm.keys (t ++ new))
          then (gorm.mkDB (gorm.objects d) (Some (t ++ new)), None)
          else (d, Some ErrDuplicatedKey)
      end.
Proof.
  intros H. unfold gorm.Create. destruct (gorm.rows d) as [t|]; [|reflexivity].
  now rewrite filled_keyed.
Qed.

Lemma written_back_keyed new d :
  (forall r, In r new -> fst r <> 0) ->
  gorm.written_back new d = gorm.keys new.
Proof.
  intros H. unfold gorm.written_back.
  destruct (gorm.rows d) as [t|]; [|reflexivity].
  now rewrite filled_keyed.
Qed.

Lemma Delete_keyed v d :
  v <> 0 ->
  gorm.Delete v d
    = match gorm.rows d with
      | None => (d, Some ErrNoSuchTable)
      | Some t =>
          (gorm.mkDB (gorm.objects d)
                     (Some (filter (fun r => negb (fst r =? v)) t)), None)
      end.
Proof.
  intros H. unfold gorm.Delete. apply Z.eqb_neq in H. now rewrite H.
Qed.

Lemma sorted_NoDup ks : StronglySorted Z.lt ks -> NoDup ks.
Proof.
  induction 1 as [|k ks Hs IH Hk]; constructor; [|assumption].
  intros Hin. rewrite Forall_forall in Hk. specialize (Hk k Hin). lia.
Qed.

(** ** Version *)

(** C10, as stated, fails: in a store whose records were inserted in the
    order 1, 3, 2 the record inserted last carries version 2, and [Version]
    reports 3. *)
Lemma C10_last_inserted_refuted : ~ Version_reports_last_inserted.
Proof.
  intros H.
  specialize (H Sample.registry3
                (Sample.store [(1, "-"); (3, "addIndex"); (2, "addUsers")]%string)
                [(1, "-"); (3, "addIndex")]%string (2, "addUsers"%string)
                eq_refl).
  discriminate H.
Qed.

(** C10, amended: on a store with at least one record, [Version] returns,
    as both oldVersion and newVersion and with no error, the greatest
    version on record. *)
Theorem C10_Version_reports_greatest
        (m : migrator.Migrator) (w : migrator.World)
        (x : gorm.Row) (t : list gorm.Row)
        (Hrows : gorm.rows (migrator.db w) = Some (x :: t)) :
  exists v,
    migrator.Version m w = (v, v, None) /\
    In v (gorm.keys (x :: t)) /\
    forall k, In k (gorm.keys (x :: t)) -> k <= v.
Proof.
  exists (fst (gorm.greatest x t)).
  destruct (greatest_spec t x) as [Hin Hmax]. repeat split.
  - unfold migrator.Version, gorm.Last. rewrite Hrows. reflexivity.
  - unfold gorm.keys. now apply in_map.
  - intros k Hk. unfold gorm.keys in Hk. apply in_map_iff in Hk.
    destruct Hk as [y [<- Hy]]. now apply Hmax.
Qed.

Lemma C10_Version_reports_greatest_witness :
  exists v,
    migrator.Version Sample.registry3
      (Sample.store [(1, "-"); (3, "addIndex"); (2, "addUsers")]%string)
      = (v, v, None) /\
    In v [1; 3; 2] /\ forall k, In k [1; 3; 2] -> k <= v.
Proof.
  exact (C10_Version_reports_greatest Sample.registry3
           (Sample.store [(1, "-"); (3, "addIndex"); (2, "addUsers")]%string)
           (1, "-"%string) [(3, "addIndex"); (2, "addUsers")]%string eq_refl).
Defined.

(** A store can hold its records out of version order: with records 1 and 3
    and the registry 1, 2, 3, [Up] to target 2 inserts 2 after 3. *)
Example Up_inserts_out_of_version_order :
  let '(w, r) :=
    migrator.Up Sample.registry3 2
      (Sample.store [(1, "-"); (3, "addIndex")]%string) in
  gorm.rows (migrator.db w)
    = Some [(1, "-"); (3, "addIndex"); (2, "addUsers")]%string /\
  r = Ok (3, 2, None).
Proof. split; reflexivity. Qed.

(** ** SetVersion *)

Lemma collect_until_absent target ms : forall i migs,
  ~ In target (versions ms) ->
  snd (migrator.collect_until target ms i migs) = -1.
Proof.
  induction ms as [|x ms IH]; intros i migs H; simpl; [reflexivity|].
  destruct (Version x =? target) eqn:E.
  - apply Z.eqb_eq in E. exfalso. apply H. now left.
  - apply IH. intros Hin. apply H. now right.
Qed.

Lemma collect_until_found target ms : forall i migs,
  In target (versions ms) ->
  exists pre found post,
    ms = pre ++ found :: post /\
    Version found = target /\
    migrator.collect_until target ms i migs
      = (migs ++ pre ++ [found], Z.of_nat (i + length pre)).
Proof.
  induction ms as [|x ms IH]; intros i migs H; simpl in *; [contradiction|].
  destruct (Version x =? target) eqn:E.
  - apply Z.eqb_eq in E. exists [], x, ms. simpl.
    rewrite Nat.add_0_r. auto.
  - assert (Hin : In target (versions ms)).
    { destruct H as [H|H]; [|assumption]. apply Z.eqb_neq in E. contradiction. }
    destruct (IH (S i) (migs ++ [x]) Hin) as [pre [found [post [-> [Hv Hc]]]]].
    exists (x :: pre), found, post. simpl. repeat split; [assumption|].
    rewrite Hc, <- app_assoc. simpl. do 2 f_equal. lia.
Qed.

(** C9, as stated, fails: on a store without records the first step of
    [SetVersion], the read of the current version, fails, and its error is
    what comes back for the unknown target 7. *)
Lemma C9_not_found_refuted : ~ SetVersion_unknown_target_not_found.
Proof.
  intros H.
  destruct (H Sample.registry3 7 (Sample.store [])) as [old [new E]].
  - simpl. intros [A|[A|[A|[]]]]; discriminate A.
  - discriminate E.
Qed.

(** C9, amended: for a target that is not in the registry [SetVersion]
    leaves the world as it was (no delete, no insert, no procedure call) and
    returns an error: the target-not-found error when the read of the
    current version succeeds, and otherwise the error of that read. *)
Theorem C9_SetVersion_unknown_target
        (m : migrator.Migrator) (target : Z) (w : migrator.World)
        (Habsent : ~ In target (versions (migrator.migrations m))) :
  exists old e,
    migrator.SetVersion m target w = (w, Ok (old, 0, Some e)) /\
    e = match gorm.Last (migrator.db w) with
        | inl _ => ErrorTargetVersionNotFound
        | inr e' => e'
        end.
Proof.
  unfold migrator.SetVersion, migrator.Version.
  destruct (gorm.Last (migrator.db w)) as [r|e'].
  - pose proof (collect_until_absent target (migrator.migrations m) 0 []
                  Habsent) as Hc.
    destruct (migrator.collect_until target (migrator.migrations m) 0 [])
      as [migs idx].
    simpl in Hc. subst idx. simpl. eauto.
  - eauto.
Qed.

Lemma C9_SetVersion_unknown_target_witness :
  exists old e,
    migrator.SetVersion Sample.registry3 7 (Sample.store [(1, "-"%string)])
      = (Sample.store [(1, "-"%string)], Ok (old, 0, Some e)) /\
    e = ErrorTargetVersionNotFound.
Proof.
  apply (C9_SetVersion_unknown_target Sample.registry3 7
           (Sample.store [(1, "-"%string)])).
  simpl. intros [A|[A|[A|[]]]]; discriminate A.
Defined.

Lemma sorted_app_inv ks ks' :
  StronglySorted Z.lt (ks ++ ks') ->
  StronglySorted Z.lt ks /\ StronglySorted Z.lt ks' /\
  forall a b, In a ks -> In b ks' -> a < b.
Proof.
  induction ks as [|k ks IH]; simpl; intros H.
  - repeat split; [constructor | assumption | intros ? ? []].
  - apply StronglySorted_inv in H. destruct H as [Hs Hk].
    destruct (IH Hs) as [H1 [H2 H3]].
    rewrite Forall_forall in Hk. repeat split.
    + constructor; [assumption|]. apply Forall_forall. intros y Hy.
      apply Hk, in_or_app. now left.
    + assumption.
    + intros a b [<-|Ha] Hb.
      * apply Hk, in_or_app. now right.
      * now apply H3.
Qed.

Lemma Last_of_sorted (d : gorm.DB) (t : list gorm.Row) (ks : list Z) (v : Z) :
  gorm.rows d = Some t ->
  gorm.keys t = ks ++ [v] ->
  StronglySorted Z.lt (ks ++ [v]) ->
  exists r, gorm.Last d = inl r /\ fst r = v.
Proof.
  intros Hrows Hkeys Hs. unfold gorm.Last. rewrite Hrows.
  destruct t as [|x t].
  - destruct ks; discriminate Hkeys.
  - exists (gorm.greatest x t). split; [reflexivity|].
    destruct (greatest_spec t x) as [Hin Hmax].
    assert (Hv : In v (gorm.keys (x :: t))).
    { rewrite Hkeys. apply in_or_app. right. now left. }
    unfold gorm.keys in Hv. apply in_map_iff in Hv.
    destruct Hv as [y [Hy Hy']]. specialize (Hmax y Hy'). rewrite Hy in Hmax.
    assert (Hg : In (fst (gorm.greatest x t)) (ks ++ [v])).
    { rewrite <- Hkeys. unfold gorm.keys. now apply in_map. }
    apply in_app_or in Hg. destruct Hg as [Hg|[Hg|[]]]; [|now symmetry].
    destruct (sorted_app_inv ks [v] Hs) as [_ [_ Hlt]].
    specialize (Hlt _ v Hg (or_introl eq_refl)). lia.
Qed.

Lemma keys_record_of l : gorm.keys (map migrator.record_of l) = versions l.
Proof.
  unfold gorm.keys, versions. rewrite map_map. reflexivity.
Qed.

(** C8, as stated, fails: on a store without records [SetVersion 3] stops at
    its first step, the read of the current version, writes nothing, and
    [Version] afterwards still finds no record. *)
Lemma C8_SetVersion_then_Version_refuted : ~ SetVersion_then_Version.
Proof.
  intros H.
  specialize (H Sample.registry3 3 (Sample.store [])).
  assert (Ha : ascending (migrator.migrations Sample.registry3)).
  { unfold ascending. simpl. repeat constructor. }
  assert (Hin : In 3 (versions (migrator.migrations Sample.registry3))).
  { simpl. tauto. }
  specialize (H Ha Hin). discriminate H.
Qed.

(** C8, amended: when the store holds at least one record and no registry
    version is 0 (the value gorm takes for a key that is not set), then for
    every version [v] of the (strictly ascending) registry [SetVersion v]
    succeeds with newVersion [v], a following [Version] returns [v], and
    [SetVersion] calls no forward or backward procedure: all it does to the
    world is one delete-all and one bulk insert. *)
Theorem C8_SetVersion_then_Version
        (m : migrator.Migrator) (v : Z) (w : migrator.World)
        (x : gorm.Row) (t : list gorm.Row)
        (Hasc : ascending (migrator.migrations m))
        (Hkeyed : keyed (migrator.migrations m))
        (Hin : In v (versions (migrator.migrations m)))
        (Hrows : gorm.rows (migrator.db w) = Some (x :: t)) :
  exists old w' vs,
    migrator.SetVersion m v w = (w', Ok (old, v, None)) /\
    migrator.Version m w' = (v, v, None) /\
    migrator.log w'
      = migrator.log w ++ [migrator.DeleteAllRows None; migrator.Insert vs None] /\
    procedure_calls (migrator.log w') = procedure_calls (migrator.log w).
Proof.
  destruct (collect_until_found v (migrator.migrations m) 0 [] Hin)
    as [pre [found [post [Hm [Hv Hc]]]]].
  assert (Hsorted : StronglySorted Z.lt (versions pre ++ [v])).
  { unfold ascending in Hasc. rewrite Hm in Hasc. unfold versions in Hasc.
    rewrite map_app in Hasc. simpl in Hasc. rewrite Hv in Hasc.
    change (map Version pre ++ v :: map Version post)
      with (versions pre ++ [v] ++ versions post) in Hasc.
    rewrite app_assoc in Hasc.
    now destruct (sorted_app_inv _ _ Hasc) as [H1 _]. }
  assert (Hvs : versions (pre ++ [found]) = versions pre ++ [v]).
  { unfold versions. rewrite map_app. simpl. now rewrite Hv. }
  unfold migrator.SetVersion, migrator.Version at 1, gorm.Last.
  rewrite Hrows, Hc. simpl app.
  replace (Z.of_nat (0 + length pre) =? -1) with false
    by (symmetry; apply Z.eqb_neq; lia).
  rewrite Nat2Z.id. simpl Nat.add.
  assert (Hidx : index (migrator.migrations m) (length pre) = Ok found).
  { apply index_Some. rewrite Hm, nth_error_app2, Nat.sub_diag; [reflexivity|lia]. }
  rewrite Hidx.
  assert (Hk : forall r, In r (map migrator.record_of (pre ++ [found])) ->
                         fst r <> 0).
  { apply records_keyed. intros y Hy. apply Hkeyed. rewrite Hm.
    apply in_app_or in Hy. apply in_or_app.
    destruct Hy as [Hy|[<-|[]]]; [now left | right; now left]. }
  unfold gorm.DeleteAll. rewrite Hrows.
  rewrite Create_keyed, written_back_keyed by exact Hk.
  cbn [gorm.rows gorm.objects app].
  rewrite keys_record_of, Hvs.
  replace (gorm.distinct (versions pre ++ [v])) with true
    by (symmetry; apply distinct_NoDup, sorted_NoDup, Hsorted).
  assert (Hlast : index (versions pre ++ [v]) (length (pre ++ [found]) - 1)
                  = Ok v).
  { apply index_Some. rewrite length_app. simpl.
    rewrite nth_error_app2 by (unfold versions; rewrite length_map; lia).
    unfold versions. rewrite length_map.
    replace (length pre + 1 - 1 - length pre)%nat with 0%nat by lia.
    reflexivity. }
  rewrite Hlast.
  eexists. eexists. eexists. split; [reflexivity|].
  cbn [migrator.db migrator.log]. repeat split.
  - unfold migrator.Version.
    destruct (Last_of_sorted
                (gorm.mkDB (gorm.objects (migrator.db w))
                           (Some (map migrator.record_of (pre ++ [found]))))
                (map migrator.record_of (pre ++ [found])) (versions pre) v
                eq_refl) as [r [Hr Hfst]].
    + now rewrite keys_record_of.
    + assumption.
    + cbn [migrator.db]. rewrite Hr, Hfst. reflexivity.
  - rewrite <- app_assoc. reflexivity.
  - unfold procedure_calls. rewrite !filter_app. simpl.
    now rewrite !app_nil_r.
Qed.

Lemma C8_SetVersion_then_Version_witness :
  exists old w' vs,
    migrator.SetVersion Sample.registry3 3 (Sample.store [(1, "-"%string)])
      = (w', Ok (old, 3, None)) /\
    migrator.Version Sample.registry3 w' = (3, 3, None) /\
    migrator.log w'
      = [] ++ [migrator.DeleteAllRows None; migrator.Insert vs None] /\
    procedure_calls (migrator.log w') = [].
Proof.
  apply (C8_SetVersion_then_Version Sample.registry3 3
           (Sample.store [(1, "-"%string)]) (1, "-"%string) []).
  - unfold ascending. simpl. repeat constructor.
  - keyed_list.
  - simpl. tauto.
  - reflexivity.
Defined.

(** ** correlateMigrations *)

Lemma has_version_In v l : has_version v l = true <-> In v (versions l).
Proof.
  unfold has_version. rewrite existsb_exists. split.
  - intros [k [Hk E]]. apply Z.eqb_eq in E. now subst.
  - intros H. exists v. split; [assumption | apply Z.eqb_refl].
Qed.

Lemma skipn_past {A : Type} (s : list A) (k : nat) :
  (length s <= k)%nat -> skipn k s = [].
Proof. intros H. now apply skipn_all2. Qed.

Lemma corr_nil R : corr R [] = ([], None).
Proof. destruct R; reflexivity. Qed.

Lemma correlate_walk_corr applied actual fuel : forall i j correlated,
  (length applied - i + (length actual - j) < fuel)%nat ->
  migrator.correlate_walk applied actual fuel i j correlated
    = Ok (correlated ++ fst (corr (skipn j actual) (skipn i applied)),
          snd (corr (skipn j actual) (skipn i applied))).
Proof.
  induction fuel as [|fuel IH]; intros i j correlated Hf; [lia|].
  cbn [migrator.correlate_walk].
  destruct (i <? length applied)%nat eqn:Gi; cbn [andb].
  - apply Nat.ltb_lt in Gi.
    destruct (index_in_range applied i Gi) as [a [Ha Hia]].
    destruct (j <? length actual)%nat eqn:Gj.
    + apply Nat.ltb_lt in Gj.
      destruct (index_in_range actual j Gj) as [r [Hr Hjr]].
      rewrite Hia, Hjr. cbn [bind].
      rewrite (skipn_cons_nth _ _ _ Hr), (skipn_cons_nth _ _ _ Ha).
      cbn [corr].
      destruct (Less a r); [reflexivity|].
      destruct (Less r a).
      * rewrite IH by lia. now rewrite (skipn_cons_nth _ _ _ Ha).
      * rewrite IH by lia.
        destruct (corr (skipn (S j) actual) (skipn (S i) applied)) as [c e].
        cbn [fst snd]. now rewrite <- app_assoc.
    + apply Nat.ltb_ge in Gj.
      rewrite Hia, (skipn_past _ _ Gj), (skipn_cons_nth _ _ _ Ha). reflexivity.
  - apply Nat.ltb_ge in Gi. rewrite (skipn_past _ _ Gi).
    rewrite corr_nil. cbn [fst snd]. now rewrite app_nil_r.
Qed.

(** [correlateMigrations] is total, and is the cursor walk from the start of
    both slices. *)
Lemma correlate_fuel_enough applied actual :
  migrator.correlateMigrations applied actual = Ok (corr actual applied).
Proof.
  unfold migrator.correlateMigrations.
  rewrite correlate_walk_corr by lia. simpl.
  now destruct (corr actual applied).
Qed.

Lemma matching_nil R : matching [] R = [].
Proof. induction R as [|r R IH]; simpl; [reflexivity | assumption]. Qed.

Lemma Forall_lt_not_In (v : Z) (l : list Z) :
  Forall (Z.lt v) l -> forall k, k <= v -> ~ In k l.
Proof.
  intros H k Hk Hin. rewrite Forall_forall in H. specialize (H k Hin). lia.
Qed.

(** When the first applied versions [A1] all occur in [R] and what follows,
    [A2], is empty or starts with a version that [R] does not have, the walk
    returns the descriptors of [R] that match [A1], followed by that first
    unmatched record. *)
Lemma corr_prefix R : forall A1 A2,
  ascending R -> ascending (A1 ++ A2) ->
  (forall v, In v (versions A1) -> In v (versions R)) ->
  (forall a, hd_error A2 = Some a -> ~ In (Version a) (versions R)) ->
  corr R (A1 ++ A2)
    = (matching A1 R ++ firstn 1 A2,
       match A2 with [] => None | _ => Some ErrorSomeMigrationsAreAbsent end).
Proof.
  induction R as [|r R IH]; intros A1 A2 HR HA Hincl Hbad.
  - destruct A1 as [|a1 A1].
    + destruct A2; reflexivity.
    + exfalso. apply (Hincl (Version a1)). now left.
  - unfold ascending in HR. simpl in HR. apply StronglySorted_inv in HR.
    destruct HR as [HR Hr].
    destruct A1 as [|a1 A1].
    + rewrite matching_nil. destruct A2 as [|a A2]; [reflexivity|].
      simpl app. cbn [corr]. unfold Less, CompareMigrations.
      destruct (Version a <? Version r) eqn:C1; [reflexivity|].
      destruct (Version r <? Version a) eqn:C2.
      * change (corr R (a :: A2)) with (corr R ([] ++ a :: A2)).
        rewrite (IH [] (a :: A2)); try assumption.
        -- now rewrite matching_nil.
        -- intros v [].
        -- intros a' Ha' Hin. apply (Hbad a' Ha'). now right.
      * apply Z.ltb_ge in C1, C2. exfalso. apply (Hbad a eq_refl).
        left. lia.
    + simpl app. cbn [corr]. unfold Less, CompareMigrations.
      unfold ascending in HA. simpl in HA. apply StronglySorted_inv in HA.
      destruct HA as [HA Ha1].
      assert (Hin1 : In (Version a1) (versions (r :: R))).
      { apply Hincl. now left. }
      destruct (Version a1 <? Version r) eqn:C1.
      * apply Z.ltb_lt in C1. exfalso. destruct Hin1 as [E|Hin1]; [lia|].
        apply (Forall_lt_not_In _ _ Hr (Version a1)); [lia | assumption].
      * apply Z.ltb_ge in C1.
        assert (Hrest : forall k, In k (versions (A1 ++ A2)) -> Version a1 < k).
        { intros k Hk. rewrite Forall_forall in Ha1. now apply Ha1. }
        destruct (Version r <? Version a1) eqn:C2.
        -- apply Z.ltb_lt in C2.
           change (corr R (a1 :: A1 ++ A2)) with (corr R ((a1 :: A1) ++ A2)).
           rewrite (IH (a1 :: A1) A2); try assumption.
           ++ f_equal. f_equal. unfold matching. simpl.
              replace (has_version (Version r) (a1 :: A1)) with false;
                [reflexivity|].
              symmetry. apply not_true_is_false. intros H.
              apply has_version_In in H. destruct H as [E|H]; [lia|].
              assert (Version a1 < Version r); [|lia].
              apply Hrest. unfold versions. rewrite map_app.
              apply in_or_app. now left.
           ++ unfold ascending. simpl. now constructor.
           ++ intros v Hv. destruct (Hincl v Hv) as [E|H]; [|assumption].
              exfalso. destruct Hv as [E'|Hv]; [lia|].
              assert (Version a1 < v); [|lia].
              apply Hrest. unfold versions. rewrite map_app.
              apply in_or_app. now left.
           ++ intros a' Ha' Hin. apply (Hbad a' Ha'). now right.
        -- apply Z.ltb_ge in C2. assert (E : Version r = Version a1) by lia.
           rewrite (IH A1 A2); try assumption.
           ++ f_equal. unfold matching. simpl.
              replace (has_version (Version r) (a1 :: A1)) with true.
              2:{ symmetry. apply has_version_In. left. now symmetry. }
              simpl. f_equal. f_equal. apply filter_ext_in. intros x Hx.
              unfold has_version. simpl.
              replace (Version x =? Version a1) with false; [reflexivity|].
              symmetry. apply Z.eqb_neq. intros E'.
              apply (Forall_lt_not_In _ _ Hr (Version x)); [lia|].
              unfold versions. now apply in_map.
           ++ intros v Hv. assert (Hlt : Version a1 < v).
              { apply Hrest. unfold versions. rewrite map_app.
                apply in_or_app. now left. }
              destruct (Hincl v (or_intror Hv)) as [E'|H]; [lia | assumption].
           ++ intros a' Ha' Hin. apply (Hbad a' Ha'). now right.
Qed.

Lemma corr_success R : forall A c,
  corr R A = (c, None) -> versions c = versions A /\ incl c R.
Proof.
  induction R as [|r R IH]; intros A c H.
  - destruct A; simpl in H; [|discriminate].
    inversion H. split; [reflexivity | intros ? []].
  - destruct A as [|a A]; cbn [corr] in H.
    + inversion H. split; [reflexivity | intros ? []].
    + unfold Less, CompareMigrations in H.
      destruct (Version a <? Version r) eqn:C1; [discriminate|].
      destruct (Version r <? Version a) eqn:C2.
      * destruct (IH _ _ H) as [Hv Hi]. split; [assumption|].
        intros x Hx. right. now apply Hi.
      * destruct (corr R A) as [c' e'] eqn:E. inversion H; subst.
        destruct (IH _ _ E) as [Hv Hi].
        apply Z.ltb_ge in C1, C2. split.
        -- simpl. f_equal; [lia | assumption].
        -- intros x [<-|Hx]; [now left | right; now apply Hi].
Qed.

Lemma filter_ascending (f : Migration -> bool) R :
  ascending R -> ascending (filter f R).
Proof.
  unfold ascending. induction R as [|r R IH]; simpl; intros H; [constructor|].
  apply StronglySorted_inv in H. destruct H as [Hs Hr].
  destruct (f r); simpl; [|now apply IH].
  constructor; [now apply IH|].
  rewrite Forall_forall in *. intros k Hk. apply Hr.
  unfold versions in *. apply in_map_iff in Hk.
  destruct Hk as [x [<- Hx]]. apply filter_In in Hx.
  apply in_map. tauto.
Qed.

Lemma first_absent R : forall A,
  (exists v, In v (versions A) /\ ~ In v (versions R)) ->
  exists A1 a A2,
    A = A1 ++ a :: A2 /\
    (forall v, In v (versions A1) -> In v (versions R)) /\
    ~ In (Version a) (versions R).
Proof.
  induction A as [|x A IH]; intros [v [Hin Hout]]; [destruct Hin|].
  destruct (in_dec Z.eq_dec (Version x) (versions R)) as [Hx|Hx].
  - destruct IH as [A1 [a [A2 [-> [H1 H2]]]]].
    { exists v. split; [|assumption].
      destruct Hin as [<-|Hin]; [contradiction | assumption]. }
    exists (x :: A1), a, A2. repeat split; [|assumption].
    intros k [<-|Hk]; [assumption | now apply H1].
  - exists [], x, A. repeat split; [|assumption]. intros k [].
Qed.

(** C4: for strictly ascending A and R, when every version of A occurs in R,
    [correlateMigrations] succeeds and returns exactly the descriptors of R
    whose versions occur in A, in ascending order (their versions are those
    of A); and it succeeds only then. *)
Theorem C4_correlate_succeeds_iff
        (A R : list Migration) (HA : ascending A) (HR : ascending R) :
  ((forall v, In v (versions A) -> In v (versions R)) ->
   migrator.correlateMigrations A R = Ok (matching A R, None) /\
   versions (matching A R) = versions A /\
   ascending (matching A R))
  /\
  (forall c, migrator.correlateMigrations A R = Ok (c, None) ->
             forall v, In v (versions A) -> In v (versions R)).
Proof.
  split.
  - intros Hincl.
    assert (E : corr R A = (matching A R, None)).
    { pose proof (corr_prefix R A [] HR) as H.
      rewrite !app_nil_r in H. apply H; try assumption.
      intros a Ha. discriminate Ha. }
    repeat split.
    + rewrite correlate_fuel_enough. now rewrite E.
    + now destruct (corr_success _ _ _ E).
    + now apply filter_ascending.
  - intros c Hc v Hv. rewrite correlate_fuel_enough in Hc.
    inversion Hc as [E]. destruct (corr_success _ _ _ E) as [Hvs Hi].
    rewrite <- Hvs in Hv. unfold versions in *.
    apply in_map_iff in Hv. destruct Hv as [x [<- Hx]].
    apply in_map. now apply Hi.
Qed.

Lemma C4_correlate_succeeds_iff_witness :
  let A := [Sample.applied 1 "-"; Sample.applied 2 "addUsers"] in
  let R := migrator.migrations Sample.registry3 in
  ((forall v, In v (versions A) -> In v (versions R)) ->
   migrator.correlateMigrations A R = Ok (matching A R, None) /\
   versions (matching A R) = versions A /\
   ascending (matching A R))
  /\
  (forall c, migrator.correlateMigrations A R = Ok (c, None) ->
             forall v, In v (versions A) -> In v (versions R)).
Proof.
  apply C4_correlate_succeeds_iff; unfold ascending; simpl; repeat constructor.
Defined.

(** C5: for strictly ascending A and R, when A has a version that R has not,
    [correlateMigrations] reports [ErrorSomeMigrationsAreAbsent]; the
    sequence it returns is the correlated prefix, that is the result of
    correlating the records before the first unmatched one, followed by that
    first unmatched record. *)
Theorem C5_correlate_reports_absent
        (A R : list Migration) (HA : ascending A) (HR : ascending R)
        (Habsent : exists v, In v (versions A) /\ ~ In v (versions R)) :
  exists A1 a A2,
    A = A1 ++ a :: A2 /\
    (forall v, In v (versions A1) -> In v (versions R)) /\
    ~ In (Version a) (versions R) /\
    migrator.correlateMigrations A1 R = Ok (matching A1 R, None) /\
    migrator.correlateMigrations A R
      = Ok (matching A1 R ++ [a], Some ErrorSomeMigrationsAreAbsent).
Proof.
  destruct (first_absent R A Habsent) as [A1 [a [A2 [-> [H1 H2]]]]].
  exists A1, a, A2. repeat split; try assumption.
  - rewrite correlate_fuel_enough.
    pose proof (corr_prefix R A1 [] HR) as H. rewrite !app_nil_r in H.
    rewrite H; try assumption; [reflexivity | | intros x Hx; discriminate Hx].
    unfold ascending, versions in HA. rewrite map_app in HA.
    now destruct (sorted_app_inv _ _ HA) as [HA1 _].
  - rewrite correlate_fuel_enough.
    rewrite (corr_prefix R A1 (a :: A2) HR HA H1); [reflexivity|].
    intros a' Ha'. inversion Ha'. now subst.
Qed.

Lemma C5_correlate_reports_absent_witness :
  let A := [Sample.applied 1 "-"; Sample.applied 2 "addUsers";
            Sample.applied 4 "gone"; Sample.applied 5 "late"] in
  let R := migrator.migrations Sample.registry3 in
  exists A1 a A2,
    A = A1 ++ a :: A2 /\
    (forall v, In v (versions A1) -> In v (versions R)) /\
    ~ In (Version a) (versions R) /\
    migrator.correlateMigrations A1 R = Ok (matching A1 R, None) /\
    migrator.correlateMigrations A R
      = Ok (matching A1 R ++ [a], Some ErrorSomeMigrationsAreAbsent).
Proof.
  apply C5_correlate_reports_absent.
  - unfold ascending. simpl. repeat constructor.
  - unfold ascending. simpl. repeat constructor.
  - exists 4. split; [simpl; tauto|].
    simpl. intros [H|[H|[H|[]]]]; discriminate H.
Defined.

Example correlate_scenario :
  result_map (fun p => (tags (fst p), snd p))
    (migrator.correlateMigrations
       [Sample.applied 1 "-"; Sample.applied 2 "addUsers";
        Sample.applied 4 "gone"; Sample.applied 5 "late"]
       (migrator.migrations Sample.registry3))
  = Ok ([(1, false); (2, false); (4, true)], Some ErrorSomeMigrationsAreAbsent).
Proof. reflexivity. Qed.

(** ** Up: the loop over the merged sequence *)

Lemma Create_rows new d d' :
  (forall r, In r new -> fst r <> 0) ->
  gorm.Create new d = (d', None) ->
  exists t, gorm.rows d = Some t /\ gorm.rows d' = Some (t ++ new).
Proof.
  intros Hk. rewrite Create_keyed by exact Hk.
  destruct (gorm.rows d) as [t|]; [|discriminate].
  destruct (gorm.distinct (gorm.keys (t ++ new))); [|discriminate].
  intros H. inversion H. exists t. split; reflexivity.
Qed.

Lemma Create_failed new d d' e :
  gorm.Create new d = (d', Some e) -> d' = d.
Proof.
  unfold gorm.Create. destruct (gorm.rows d) as [t|].
  - destruct (gorm.filled t new) as [new'|].
    + destruct (gorm.distinct (gorm.keys (t ++ new'))); intros H;
        now inversion H.
    + intros H. now inversion H.
  - intros H. now inversion H.
Qed.

Lemma record_keyed x :
  Version x <> 0 -> forall r, In r [migrator.record_of x] -> fst r <> 0.
Proof. intros H r [<-|[]]. exact H. Qed.

Lemma last_app_singleton (l : list Z) (x d : Z) : last (l ++ [x]) d = x.
Proof. apply last_last. Qed.

Lemma last_cons_default (l : list Z) (x d : Z) : last (x :: l) d = last l x.
Proof.
  revert x d. induction l as [|y l IH]; intros x d; [reflexivity|].
  change (last (x :: y :: l) d) with (last (y :: l) d).
  rewrite (IH y d), (IH y x). reflexivity.
Qed.

(** A run of the loop that returns without error has applied every unstored
    entry, in order. *)
Lemma Up_range_ok merged : forall nv w w' nv',
  migrator.Up_range merged nv w = (w', Ok (nv', None)) ->
  migrator.log w' = migrator.log w ++ applied_steps (unstored merged) /\
  nv' = last (versions (unstored merged)) nv /\
  ((forall x, In x (unstored merged) -> keeps_records (Up x)) ->
   keyed (unstored merged) ->
   forall t, gorm.rows (migrator.db w) = Some t ->
   gorm.rows (migrator.db w')
     = Some (t ++ map migrator.record_of (unstored merged))).
Proof.
  induction merged as [|x merged IH]; intros nv w w' nv' H; simpl in H.
  - inversion H; subst. simpl. rewrite !app_nil_r.
    repeat split. intros _ _ t Ht. now rewrite app_nil_r.
  - unfold unstored. simpl filter. fold (unstored merged).
    destruct (Stored x) eqn:Sx; simpl negb; cbv iota.
    + now apply IH.
    + destruct (Up x) as [forward|] eqn:Ux; [|discriminate].
      destruct (forward (migrator.db w)) as [d1 [e1|]] eqn:F; [discriminate|].
      destruct (gorm.Create [migrator.record_of x] d1) as [d2 [e2|]] eqn:C;
        [discriminate|].
      apply IH in H. destruct H as [Hlog [Hnv Hrows]].
      cbn [migrator.log migrator.db] in *. repeat split.
      * rewrite Hlog, <- !app_assoc. reflexivity.
      * rewrite Hnv. simpl versions. now rewrite last_cons_default.
      * intros Hk Hz t Ht.
        destruct (Create_rows _ _ _ (record_keyed x (Hz x (or_introl eq_refl))) C)
          as [t1 [Ht1 Ht2]].
        assert (E : gorm.rows d1 = gorm.rows (migrator.db w)).
        { pose proof (Hk x (or_introl eq_refl) forward (migrator.db w) Ux) as K.
          now rewrite F in K. }
        rewrite E, Ht in Ht1. inversion Ht1; subst t1.
        rewrite (Hrows (fun y Hy => Hk y (or_intror Hy))
                       (fun y Hy => Hz y (or_intror Hy)) _ Ht2).
        simpl. now rewrite <- app_assoc.
Qed.

(** A run of the loop that returns an error has applied the unstored
    entries before the failing one, and the failing step is the last thing
    it did. *)
Lemma Up_range_failed merged : forall nv w w' nv' e,
  migrator.Up_range merged nv w = (w', Ok (nv', Some e)) ->
  exists done failed rest,
    unstored merged = done ++ failed :: rest /\
    ((migrator.log w'
        = migrator.log w ++ applied_steps done
            ++ [migrator.Forward (Version failed) (Some e)] /\
      nv' = last (versions done) nv)
     \/
     (migrator.log w'
        = migrator.log w ++ applied_steps done
            ++ [migrator.Forward (Version failed) None;
                migrator.Insert [Version failed] (Some e)] /\
      nv' = Version failed)) /\
    ((forall x, In x (done ++ [failed]) -> keeps_records (Up x)) ->
     keyed done ->
     forall t, gorm.rows (migrator.db w) = Some t ->
     gorm.rows (migrator.db w') = Some (t ++ map migrator.record_of done)).
Proof.
  induction merged as [|x merged IH]; intros nv w w' nv' e H; simpl in H.
  - discriminate.
  - unfold unstored. simpl filter. fold (unstored merged).
    destruct (Stored x) eqn:Sx; simpl negb; cbv iota.
    + now apply IH.
    + destruct (Up x) as [forward|] eqn:Ux; [|discriminate].
      destruct (forward (migrator.db w)) as [d1 [e1|]] eqn:F.
      * inversion H; subst. exists [], x, (unstored merged).
        simpl. split; [reflexivity|]. split; [left; auto|].
        intros Hk _ t Ht. rewrite app_nil_r, <- Ht.
        pose proof (Hk x (or_introl eq_refl) forward (migrator.db w) Ux) as K.
        now rewrite F in K.
      * destruct (gorm.Create [migrator.record_of x] d1) as [d2 [e2|]] eqn:C.
        -- inversion H; subst. exists [], x, (unstored merged).
           simpl. split; [reflexivity|]. split.
           ++ right. split; [|reflexivity]. now rewrite <- app_assoc.
           ++ intros Hk _ t Ht. rewrite app_nil_r, <- Ht.
              rewrite (Create_failed _ _ _ _ C).
              pose proof (Hk x (or_introl eq_refl) forward (migrator.db w) Ux)
                as K.
              now rewrite F in K.
        -- apply IH in H.
           destruct H as [done [failed [rest [Hu [Hlog Hrows]]]]].
           exists (x :: done), failed, rest.
           cbn [migrator.log migrator.db] in *. split; [now rewrite Hu|]. split.
           ++ destruct Hlog as [[Hlog Hnv]|[Hlog Hnv]]; [left|right]; split;
                try assumption.
              ** rewrite Hlog, <- !app_assoc. reflexivity.
              ** rewrite Hnv. simpl versions. now rewrite last_cons_default.
              ** rewrite Hlog, <- !app_assoc. reflexivity.
           ++ intros Hk Hz t Ht.
              destruct (Create_rows _ _ _
                          (record_keyed x (Hz x (or_introl eq_refl))) C)
                as [t1 [Ht1 Ht2]].
              assert (E : gorm.rows d1 = gorm.rows (migrator.db w)).
              { pose proof (Hk x (or_introl eq_refl) forward (migrator.db w) Ux)
                  as K.
                now rewrite F in K. }
              rewrite E, Ht in Ht1. inversion Ht1; subst t1.
              rewrite (Hrows (fun y Hy => Hk y (or_intror Hy))
                             (fun y Hy => Hz y (or_intror Hy)) _ Ht2).
              simpl. now rewrite <- app_assoc.
Qed.

(** The loop returns when no procedure it calls is nil. *)
Lemma Up_range_returns merged : forall nv w,
  (forall x, In x (unstored merged) -> Up x <> None) ->
  exists w' nv' err, migrator.Up_range merged nv w = (w', Ok (nv', err)).
Proof.
  induction merged as [|x merged IH]; intros nv w Hp; simpl.
  - eauto.
  - unfold unstored in Hp. simpl filter in Hp. fold (unstored merged) in Hp.
    destruct (Stored x) eqn:Sx; simpl negb in Hp; cbv iota in Hp.
    + now apply IH.
    + destruct (Up x) as [forward|] eqn:Ux;
        [|exfalso; now apply (Hp x (or_introl eq_refl))].
      destruct (forward (migrator.db w)) as [d1 [e1|]]; [eauto|].
      destruct (gorm.Create [migrator.record_of x] d1) as [d2 [e2|]]; [eauto|].
      apply IH. intros y Hy. apply Hp. now right.
Qed.

(** ** Up *)

Lemma versions_app l l' : versions (l ++ l') = versions l ++ versions l'.
Proof. apply map_app. Qed.

Lemma last_version_last l :
  migrator.last_version l = Ok (last (versions l) 0).
Proof.
  unfold migrator.last_version.
  destruct l as [|x l] using rev_ind; [reflexivity|].
  rewrite length_app. simpl length.
  replace (0 <? length l + 1)%nat with true
    by (symmetry; apply Nat.ltb_lt; lia).
  rewrite (index_Some _ _ x).
  - cbn [bind]. rewrite versions_app. simpl. now rewrite last_app_singleton.
  - rewrite nth_error_app2 by lia.
    replace (length l + 1 - 1 - length l)%nat with 0%nat by lia. reflexivity.
Qed.

Lemma Up_unfold m target w w' old new err t :
  gorm.rows (migrator.db w) = Some t ->
  migrator.Up m target w = (w', Ok (old, new, err)) ->
  exists merged,
    migrator.last_version (migrator.history_of (gorm.order_asc t)) = Ok old /\
    migrator.mergeMigrations (migrator.history_of (gorm.order_asc t))
                             (migrator.migrations m) target = Ok merged /\
    migrator.Up_range merged old w = (w', Ok (new, err)).
Proof.
  intros Hrows. unfold migrator.Up, gorm.Find. rewrite Hrows.
  destruct (migrator.last_version _) as [version| |]; try discriminate.
  destruct (migrator.mergeMigrations _ _ _) as [merged| |]; try discriminate.
  destruct (migrator.Up_range merged version w) as [w1 r] eqn:E.
  destruct r as [[nv e]| |]; simpl; intros H; inversion H; subst.
  exists merged. auto.
Qed.

(** C7, as stated, fails on an insert failure: [newVersion] is assigned
    before the record is written (line 109).  With the registry 1, 2, 3
    whose third forward procedure drops the [migrations] table, [Up] applies
    2, runs the procedure of 3, fails to insert the record of 3 and returns
    newVersion 3, not 2. *)
Lemma C7_last_applied_refuted : ~ Up_failure_reports_last_applied.
Proof.
  intros H.
  specialize (H unplugging_registry (-1) (Sample.store [(1, "-"%string)])
                (fst (migrator.Up unplugging_registry (-1)
                        (Sample.store [(1, "-"%string)])))
                1 3 3 ErrNoSuchTable [Sample.descriptor 2 "addUsers"]
                eq_refl (or_intror eq_refl)).
  discriminate H.
Qed.

(** C7, amended.  On a store whose table can be read, when the merge
    returns and no pending procedure is nil, [Up] returns, and the pending
    (unstored) entries of the merged sequence split into the entries [done]
    it applied, in order, and the entries [rest] it did not reach.  Either
    nothing failed and [rest] is empty; or the step of the first entry of
    [rest] failed, and that failing call is the last thing [Up] did: no
    later procedure is run, no backward procedure or delete is issued, and
    the error returned is the error of that call.  When a forward procedure
    failed, newVersion is the version of the last entry of [done], or the
    pre-call version [old] when there is none; when an insert failed,
    newVersion is the version of the entry whose record was not written.
    The records of [done] stay in the store (the pending procedures leaving
    the [migrations] table alone, and the pending versions not being 0). *)
Theorem C7_Up_stops_at_first_failure
        (m : migrator.Migrator) (target : Z) (w : migrator.World)
        (t : list gorm.Row) (merged : list Migration)
        (Hrows : gorm.rows (migrator.db w) = Some t)
        (Hmerge : migrator.mergeMigrations
                    (migrator.history_of (gorm.order_asc t))
                    (migrator.migrations m) target = Ok merged)
        (Hprocs : forall x, In x (unstored merged) -> Up x <> None) :
  exists w' old new err done rest,
    migrator.Up m target w = (w', Ok (old, new, err)) /\
    migrator.last_version (migrator.history_of (gorm.order_asc t)) = Ok old /\
    unstored merged = done ++ rest /\
    ((err = None /\ rest = [] /\
      migrator.log w' = migrator.log w ++ applied_steps done /\
      new = last (versions done) old)
     \/
     (exists e failed rest',
        err = Some e /\ rest = failed :: rest' /\
        migrator.log w'
          = migrator.log w ++ applied_steps done
              ++ [migrator.Forward (Version failed) (Some e)] /\
        new = last (versions done) old)
     \/
     (exists e failed rest',
        err = Some e /\ rest = failed :: rest' /\
        migrator.log w'
          = migrator.log w ++ applied_steps done
              ++ [migrator.Forward (Version failed) None;
                  migrator.Insert [Version failed] (Some e)] /\
        new = Version failed)) /\
    ((forall x, In x (unstored merged) -> keeps_records (Up x)) ->
     keyed (unstored merged) ->
     gorm.rows (migrator.db w') = Some (t ++ map migrator.record_of done)).
Proof.
  unfold migrator.Up, gorm.Find. rewrite Hrows, Hmerge.
  rewrite last_version_last.
  set (old := last (versions (migrator.history_of (gorm.order_asc t))) 0).
  destruct (Up_range_returns merged old w Hprocs) as [w' [nv [err HU]]].
  rewrite HU. cbn [bind fst snd].
  exists w', old, nv, err.
  destruct err as [e|].
  - destruct (Up_range_failed _ _ _ _ _ _ HU)
      as [done [failed [rest' [Hu [Hlog Hkeep]]]]].
    exists done, (failed :: rest'). repeat split; try assumption.
    + right. destruct Hlog as [[Hlog Hnv]|[Hlog Hnv]]; [left|right];
        exists e, failed, rest'; repeat split; assumption.
    + intros Hk Hz. apply Hkeep; try assumption.
      * intros x Hx. apply Hk. rewrite Hu.
        apply in_app_or in Hx. apply in_or_app.
        destruct Hx as [Hx|[<-|[]]]; [now left | right; now left].
      * intros x Hx. apply Hz. rewrite Hu. apply in_or_app. now left.
  - destruct (Up_range_ok _ _ _ _ _ HU) as [Hlog [Hnv Hkeep]].
    exists (unstored merged), []. rewrite app_nil_r.
    repeat split; try assumption.
    + left. repeat split; assumption.
    + intros Hk Hz. now apply Hkeep.
Qed.

Lemma C7_Up_stops_at_first_failure_witness :
  let m := Sample.broken_registry in
  let w := Sample.store [(1, "-"%string)] in
  let pending :=
    [Sample.descriptor 2 "addUsers";
     mkMigration 3 "addIndex" (Sample.failing "boom") (Sample.drop "addIndex")
                 false] in
  exists w' old new err done rest,
    migrator.Up m (-1) w = (w', Ok (old, new, err)) /\
    migrator.last_version
      (migrator.history_of (gorm.order_asc [(1, "-"%string)])) = Ok old /\
    pending = done ++ rest /\
    ((err = None /\ rest = [] /\
      migrator.log w' = migrator.log w ++ applied_steps done /\
      new = last (versions done) old)
     \/
     (exists e failed rest',
        err = Some e /\ rest = failed :: rest' /\
        migrator.log w'
          = migrator.log w ++ applied_steps done
              ++ [migrator.Forward (Version failed) (Some e)] /\
        new = last (versions done) old)
     \/
     (exists e failed rest',
        err = Some e /\ rest = failed :: rest' /\
        migrator.log w'
          = migrator.log w ++ applied_steps done
              ++ [migrator.Forward (Version failed) None;
                  migrator.Insert [Version failed] (Some e)] /\
        new = Version failed)) /\
    ((forall x, In x pending -> keeps_records (Up x)) ->
     keyed pending ->
     gorm.rows (migrator.db w')
       = Some ([(1, "-"%string)] ++ map migrator.record_of done)).
Proof.
  apply (C7_Up_stops_at_first_failure Sample.broken_registry (-1)
           (Sample.store [(1, "-"%string)]) [(1, "-"%string)]
           [Sample.applied 1 "-"; Sample.descriptor 2 "addUsers";
            mkMigration 3 "addIndex" (Sample.failing "boom")
                        (Sample.drop "addIndex") false]).
  - reflexivity.
  - reflexivity.
  - intros x [<-|[<-|[]]]; discriminate.
Defined.

(** The two ways [Up] can fail half-way: the forward procedure of version 3
    fails after version 2 was applied; the insert for the second descriptor
    of version 2 fails after its forward procedure ran. *)
Example Up_forward_failure :
  let '(w', r) :=
    migrator.Up Sample.broken_registry (-1) (Sample.store [(1, "-"%string)]) in
  r = Ok (1, 2, Some (ErrProcedure "boom")) /\
  migrator.log w'
    = [migrator.Forward 2 None; migrator.Insert [2] None;
       migrator.Forward 3 (Some (ErrProcedure "boom"))] /\
  gorm.rows (migrator.db w') = Some [(1, "-"); (2, "addUsers")]%string.
Proof. repeat split. Qed.

Example Up_insert_failure :
  let '(w', r) :=
    migrator.Up Sample.clashing_registry (-1) (Sample.store [(1, "-"%string)]) in
  r = Ok (1, 2, Some ErrDuplicatedKey) /\
  migrator.log w'
    = [migrator.Forward 2 None; migrator.Insert [2] None;
       migrator.Forward 2 None; migrator.Insert [2] (Some ErrDuplicatedKey)] /\
  gorm.rows (migrator.db w') = Some [(1, "-"); (2, "addUsers")]%string /\
  gorm.objects (migrator.db w') = ["addRoles"; "addUsers"]%string.
Proof. repeat split. Qed.

(** ** Counting versions in sorted sequences *)

Lemma count_le_app v l l' :
  count_le v (l ++ l') = (count_le v l + count_le v l')%nat.
Proof. unfold count_le. now rewrite filter_app, length_app. Qed.

Lemma count_ge_app v l l' :
  count_ge v (l ++ l') = (count_ge v l + count_ge v l')%nat.
Proof. unfold count_ge. now rewrite filter_app, length_app. Qed.

Lemma count_length (f : Z -> bool) l : (length (filter f l) <= length l)%nat.
Proof.
  induction l as [|x l IH]; simpl; [lia|]. destruct (f x); simpl; lia.
Qed.

Lemma count_perm (f : Z -> bool) l l' :
  Permutation l l' -> length (filter f l) = length (filter f l').
Proof.
  induction 1 as [|x l l' _ IH|x y l|l l' l'' _ IH1 _ IH2]; simpl.
  - reflexivity.
  - destruct (f x); simpl; congruence.
  - destruct (f x), (f y); reflexivity.
  - congruence.
Qed.

Lemma count_le_mono v v' l : v <= v' -> (count_le v l <= count_le v' l)%nat.
Proof.
  intros Hv. unfold count_le. induction l as [|x l IH]; simpl; [lia|].
  destruct (x <=? v) eqn:C.
  - apply Z.leb_le in C. replace (x <=? v') with true; [simpl; lia|].
    symmetry. apply Z.leb_le. lia.
  - destruct (x <=? v'); simpl; lia.
Qed.

Lemma count_ge_anti v v' l : v <= v' -> (count_ge v' l <= count_ge v l)%nat.
Proof.
  intros Hv. unfold count_ge. induction l as [|x l IH]; simpl; [lia|].
  destruct (v' <=? x) eqn:C.
  - apply Z.leb_le in C. replace (v <=? x) with true; [simpl; lia|].
    symmetry. apply Z.leb_le. lia.
  - destruct (v <=? x); simpl; lia.
Qed.

Lemma count_le_one v x : x <= v -> count_le v [x] = 1%nat.
Proof.
  intros H. unfold count_le. simpl.
  replace (x <=? v) with true; [reflexivity|]. symmetry. now apply Z.leb_le.
Qed.

Lemma count_ge_one v x : v <= x -> count_ge v [x] = 1%nat.
Proof.
  intros H. unfold count_ge. simpl.
  replace (v <=? x) with true; [reflexivity|]. symmetry. now apply Z.leb_le.
Qed.

Lemma nondecreasing_nth l : forall k j x y,
  nondecreasing l -> (k <= j)%nat ->
  nth_error l k = Some x -> nth_error l j = Some y -> x <= y.
Proof.
  induction l as [|z l IH]; intros k j x y Hs Hkj Hk Hj.
  - destruct k; discriminate.
  - apply StronglySorted_inv in Hs. destruct Hs as [Hs Hz].
    destruct k as [|k]; simpl in Hk.
    + inversion Hk; subst z. destruct j as [|j]; simpl in Hj.
      * inversion Hj. lia.
      * rewrite Forall_forall in Hz. apply Hz. eapply nth_error_In; eauto.
    + destruct j as [|j]; [lia|]. simpl in Hj.
      apply (IH k j); try assumption. lia.
Qed.

(** In a sorted sequence with more than [k] elements up to [v], the element
    at index [k] is one of them. *)
Lemma nth_of_count_le l : forall k v,
  nondecreasing l -> (k < count_le v l)%nat ->
  exists x, nth_error l k = Some x /\ x <= v.
Proof.
  induction l as [|z l IH]; intros k v Hs Hc.
  - unfold count_le in Hc. simpl in Hc. lia.
  - pose proof Hs as Hs0.
    apply StronglySorted_inv in Hs. destruct Hs as [Hs Hz].
    destruct k as [|k].
    + exists z. split; [reflexivity|].
      unfold count_le in Hc. simpl in Hc.
      destruct (z <=? v) eqn:C; [now apply Z.leb_le|].
      destruct (filter (fun x => x <=? v) l) as [|y f] eqn:F;
        [simpl in Hc; lia|].
      assert (Hy : In y (filter (fun x => x <=? v) l)) by (rewrite F; now left).
      apply filter_In in Hy. destruct Hy as [Hy Hyv].
      apply Z.leb_le in Hyv. rewrite Forall_forall in Hz.
      specialize (Hz y Hy). lia.
    + simpl. apply IH; [assumption|].
      unfold count_le in *. simpl in Hc.
      destruct (z <=? v); simpl in Hc; lia.
Qed.

(** Elements from [v] upwards all sit after an element below [v]. *)
Lemma count_ge_after l : forall i a v,
  nondecreasing l -> nth_error l i = Some a -> a < v ->
  (count_ge v l + S i <= length l)%nat.
Proof.
  induction l as [|z l IH]; intros i a v Hs Hi Hav.
  - destruct i; discriminate.
  - assert (Hza : z <= a).
    { apply (nondecreasing_nth (z :: l) 0 i); auto. lia. }
    apply StronglySorted_inv in Hs. destruct Hs as [Hs Hz].
    unfold count_ge. simpl.
    replace (v <=? z) with false by (symmetry; apply Z.leb_gt; lia).
    destruct i as [|i]; simpl in Hi.
    + pose proof (count_length (fun x => v <=? x) l). lia.
    + specialize (IH i a v Hs Hi Hav). unfold count_ge in IH. lia.
Qed.

(** Elements up to index [j] all count when the one at [j] does. *)
Lemma count_le_upto l : forall j a v,
  nondecreasing l -> nth_error l j = Some a -> a <= v ->
  (S j <= count_le v l)%nat.
Proof.
  induction l as [|z l IH]; intros j a v Hs Hj Hav.
  - destruct j; discriminate.
  - assert (Hza : z <= a).
    { apply (nondecreasing_nth (z :: l) 0 j); auto. lia. }
    apply StronglySorted_inv in Hs. destruct Hs as [Hs Hz].
    unfold count_le. simpl.
    replace (z <=? v) with true by (symmetry; apply Z.leb_le; lia).
    simpl. destruct j as [|j]; simpl in Hj; [lia|].
    specialize (IH j a v Hs Hj Hav). unfold count_le in IH. lia.
Qed.

Lemma firstn_S_nth {X : Type} (l : list X) : forall i x,
  nth_error l i = Some x -> firstn (S i) l = firstn i l ++ [x].
Proof.
  induction l as [|y l IH]; intros [|i] x H; simpl in *; try discriminate.
  - now inversion H.
  - f_equal. now apply IH.
Qed.

Lemma count_ge_firstn v l i :
  (count_ge v (firstn i l) <= count_ge v l)%nat.
Proof.
  rewrite <- (firstn_skipn i l) at 2. rewrite count_ge_app. lia.
Qed.

Lemma ascending_nondecreasing l : ascending l -> nondecreasing (versions l).
Proof.
  unfold ascending, nondecreasing.
  induction 1 as [|k ks Hs IH Hk]; constructor; [assumption|].
  eapply Forall_impl; [|exact Hk]. intros; lia.
Qed.

(** ** What one merge leaves behind *)

Lemma unstored_app l l' : unstored (l ++ l') = unstored l ++ unstored l'.
Proof. apply filter_app. Qed.


Lemma nth_error_versions l k x :
  nth_error l k = Some x -> nth_error (versions l) k = Some (Version x).
Proof. intros H. unfold versions. now rewrite nth_error_map, H. Qed.

Lemma below_max_Some actual max j r :
  nth_error actual j = Some r ->
  migrator.below_max actual max j = Ok (Version r <? max).
Proof.
  intros H. unfold migrator.below_max.
  destruct actual as [|x actual]; [destruct j; discriminate|].
  cbn [length Nat.eqb]. now rewrite (index_Some _ _ _ H).
Qed.

Section MergeOnce.
Variables A R : list Migration.
Variable max : Z.
Hypothesis HA : nondecreasing (versions A).
Hypothesis HR : nondecreasing (versions R).
Hypothesis HAs : forall x, In x A -> Stored x = true.
Hypothesis HRs : forall x, In x R -> Stored x = false.

Lemma unstored_snoc_applied merged a :
  In a A -> unstored (merged ++ [a]) = unstored merged.
Proof.
  intros H. rewrite unstored_app. unfold unstored at 2. simpl.
  rewrite (HAs a H). simpl. apply app_nil_r.
Qed.

Lemma unstored_snoc_actual merged r :
  In r R -> unstored (merged ++ [r]) = unstored merged ++ [r].
Proof.
  intros H. rewrite unstored_app. unfold unstored at 2. simpl.
  now rewrite (HRs r H).
Qed.

Lemma registry_le k j rk rj :
  (k <= j)%nat -> nth_error R k = Some rk -> nth_error R j = Some rj ->
  Version rk <= Version rj.
Proof.
  intros Hkj Hk Hj.
  apply (nondecreasing_nth (versions R) k j); auto using nth_error_versions.
Qed.

(** The first branch: [applied[i]] goes out, [i] moves on. *)
Lemma seen_take i j merged a :
  seen A R max i j merged -> nth_error A i = Some a ->
  seen A R max (S i) j (merged ++ [a]).
Proof.
  intros [Hj [Hin H]] Ha.
  assert (HaA : In a A) by (eapply nth_error_In; eauto).
  split; [assumption|]. split.
  - intros x Hx. apply in_app_or in Hx.
    destruct Hx as [Hx|[<-|[]]]; [now apply Hin | now left].
  - intros k r Hk Hr. destruct (H k r Hk Hr) as [H1 [H2 H3]].
    rewrite (unstored_snoc_applied _ _ HaA).
    repeat split; try assumption.
    rewrite (firstn_S_nth _ _ _ (nth_error_versions _ _ _ Ha)).
    rewrite !count_ge_app in *. lia.
Qed.

(** The second branch and the last loop: [actual[j]] goes out. *)
Lemma seen_emit i j merged r :
  seen A R max i j merged -> nth_error R j = Some r -> Version r < max ->
  seen A R max i (S j) (merged ++ [r]).
Proof.
  intros [Hj [Hin H]] Hr Hmax.
  assert (HrR : In r R) by (eapply nth_error_In; eauto).
  assert (Hlt : (j < length R)%nat).
  { apply nth_error_Some. rewrite Hr. discriminate. }
  split; [lia|]. split.
  - intros x Hx. apply in_app_or in Hx.
    destruct Hx as [Hx|[<-|[]]]; [now apply Hin | now right].
  - intros k rk Hk Hrk.
    rewrite (unstored_snoc_actual _ _ HrR), versions_app.
    simpl versions. rewrite !app_assoc, !count_le_app, !count_ge_app.
    assert (Hle : Version rk <= Version r).
    { apply (registry_le k j); auto. lia. }
    rewrite (count_ge_one _ _ Hle).
    destruct (Nat.eq_dec k j) as [->|Hne].
    + rewrite Hr in Hrk. inversion Hrk; subst rk.
      rewrite (count_le_one _ _ (Z.le_refl _)).
      split; [assumption|]. split; [|lia].
      destruct j as [|j0]; [lia|].
      assert (Hj0 : (j0 < length R)%nat) by lia.
      destruct (nth_error R j0) as [r0|] eqn:E0;
        [|apply nth_error_None in E0; lia].
      destruct (H j0 r0 (Nat.lt_succ_diag_r j0) E0) as [_ [H2 _]].
      assert (Hle0 : Version r0 <= Version r).
      { apply (registry_le j0 (S j0)); auto. }
      pose proof (count_le_mono _ _
                    (versions A ++ versions (unstored merged)) Hle0) as Hm.
      rewrite !count_le_app in *. lia.
    + destruct (H k rk) as [H1 [H2 H3]]; [lia | assumption |].
      rewrite count_le_app, count_ge_app in *.
      split; [assumption|]. split; lia.
Qed.

(** The third branch: [applied[i]] goes out and [actual[j]] is passed
    over, [applied[j]] being no greater and [applied[i]] no smaller. *)
Lemma seen_skip i j merged a a' r :
  seen A R max i j merged ->
  nth_error A i = Some a -> nth_error A j = Some a' ->
  nth_error R j = Some r -> Version r < max ->
  Version r <= Version a -> Version a' <= Version r ->
  seen A R max (S i) (S j) (merged ++ [a]).
Proof.
  intros [Hj [Hin H]] Ha Ha' Hr Hmax Hra Har.
  assert (HaA : In a A) by (eapply nth_error_In; eauto).
  assert (Hlt : (j < length R)%nat).
  { apply nth_error_Some. rewrite Hr. discriminate. }
  split; [lia|]. split.
  - intros x Hx. apply in_app_or in Hx.
    destruct Hx as [Hx|[<-|[]]]; [now apply Hin | now left].
  - intros k rk Hk Hrk.
    rewrite (unstored_snoc_applied _ _ HaA).
    rewrite (firstn_S_nth _ _ _ (nth_error_versions _ _ _ Ha)).
    rewrite !count_le_app, !count_ge_app.
    assert (Hle : Version rk <= Version r).
    { apply (registry_le k j); auto. lia. }
    assert (Hone : count_ge (Version rk) [Version a] = 1%nat).
    { apply count_ge_one. lia. }
    rewrite Hone.
    destruct (Nat.eq_dec k j) as [->|Hne].
    + rewrite Hr in Hrk. inversion Hrk; subst rk.
      split; [assumption|]. split; [|lia].
      pose proof (count_le_upto (versions A) j (Version a') (Version r) HA
                    (nth_error_versions _ _ _ Ha') Har).
      lia.
    + destruct (H k rk) as [H1 [H2 H3]]; [lia | assumption |].
      rewrite count_le_app, count_ge_app in *.
      split; [assumption|]. split; lia.
Qed.

(** The first loop keeps [seen]. *)
Lemma merge_walk_seen fuel : forall i j merged i' j' merged',
  seen A R max i j merged ->
  migrator.merge_walk A R max fuel i j merged = Ok (i', j', merged') ->
  seen A R max i' j' merged'.
Proof.
  induction fuel as [|fuel IH]; intros i j merged i' j' merged' Hs H;
    [discriminate|].
  cbn [migrator.merge_walk] in H.
  destruct ((i <? length A)%nat && (j <? length R)%nat) eqn:G;
    [|inversion H; now subst].
  apply andb_true_iff in G. destruct G as [Gi Gj].
  apply Nat.ltb_lt in Gi, Gj.
  destruct (index_in_range A i Gi) as [a [Ha Hia]].
  destruct (index_in_range R j Gj) as [r [Hr Hjr]].
  rewrite (below_max_Some _ _ _ _ Hr) in H. cbn [bind] in H.
  destruct (Version r <? max) eqn:Hmax; [|inversion H; now subst].
  apply Z.ltb_lt in Hmax.
  rewrite Hia, Hjr in H. cbn [bind] in H.
  unfold Less, CompareMigrations in H.
  destruct (Version a <? Version r) eqn:C1.
  - apply (IH _ _ _ _ _ _ (seen_take _ _ _ _ Hs Ha) H).
  - apply Z.ltb_ge in C1.
    destruct (nth_error A j) as [a'|] eqn:Ha'.
    + rewrite (index_Some _ _ _ Ha') in H. cbn [bind] in H.
      destruct (Version r <? Version a') eqn:C2.
      * apply (IH _ _ _ _ _ _ (seen_emit _ _ _ _ Hs Hr Hmax) H).
      * apply Z.ltb_ge in C2.
        apply (IH _ _ _ _ _ _
                  (seen_skip _ _ _ _ _ _ Hs Ha Ha' Hr Hmax C1 C2) H).
    + unfold index in H. rewrite Ha' in H. discriminate H.
Qed.

(** The second loop appends what is left of the applied history. *)
Lemma merge_rest_applied_skipn fuel : forall i merged,
  (length A - i < fuel)%nat ->
  migrator.merge_rest_applied A fuel i merged = Ok (merged ++ skipn i A).
Proof.
  induction fuel as [|fuel IH]; intros i merged Hf; [lia|].
  cbn [migrator.merge_rest_applied].
  destruct (i <? length A)%nat eqn:G.
  - apply Nat.ltb_lt in G.
    destruct (index_in_range A i G) as [a [Ha Hia]].
    rewrite Hia. cbn [bind]. rewrite IH by lia.
    rewrite (skipn_cons_nth _ _ _ Ha), <- app_assoc. reflexivity.
  - apply Nat.ltb_ge in G. rewrite (skipn_past _ _ G), app_nil_r.
    reflexivity.
Qed.

Lemma unstored_applied l : incl l A -> unstored l = [].
Proof.
  induction l as [|x l IH]; intros H; [reflexivity|].
  unfold unstored. simpl. rewrite (HAs x (H x (or_introl eq_refl))). simpl.
  apply IH. intros y Hy. apply H. now right.
Qed.

Lemma skipn_incl {X : Type} (l : list X) i : incl (skipn i l) l.
Proof.
  intros x Hx. rewrite <- (firstn_skipn i l). apply in_or_app. now right.
Qed.

Lemma seen_rest_applied i j merged :
  seen A R max i j merged ->
  seen A R max (length A) j (merged ++ skipn i A).
Proof.
  intros [Hj [Hin H]]. split; [assumption|]. split.
  - intros x Hx. apply in_app_or in Hx. destruct Hx as [Hx|Hx];
      [now apply Hin | left; eapply skipn_incl; eauto].
  - intros k r Hk Hr. destruct (H k r Hk Hr) as [H1 [H2 H3]].
    rewrite unstored_app, (unstored_applied (skipn i A)), app_nil_r
      by apply skipn_incl.
    repeat split; try assumption.
    rewrite firstn_all2 by (unfold versions; rewrite length_map; lia).
    pose proof (count_ge_firstn (Version r) (versions A) i).
    rewrite !count_ge_app in *. lia.
Qed.

(** The last loop keeps [seen] and stops at the end of the registry or at
    its first entry that is not below [max]. *)
Lemma merge_rest_actual_seen fuel : forall i j merged merged',
  seen A R max i j merged ->
  migrator.merge_rest_actual R max fuel j merged = Ok merged' ->
  exists m,
    seen A R max i m merged' /\
    (m = length R \/ exists r, nth_error R m = Some r /\ max <= Version r).
Proof.
  induction fuel as [|fuel IH]; intros i j merged merged' Hs H;
    [discriminate|].
  cbn [migrator.merge_rest_actual] in H.
  destruct (j <? length R)%nat eqn:G.
  - apply Nat.ltb_lt in G.
    destruct (index_in_range R j G) as [r [Hr Hjr]].
    rewrite (below_max_Some _ _ _ _ Hr) in H. cbn [bind] in H.
    destruct (Version r <? max) eqn:Hmax.
    + apply Z.ltb_lt in Hmax. rewrite Hjr in H. cbn [bind] in H.
      apply (IH _ _ _ _ (seen_emit _ _ _ _ Hs Hr Hmax) H).
    + apply Z.ltb_ge in Hmax. inversion H; subst.
      exists j. split; [assumption|]. right. eauto.
  - apply Nat.ltb_ge in G. inversion H; subst.
    exists j. split; [assumption|]. left. destruct Hs as [Hj _]. lia.
Qed.

End MergeOnce.

(** What a merge that returns has established. *)
Lemma merge_seen A R target M :
  nondecreasing (versions A) -> nondecreasing (versions R) ->
  (forall x, In x A -> Stored x = true) ->
  (forall x, In x R -> Stored x = false) ->
  migrator.mergeMigrations A R target = Ok M ->
  exists max m,
    migrator.merge_bound R target = Ok max /\
    seen A R max (length A) m M /\
    (m = length R \/ exists r, nth_error R m = Some r /\ max <= Version r).
Proof.
  intros HA HR HAs HRs. unfold migrator.mergeMigrations.
  destruct (migrator.merge_bound R target) as [max| |];
    cbn [bind]; try discriminate.
  intros H.
  destruct (migrator.merge_walk A R max _ 0 0 []) as [[[i j] mg]| |] eqn:W;
    cbn [bind] in H; try discriminate.
  rewrite merge_rest_applied_skipn in H by lia. cbn [bind] in H.
  assert (H0 : seen A R max 0 0 []).
  { split; [lia|]. split; [intros x []|]. intros k r Hk. lia. }
  pose proof (merge_walk_seen A R max HA HR HAs HRs _ _ _ _ _ _ _ H0 W) as H1.
  apply (seen_rest_applied A R max HAs) in H1.
  destruct (merge_rest_actual_seen A R max HR HRs _ _ _ _ _ H1 H)
    as [m Hm].
  exists max, m. split; [reflexivity | exact Hm].
Qed.

(** ** A merge over a settled history *)

Section MergeSettled.
Variables A' R : list Migration.
Variable max : Z.
Variable m : nat.
Hypothesis HA' : nondecreasing (versions A').
Hypothesis Hm : (m <= length R)%nat.
Hypothesis Hsettled : settled A' R max m.

(** On a settled history the first loop only copies applied entries. *)
Lemma merge_walk_settled fuel : forall i j,
  (j <= i)%nat -> (i <= length A')%nat -> (j <= m)%nat ->
  (m - j <= length A' - i)%nat ->
  (length A' - i + (length R - j) < fuel)%nat ->
  exists i' j',
    migrator.merge_walk A' R max fuel i j (firstn i A')
      = Ok (i', j', firstn i' A') /\
    (i' <= length A')%nat /\
    (j' = length R \/ exists r, nth_error R j' = Some r /\ max <= Version r).
Proof.
  destruct Hsettled as [Hend G].
  induction fuel as [|fuel IH]; intros i j Hji Hi Hj Hleft Hf; [lia|].
  cbn [migrator.merge_walk].
  destruct (i <? length A')%nat eqn:Gi; cbn [andb].
  - apply Nat.ltb_lt in Gi.
    destruct (j <? length R)%nat eqn:Gj.
    + apply Nat.ltb_lt in Gj.
      destruct (index_in_range A' i Gi) as [a [Ha Hia]].
      destruct (index_in_range R j Gj) as [r [Hr Hjr]].
      rewrite (below_max_Some _ _ _ _ Hr). cbn [bind].
      destruct (Version r <? max) eqn:Hmax.
      * apply Z.ltb_lt in Hmax.
        assert (Hjm : (j < m)%nat).
        { destruct (Nat.eq_dec j m) as [->|]; [|lia].
          destruct Hend as [->|[r' [Hr' Hle]]]; [lia|].
          rewrite Hr in Hr'. inversion Hr'; subst. lia. }
        destruct (G j r Hjm Hr) as [_ [G1 G2]].
        destruct (nth_of_count_le _ j (Version r) HA' G1) as [x [Hx Hxr]].
        unfold versions in Hx. rewrite nth_error_map in Hx.
        destruct (nth_error A' j) as [a'|] eqn:Ha'; [|discriminate].
        simpl in Hx. inversion Hx; subst x.
        rewrite Hia, Hjr. cbn [bind].
        rewrite <- (firstn_S_nth _ _ _ Ha).
        unfold Less, CompareMigrations.
        destruct (Version a <? Version r) eqn:C1.
        -- apply Z.ltb_lt in C1. apply IH; try lia.
           pose proof (count_ge_after (versions A') i (Version a) (Version r)
                         HA' (nth_error_versions _ _ _ Ha) C1) as Hc.
           unfold versions in Hc at 2. rewrite length_map in Hc. lia.
        -- rewrite (index_Some _ _ _ Ha'). cbn [bind].
           replace (Version r <? Version a') with false
             by (symmetry; apply Z.ltb_ge; lia).
           apply IH; lia.
      * apply Z.ltb_ge in Hmax. exists i, j. split; [reflexivity|].
        split; [lia|]. right. eauto.
    + apply Nat.ltb_ge in Gj. exists i, j. split; [reflexivity|].
      split; [lia|]. left. lia.
  - apply Nat.ltb_ge in Gi. exists i, j. split; [reflexivity|].
    split; [lia|].
    assert (j = m) by lia. subst j. exact Hend.
Qed.

Lemma merge_rest_actual_stops fuel j merged :
  (j = length R \/ exists r, nth_error R j = Some r /\ max <= Version r) ->
  migrator.merge_rest_actual R max (S fuel) j merged = Ok merged.
Proof.
  intros [->|[r [Hr Hle]]]; cbn [migrator.merge_rest_actual].
  - now rewrite Nat.ltb_irrefl.
  - assert (Hj : (j < length R)%nat).
    { apply nth_error_Some. rewrite Hr. discriminate. }
    apply Nat.ltb_lt in Hj. rewrite Hj.
    rewrite (below_max_Some _ _ _ _ Hr). cbn [bind].
    replace (Version r <? max) with false; [reflexivity|].
    symmetry. apply Z.ltb_ge. lia.
Qed.

(** So the merge returns the history as it is. *)
Lemma merge_settled target :
  migrator.merge_bound R target = Ok max ->
  migrator.mergeMigrations A' R target = Ok A'.
Proof.
  intros Hb. unfold migrator.mergeMigrations. rewrite Hb. cbn [bind].
  assert (Hroom : (m - 0 <= length A' - 0)%nat).
  { destruct Hsettled as [_ G].
    destruct m as [|m0] eqn:Em; [lia|].
    destruct (nth_error R 0) as [r0|] eqn:E0;
      [|apply nth_error_None in E0; lia].
    destruct (G 0%nat r0 ltac:(lia) E0) as [_ [_ G2]].
    pose proof (count_length (fun x => Version r0 <=? x) (versions A')) as Hc.
    unfold count_ge in G2. unfold versions in Hc at 2.
    rewrite length_map in Hc. lia. }
  destruct (merge_walk_settled (S (length A' + length R)) 0 0)
    as [i' [j' [W [Hi' Hj']]]]; try lia.
  change (firstn 0 A') with (@nil Migration) in W.
  rewrite W. cbn [bind].
  rewrite merge_rest_applied_skipn by lia. cbn [bind].
  rewrite firstn_skipn. now apply merge_rest_actual_stops.
Qed.

End MergeSettled.

(** ** What a merge that returns delivers *)

Section MergeReturns.
Variables A R : list Migration.
Variable max : Z.

Lemma delivered_take i merged a :
  delivered A R max i merged -> nth_error A i = Some a ->
  delivered A R max (S i) (merged ++ [a]).
Proof.
  intros [H1 H2] Ha. split.
  - intros x Hx. rewrite (firstn_S_nth _ _ _ Ha) in Hx.
    apply in_or_app. apply in_app_or in Hx.
    destruct Hx as [Hx|Hx]; [left; now apply H1 | now right].
  - intros x Hx. apply in_app_or in Hx.
    destruct Hx as [Hx|[<-|[]]]; [now apply H2|].
    left. eapply nth_error_In; eauto.
Qed.

Lemma delivered_emit i merged j r :
  delivered A R max i merged -> nth_error R j = Some r -> Version r < max ->
  delivered A R max i (merged ++ [r]).
Proof.
  intros [H1 H2] Hr Hmax. split.
  - intros x Hx. apply in_or_app. left. now apply H1.
  - intros x Hx. apply in_app_or in Hx.
    destruct Hx as [Hx|[<-|[]]]; [now apply H2|].
    right. split; [eapply nth_error_In; eauto | assumption].
Qed.

Lemma merge_walk_delivered fuel : forall i j merged i' j' merged',
  delivered A R max i merged ->
  migrator.merge_walk A R max fuel i j merged = Ok (i', j', merged') ->
  delivered A R max i' merged'.
Proof.
  induction fuel as [|fuel IH]; intros i j merged i' j' merged' Hd H;
    [discriminate|].
  cbn [migrator.merge_walk] in H.
  destruct ((i <? length A)%nat && (j <? length R)%nat) eqn:G;
    [|inversion H; now subst].
  apply andb_true_iff in G. destruct G as [Gi Gj].
  apply Nat.ltb_lt in Gi, Gj.
  destruct (index_in_range A i Gi) as [a [Ha Hia]].
  destruct (index_in_range R j Gj) as [r [Hr Hjr]].
  rewrite (below_max_Some _ _ _ _ Hr) in H. cbn [bind] in H.
  destruct (Version r <? max) eqn:Hmax; [|inversion H; now subst].
  apply Z.ltb_lt in Hmax.
  rewrite Hia, Hjr in H. cbn [bind] in H.
  destruct (Less a r).
  - apply (IH _ _ _ _ _ _ (delivered_take _ _ _ Hd Ha) H).
  - destruct (index A j) as [a'| |]; cbn [bind] in H; try discriminate.
    destruct (Less r a').
    + apply (IH _ _ _ _ _ _ (delivered_emit _ _ _ _ Hd Hr Hmax) H).
    + apply (IH _ _ _ _ _ _ (delivered_take _ _ _ Hd Ha) H).
Qed.

Lemma merge_rest_actual_delivered fuel : forall i j merged merged',
  delivered A R max i merged ->
  migrator.merge_rest_actual R max fuel j merged = Ok merged' ->
  delivered A R max i merged'.
Proof.
  induction fuel as [|fuel IH]; intros i j merged merged' Hd H;
    [discriminate|].
  cbn [migrator.merge_rest_actual] in H.
  destruct (j <? length R)%nat eqn:G; [|inversion H; now subst].
  apply Nat.ltb_lt in G.
  destruct (index_in_range R j G) as [r [Hr Hjr]].
  rewrite (below_max_Some _ _ _ _ Hr) in H. cbn [bind] in H.
  destruct (Version r <? max) eqn:Hmax; [|inversion H; now subst].
  apply Z.ltb_lt in Hmax. rewrite Hjr in H. cbn [bind] in H.
  apply (IH _ _ _ _ (delivered_emit _ _ _ _ Hd Hr Hmax) H).
Qed.

End MergeReturns.

Lemma wrap_in_range z : Int64.in_range z -> Int64.wrap z = z.
Proof.
  unfold Int64.in_range, Int64.wrap, Int64.min_int, Int64.max_int,
    Int64.modulus.
  intros H. rewrite Z.mod_small; lia.
Qed.

(** Whenever [mergeMigrations] returns a sequence for a set target, the
    sequence holds every applied entry, and whatever else it holds comes
    from the registry with a version up to the target: the index panic is
    the only way these two properties are missed. *)
Lemma merge_returns_applied_and_bounded A R target M :
  target <> -1 -> Int64.in_range target ->
  (forall r, In r R -> Int64.in_range (Version r)) ->
  migrator.mergeMigrations A R target = Ok M ->
  (forall a, In a A -> In a M) /\
  (forall x, In x M -> In x A \/ (In x R /\ Version x <= target)).
Proof.
  intros Hset Ht HRr. unfold migrator.mergeMigrations.
  destruct (migrator.merge_bound R target) as [max| |] eqn:Hb;
    cbn [bind]; try discriminate.
  intros H.
  destruct (migrator.merge_walk A R max _ 0 0 []) as [[[i j] mg]| |] eqn:W;
    cbn [bind] in H; try discriminate.
  rewrite merge_rest_applied_skipn in H by lia. cbn [bind] in H.
  assert (H0 : delivered A R max 0 []).
  { split; intros x []. }
  pose proof (merge_walk_delivered A R max _ _ _ _ _ _ _ H0 W) as [H1 H2].
  assert (H3 : delivered A R max (length A) (mg ++ skipn i A)).
  { split.
    - intros x Hx. rewrite firstn_all in Hx.
      rewrite <- (firstn_skipn i A) in Hx.
      apply in_or_app. apply in_app_or in Hx.
      destruct Hx as [Hx|Hx]; [left; now apply H1 | now right].
    - intros x Hx. apply in_app_or in Hx.
      destruct Hx as [Hx|Hx]; [now apply H2|].
      left. eapply skipn_incl; eauto. }
  destruct (merge_rest_actual_delivered A R max _ _ _ _ _ H3 H) as [H4 H5].
  split.
  - intros a Ha. apply H4. now rewrite firstn_all.
  - intros x Hx. destruct (H5 x Hx) as [HxA|[HxR Hlt]]; [now left|].
    right. split; [assumption|].
    unfold migrator.merge_bound in Hb.
    destruct (0 <? length R)%nat eqn:Hl.
    + apply Z.eqb_neq in Hset. rewrite Hset in Hb. inversion Hb; subst max.
      specialize (HRr x HxR).
      unfold Int64.add, Int64.wrap, Int64.in_range, Int64.min_int,
        Int64.max_int, Int64.modulus in *.
      destruct (Z.eq_dec target (2 ^ 63 - 1)) as [->|Hne]; [lia|].
      rewrite Z.mod_small in Hlt; lia.
    + apply Nat.ltb_ge in Hl. destruct R; [destruct HxR | simpl in Hl; lia].
Qed.

(** A history that holds the applied versions and everything the merge
    emitted from the registry is returned unchanged by the next merge. *)
Lemma merge_again A R target M A' :
  nondecreasing (versions A) -> nondecreasing (versions R) ->
  (forall x, In x A -> Stored x = true) ->
  (forall x, In x R -> Stored x = false) ->
  migrator.mergeMigrations A R target = Ok M ->
  nondecreasing (versions A') ->
  Permutation (versions A') (versions A ++ versions (unstored M)) ->
  migrator.mergeMigrations A' R target = Ok A'.
Proof.
  intros HA HR HAs HRs HM HA' Hperm.
  destruct (merge_seen A R target M HA HR HAs HRs HM)
    as [max [m [Hb [[Hm [Hin G]] Hend]]]].
  apply (merge_settled A' R max m HA' Hm); [|assumption].
  split; [assumption|]. intros k r Hk Hr.
  destruct (G k r Hk Hr) as [G0 [G1 G2]]. split; [assumption|].
  rewrite firstn_all2 in G2 by (unfold versions; rewrite length_map; lia).
  unfold count_le, count_ge in *.
  rewrite (count_perm _ _ _ Hperm),
          (count_perm (fun x => Version r <=? x) _ _ Hperm).
  split; assumption.
Qed.

(** What [Up] runs comes from the registry. *)
Lemma merge_unstored_from_registry A R target M :
  nondecreasing (versions A) -> nondecreasing (versions R) ->
  (forall x, In x A -> Stored x = true) ->
  (forall x, In x R -> Stored x = false) ->
  migrator.mergeMigrations A R target = Ok M ->
  forall x, In x (unstored M) -> In x R.
Proof.
  intros HA HR HAs HRs HM.
  destruct (merge_seen A R target M HA HR HAs HRs HM)
    as [max [m [Hb [[Hm [Hin G]] Hend]]]].
  intros x Hx. unfold unstored in Hx. apply filter_In in Hx.
  destruct Hx as [Hx Hs]. destruct (Hin x Hx) as [HxA|HxR]; [|assumption].
  rewrite (HAs x HxA) in Hs. discriminate Hs.
Qed.

(** ** The history as [Up] reads it *)

Lemma insert_sorted_perm r t : Permutation (gorm.insert_sorted r t) (r :: t).
Proof.
  induction t as [|x t IH]; simpl; [reflexivity|].
  destruct (fst r <=? fst x); [reflexivity|].
  rewrite IH. apply perm_swap.
Qed.

Lemma order_asc_perm t : Permutation (gorm.order_asc t) t.
Proof.
  induction t as [|x t IH]; simpl; [reflexivity|].
  rewrite insert_sorted_perm. now constructor.
Qed.

Lemma insert_sorted_nondecreasing r t :
  nondecreasing (gorm.keys t) ->
  nondecreasing (gorm.keys (gorm.insert_sorted r t)).
Proof.
  unfold nondecreasing. induction t as [|x t IH]; simpl; intros H.
  - repeat constructor.
  - destruct (fst r <=? fst x) eqn:C; simpl.
    + apply Z.leb_le in C. constructor; [assumption|].
      apply StronglySorted_inv in H. destruct H as [_ Hx].
      constructor; [assumption|].
      eapply Forall_impl; [|exact Hx]. intros; lia.
    + apply Z.leb_gt in C.
      apply StronglySorted_inv in H. destruct H as [Hs Hx].
      constructor; [now apply IH|].
      apply Forall_forall. intros k Hk.
      assert (Hk' : In k (gorm.keys (r :: t))).
      { eapply Permutation_in; [|exact Hk].
        unfold gorm.keys. apply Permutation_map, insert_sorted_perm. }
      destruct Hk' as [<-|Hk']; [lia|].
      rewrite Forall_forall in Hx. now apply Hx.
Qed.

Lemma order_asc_nondecreasing t : nondecreasing (gorm.keys (gorm.order_asc t)).
Proof.
  induction t as [|x t IH]; simpl; [constructor|].
  now apply insert_sorted_nondecreasing.
Qed.

Lemma versions_history_of t :
  versions (migrator.history_of t) = gorm.keys t.
Proof.
  unfold versions, migrator.history_of, gorm.keys. rewrite !map_map.
  reflexivity.
Qed.

Lemma history_of_Stored t x :
  In x (migrator.history_of t) -> Stored x = true.
Proof.
  unfold migrator.history_of. rewrite map_map. intros H.
  apply in_map_iff in H. destruct H as [y [<- _]]. reflexivity.
Qed.

Lemma last_version_total l : exists g, migrator.last_version l = Ok g.
Proof.
  unfold migrator.last_version.
  destruct (0 <? length l)%nat eqn:C; [|eauto].
  apply Nat.ltb_lt in C.
  destruct (index_in_range l (length l - 1)) as [x [_ ->]]; [lia|].
  simpl. eauto.
Qed.

(** The last version of a sorted history is its greatest. *)
Lemma last_version_greatest l g :
  nondecreasing (versions l) -> migrator.last_version l = Ok g ->
  (forall k, In k (versions l) -> k <= g) /\
  (l <> [] -> In g (versions l)) /\
  (l = [] -> g = 0).
Proof.
  intros Hs. unfold migrator.last_version.
  destruct (0 <? length l)%nat eqn:C.
  - apply Nat.ltb_lt in C.
    destruct (index_in_range l (length l - 1)) as [x [Hx ->]]; [lia|].
    simpl. intros H. inversion H; subst g. repeat split.
    + intros k Hk. apply In_nth_error in Hk. destruct Hk as [n Hn].
      apply (nondecreasing_nth (versions l) n (length l - 1)); auto.
      * assert (n < length (versions l))%nat.
        { apply nth_error_Some. rewrite Hn. discriminate. }
        unfold versions in *. rewrite length_map in *. lia.
      * now apply nth_error_versions.
    + intros _. unfold versions. apply in_map. eapply nth_error_In; eauto.
    + intros ->. simpl in C. lia.
  - apply Nat.ltb_ge in C. intros H. inversion H; subst g.
    destruct l; [|simpl in C; lia]. repeat split.
    + intros k [].
    + intros Hn. now contradiction Hn.
Qed.

(** Nothing is run for entries that are all stored. *)
Lemma Up_range_stored merged : forall nv w,
  (forall x, In x merged -> Stored x = true) ->
  migrator.Up_range merged nv w = (w, Ok (nv, None)).
Proof.
  induction merged as [|x merged IH]; intros nv w H; simpl; [reflexivity|].
  rewrite (H x (or_introl eq_refl)). apply IH.
  intros y Hy. apply H. now right.
Qed.

Lemma Up_ok_rows m target w w1 old1 new1 :
  migrator.Up m target w = (w1, Ok (old1, new1, None)) ->
  exists t, gorm.rows (migrator.db w) = Some t.
Proof.
  unfold migrator.Up, gorm.Find.
  destruct (gorm.rows (migrator.db w)) as [t|]; [eauto | discriminate].
Qed.

(** ** Up, twice *)

Lemma Sample_create_keeps name : keeps_records (Sample.create name).
Proof. intros g d E. inversion E. reflexivity. Qed.

(** C6, as stated, fails: with the registry 1, 2, 3 and the records 1 and 3,
    [Up] to target 2 applies version 2 and returns newVersion 2; the second
    call applies nothing and returns newVersion 3. *)
Lemma C6_same_newVersion_refuted : ~ Up_twice_same_newVersion.
Proof.
  intros H.
  destruct (H Sample.registry3 2
              (Sample.store [(1, "-"); (3, "addIndex")]%string)
              (fst (migrator.Up Sample.registry3 2
                      (Sample.store [(1, "-"); (3, "addIndex")]%string)))
              3 2) as [old2 E].
  - unfold ascending. simpl. repeat constructor.
  - simpl. intros x [<-|[<-|[<-|[]]]]; reflexivity.
  - simpl. intros x [<-|[<-|[<-|[]]]]; apply Sample_create_keeps.
  - reflexivity.
  - discriminate E.
Qed.

(** C6, amended: with a registry sorted by version in which no version is 0
    (the value gorm takes for a key that is not set), whose descriptors are
    not marked stored and whose forward procedures leave the [migrations]
    table alone, when [Up target] succeeds a second [Up target] succeeds
    too and leaves the world as it is: no forward procedure runs, no record
    is inserted.  Its newVersion (and oldVersion) is the greatest version on
    record; that is the first call's newVersion exactly when no record
    carries a greater version. *)
Theorem C6_Up_twice
        (m : migrator.Migrator) (target : Z) (w w1 : migrator.World)
        (old1 new1 : Z)
        (Hsorted : nondecreasing (versions (migrator.migrations m)))
        (Hun : forall x, In x (migrator.migrations m) -> Stored x = false)
        (Hkeep : forall x, In x (migrator.migrations m) -> keeps_records (Up x))
        (Hkeyed : keyed (migrator.migrations m))
        (Hup : migrator.Up m target w = (w1, Ok (old1, new1, None))) :
  exists g t1,
    gorm.rows (migrator.db w1) = Some t1 /\
    migrator.Up m target w1 = (w1, Ok (g, g, None)) /\
    (forall k, In k (gorm.keys t1) -> k <= g) /\
    (g = new1 <-> forall k, In k (gorm.keys t1) -> k <= new1).
Proof.
  destruct (Up_ok_rows _ _ _ _ _ _ Hup) as [t Ht].
  destruct (Up_unfold _ _ _ _ _ _ _ _ Ht Hup) as [M [Hold [HM Hrange]]].
  set (A := migrator.history_of (gorm.order_asc t)) in *.
  set (R := migrator.migrations m) in *.
  assert (HA : nondecreasing (versions A)).
  { unfold A. rewrite versions_history_of. apply order_asc_nondecreasing. }
  assert (HAs : forall x, In x A -> Stored x = true).
  { intros x. apply history_of_Stored. }
  pose proof Hsorted as HR.
  assert (HU : forall x, In x (unstored M) -> In x R).
  { apply (merge_unstored_from_registry A R target M); assumption. }
  destruct (Up_range_ok _ _ _ _ _ Hrange) as [_ [Hnv Hrows]].
  specialize (Hrows (fun x Hx => Hkeep x (HU x Hx))
                    (fun x Hx => Hkeyed x (HU x Hx)) t Ht).
  set (t1 := t ++ map migrator.record_of (unstored M)) in *.
  set (A' := migrator.history_of (gorm.order_asc t1)).
  assert (HA' : nondecreasing (versions A')).
  { unfold A'. rewrite versions_history_of. apply order_asc_nondecreasing. }
  assert (Hkeys : gorm.keys t1 = gorm.keys t ++ versions (unstored M)).
  { unfold t1, gorm.keys. rewrite map_app.
    fold (gorm.keys (map migrator.record_of (unstored M))).
    now rewrite keys_record_of. }
  assert (Hperm1 : Permutation (versions A') (gorm.keys t1)).
  { unfold A'. rewrite versions_history_of.
    unfold gorm.keys. apply Permutation_map, order_asc_perm. }
  assert (Hperm : Permutation (versions A')
                              (versions A ++ versions (unstored M))).
  { rewrite Hperm1, Hkeys. apply Permutation_app_tail.
    unfold A. rewrite versions_history_of.
    unfold gorm.keys. apply Permutation_map. symmetry. apply order_asc_perm. }
  pose proof (merge_again A R target M A' HA HR HAs Hun HM HA' Hperm) as HM'.
  destruct (last_version_total A') as [g Hg].
  destruct (last_version_greatest A' g HA' Hg) as [Hmax [Hmem Hzero]].
  exists g, t1. split; [assumption|]. split; [|split].
  - unfold migrator.Up, gorm.Find. rewrite Hrows.
    fold A'. rewrite Hg. fold R. rewrite HM'.
    rewrite Up_range_stored by (intros x; apply history_of_Stored).
    reflexivity.
  - intros k Hk. apply Hmax. eapply Permutation_in; [|exact Hk].
    now symmetry.
  - split.
    + intros <- k Hk. apply Hmax. eapply Permutation_in; [|exact Hk].
      now symmetry.
    + intros Hle.
      destruct (unstored M) as [|u0 U0] eqn:EU.
      * assert (Et : t1 = t) by (unfold t1; simpl; apply app_nil_r).
        simpl in Hnv. subst new1.
        unfold A' in Hg. rewrite Et in Hg. fold A in Hg.
        rewrite Hold in Hg. now inversion Hg.
      * destruct (exists_last (l := u0 :: U0)) as [U' [u EU']];
          [discriminate|].
        rewrite EU' in Hnv, Hkeys.
        rewrite versions_app in Hnv. simpl in Hnv.
        rewrite last_app_singleton in Hnv.
        assert (Hu : In new1 (gorm.keys t1)).
        { rewrite Hkeys, versions_app, Hnv.
          apply in_or_app. right. apply in_or_app. right. now left. }
        assert (Hu' : In new1 (versions A')).
        { eapply Permutation_in; [|exact Hu]. now symmetry. }
        assert (Hne : A' <> []).
        { intros E. rewrite E in Hu'. destruct Hu'. }
        specialize (Hmem Hne).
        assert (Hg' : In g (gorm.keys t1)).
        { eapply Permutation_in; [|exact Hmem]. assumption. }
        specialize (Hle g Hg'). specialize (Hmax new1 Hu'). lia.
Qed.

Lemma C6_Up_twice_witness :
  let w := Sample.store [(1, "-"%string)] in
  let w1 := fst (migrator.Up Sample.registry3 (-1) w) in
  exists g t1,
    gorm.rows (migrator.db w1) = Some t1 /\
    migrator.Up Sample.registry3 (-1) w1 = (w1, Ok (g, g, None)) /\
    (forall k, In k (gorm.keys t1) -> k <= g) /\
    (g = 3 <-> forall k, In k (gorm.keys t1) -> k <= 3).
Proof.
  apply (C6_Up_twice Sample.registry3 (-1) (Sample.store [(1, "-"%string)])
           (fst (migrator.Up Sample.registry3 (-1)
                   (Sample.store [(1, "-"%string)]))) 1 3).
  - unfold nondecreasing. simpl. repeat constructor; discriminate.
  - simpl. intros x [<-|[<-|[<-|[]]]]; reflexivity.
  - simpl. intros x [<-|[<-|[<-|[]]]]; apply Sample_create_keeps.
  - keyed_list.
  - reflexivity.
Defined.

(** The scenario of the specification, as far as [Up] and [SetVersion] go:
    from the sentinel record, [Up] with no target applies versions 2 and 3
    and returns old 1, new 3; [SetVersion 3] from the sentinel record leaves
    records 1, 2, 3 and calls no procedure. *)
Example scenario_Up_unset :
  let '(w', r) :=
    migrator.Up Sample.registry3 (-1) (Sample.store [(1, "-"%string)]) in
  r = Ok (1, 3, None) /\
  migrator.log w'
    = [migrator.Forward 2 None; migrator.Insert [2] None;
       migrator.Forward 3 None; migrator.Insert [3] None] /\
  gorm.rows (migrator.db w')
    = Some [(1, "-"); (2, "addUsers"); (3, "addIndex")]%string.
Proof. repeat split. Qed.

Example scenario_SetVersion :
  let '(w', r) :=
    migrator.SetVersion Sample.registry3 3 (Sample.store [(1, "-"%string)]) in
  r = Ok (1, 3, None) /\
  procedure_calls (migrator.log w') = [] /\
  gorm.rows (migrator.db w')
    = Some [(1, "-"); (2, "addUsers"); (3, "addIndex")]%string.
Proof. repeat split. Qed.

(** Since the merge compares with [applied[j]], [Up] can run a migration
    that is already on record: with records 1, 3, 4 and the registry
    1, 2, 3 it applies 2, runs the forward procedure of 3 again and fails on
    the insert. *)
Example Up_reruns_applied_migration :
  let '(w', r) :=
    migrator.Up Sample.registry3 (-1)
      (Sample.store [(1, "-"); (3, "addIndex"); (4, "later")]%string) in
  r = Ok (4, 3, Some ErrDuplicatedKey) /\
  migrator.log w'
    = [migrator.Forward 2 None; migrator.Insert [2] None;
       migrator.Forward 3 None; migrator.Insert [3] (Some ErrDuplicatedKey)].
Proof. repeat split. Qed.

Example scenario_Down_then_Reset :
  let w3 := Sample.store [(1, "-"); (2, "addUsers"); (3, "addIndex")]%string in
  let '(w2, r2) := migrator.Down Sample.registry3 w3 in
  let '(w1, r1) := migrator.Reset Sample.registry3 w2 in
  r2 = Ok (3, 2, None) /\
  gorm.rows (migrator.db w2) = Some [(1, "-"); (2, "addUsers")]%string /\
  r1 = Ok (2, 1, None) /\
  gorm.rows (migrator.db w1) = Some [(1, "-"%string)] /\
  migrator.log w1
    = [migrator.Backward 3 None; migrator.DeleteRow 3 None;
       migrator.Backward 2 None; migrator.DeleteRow 2 None;
       migrator.Backward 1 None].
Proof. repeat split. Qed.

(** [Reset] on a history with a version the registry does not have reports
    the inconsistency before reversing anything. *)
Example Reset_reports_absent_migration :
  let w := Sample.store [(1, "-"); (4, "gone")]%string in
  migrator.Reset Sample.registry3 w
    = (w, Ok (4, 4, Some ErrorSomeMigrationsAreAbsent)).
Proof. reflexivity. Qed.

(** * The controller on a consistent store *)

(** ** A merge of a history that is a prefix of the registry *)

Lemma nth_error_firstn_lt {X : Type} (l : list X) k i :
  (i < k)%nat -> nth_error (firstn k l) i = nth_error l i.
Proof.
  intros H. rewrite nth_error_firstn.
  apply Nat.ltb_lt in H. now rewrite H.
Qed.

Lemma sorted_suffix_ge R j r :
  nondecreasing (versions R) -> nth_error R j = Some r ->
  forall x, In x (skipn j R) -> Version r <= Version x.
Proof.
  intros HR Hr x Hx. apply In_nth_error in Hx. destruct Hx as [n Hn].
  rewrite nth_error_skipn in Hn.
  apply (nondecreasing_nth (versions R) j (j + n));
    auto using nth_error_versions. lia.
Qed.

Lemma below_nil_from R max i r j :
  nondecreasing (versions R) -> nth_error R i = Some r -> max <= Version r ->
  (i <= j)%nat -> below max (skipn j R) = [].
Proof.
  intros HR Hr Hmax Hij. unfold below.
  induction (skipn j R) as [|x l IH] eqn:E in j, Hij |- *; [reflexivity|].
  simpl.
  assert (Hx : Version r <= Version x).
  { destruct (nth_error R j) as [y|] eqn:Ey.
    - rewrite (skipn_cons_nth _ _ _ Ey) in E. inversion E; subst.
      apply (nondecreasing_nth (versions R) i j);
        auto using nth_error_versions.
    - apply nth_error_None in Ey. rewrite (skipn_past _ _ Ey) in E.
      discriminate E. }
  replace (Version x <? max) with false by (symmetry; apply Z.ltb_ge; lia).
  apply (IH (S j)); [lia|].
  destruct (nth_error R j) as [y|] eqn:Ey.
  - rewrite (skipn_cons_nth _ _ _ Ey) in E. now inversion E.
  - apply nth_error_None in Ey. rewrite (skipn_past _ _ Ey) in E.
    discriminate E.
Qed.

(** On a registry sorted by version the last loop appends exactly the
    entries below the bound. *)
Lemma merge_rest_actual_below R max fuel :
  nondecreasing (versions R) ->
  forall j merged,
    (length R - j < fuel)%nat ->
    migrator.merge_rest_actual R max fuel j merged
      = Ok (merged ++ below max (skipn j R)).
Proof.
  intros HR. induction fuel as [|fuel IH]; intros j merged Hf; [lia|].
  cbn [migrator.merge_rest_actual].
  destruct (j <? length R)%nat eqn:G.
  - apply Nat.ltb_lt in G.
    destruct (index_in_range R j G) as [r [Hr Hjr]].
    rewrite (below_max_Some _ _ _ _ Hr). cbn [bind].
    destruct (Version r <? max) eqn:Hmax.
    + rewrite Hjr. cbn [bind]. rewrite IH by lia.
      rewrite (skipn_cons_nth _ _ _ Hr). unfold below. simpl.
      rewrite Hmax, <- app_assoc. reflexivity.
    + apply Z.ltb_ge in Hmax.
      rewrite (below_nil_from R max j r j HR Hr Hmax (Nat.le_refl j)).
      now rewrite app_nil_r.
  - apply Nat.ltb_ge in G. rewrite (skipn_past _ _ G). unfold below. simpl.
    now rewrite app_nil_r.
Qed.

Section MergePrefix.
Variables A R : list Migration.
Variable max : Z.
Variable k : nat.
Hypothesis Hk : (k <= length R)%nat.
Hypothesis HAR : versions A = versions (firstn k R).
Hypothesis HR : nondecreasing (versions R).

Lemma prefix_length : length A = k.
Proof.
  assert (H : length (versions A) = length (versions (firstn k R)))
    by now rewrite HAR.
  unfold versions in H. rewrite !length_map, firstn_length_le in H by lia.
  exact H.
Qed.

Lemma prefix_same_version i a r :
  (i < k)%nat -> nth_error A i = Some a -> nth_error R i = Some r ->
  Version a = Version r.
Proof.
  intros Hi Ha Hr.
  pose proof (nth_error_versions _ _ _ Ha) as H1.
  rewrite HAR in H1. unfold versions in H1.
  rewrite nth_error_map, nth_error_firstn_lt, Hr in H1 by assumption.
  simpl in H1. now inversion H1.
Qed.

(** The first loop walks both cursors together, copying applied entries. *)
Lemma merge_walk_prefix fuel : forall i,
  (i <= k)%nat -> (k - i + (length R - i) < fuel)%nat ->
  exists i',
    migrator.merge_walk A R max fuel i i (firstn i A)
      = Ok (i', i', firstn i' A) /\
    (i' <= k)%nat /\
    (i' = k \/ exists r, nth_error R i' = Some r /\ max <= Version r).
Proof.
  pose proof prefix_length as HlA.
  induction fuel as [|fuel IH]; intros i Hi Hf; [lia|].
  cbn [migrator.merge_walk]. rewrite HlA.
  destruct (i <? k)%nat eqn:Gi; cbn [andb].
  - apply Nat.ltb_lt in Gi.
    assert (Gj : (i < length R)%nat) by lia.
    pose proof Gj as Gj'. apply Nat.ltb_lt in Gj'. rewrite Gj'.
    destruct (index_in_range A i) as [a [Ha Hia]]; [lia|].
    destruct (index_in_range R i Gj) as [r [Hr Hir]].
    rewrite (below_max_Some _ _ _ _ Hr). cbn [bind].
    destruct (Version r <? max) eqn:Hmax.
    + rewrite Hia, Hir. cbn [bind].
      pose proof (prefix_same_version i a r Gi Ha Hr) as E.
      unfold Less, CompareMigrations. rewrite E, Z.ltb_irrefl.
      cbn [bind]. rewrite <- (firstn_S_nth _ _ _ Ha). apply IH; lia.
    + apply Z.ltb_ge in Hmax. exists i. split; [reflexivity|].
      split; [lia|]. right. eauto.
  - apply Nat.ltb_ge in Gi. exists i. split; [reflexivity|].
    split; [lia|]. left. lia.
Qed.

Lemma merge_prefix target :
  migrator.merge_bound R target = Ok max ->
  migrator.mergeMigrations A R target = Ok (A ++ below max (skipn k R)).
Proof.
  intros Hb. unfold migrator.mergeMigrations. rewrite Hb. cbn [bind].
  pose proof prefix_length as HlA.
  destruct (merge_walk_prefix (S (length A + length R)) 0)
    as [i' [W [Hi' Hend]]]; try lia.
  change (firstn 0 A) with (@nil Migration) in W. rewrite W. cbn [bind].
  rewrite merge_rest_applied_skipn by lia. cbn [bind].
  rewrite firstn_skipn.
  rewrite (merge_rest_actual_below R max _ HR) by lia.
  destruct Hend as [->|[r [Hr Hmax]]]; [reflexivity|].
  rewrite (below_nil_from R max i' r i' HR Hr Hmax (Nat.le_refl _)).
  now rewrite (below_nil_from R max i' r k HR Hr Hmax Hi').
Qed.

End MergePrefix.

(** ** Up on a store that holds a prefix of the registry *)

Lemma sorted_perm_unique l' : forall l,
  nondecreasing l -> StronglySorted Z.lt l' -> Permutation l l' -> l = l'.
Proof.
  induction l' as [|y l' IH]; intros l Hl Hl' HP.
  - apply Permutation_sym, Permutation_nil in HP. assumption.
  - destruct l as [|x l].
    + apply Permutation_nil in HP. discriminate HP.
    + apply StronglySorted_inv in Hl. destruct Hl as [Hl Hx].
      apply StronglySorted_inv in Hl'. destruct Hl' as [Hl' Hy].
      rewrite Forall_forall in Hx, Hy.
      assert (Hxy : x = y).
      { assert (H1 : In x (y :: l')).
        { eapply Permutation_in; [exact HP | now left]. }
        assert (H2 : In y (x :: l)).
        { eapply Permutation_in; [symmetry; exact HP | now left]. }
        destruct H1 as [H1|H1]; [now symmetry|].
        destruct H2 as [H2|H2]; [assumption|].
        specialize (Hx y H2). specialize (Hy x H1). lia. }
      subst y. f_equal. apply IH; try assumption.
      eapply Permutation_cons_inv; eauto.
Qed.


(** When every pending procedure runs clean and no version clashes, the
    loop of [Up] applies all unstored entries. *)
Lemma Up_range_runs merged : forall nv w t,
  gorm.rows (migrator.db w) = Some t ->
  (forall x, In x (unstored merged) -> runs_clean (Up x)) ->
  keyed (unstored merged) ->
  NoDup (gorm.keys t ++ versions (unstored merged)) ->
  exists w',
    migrator.Up_range merged nv w
      = (w', Ok (last (versions (unstored merged)) nv, None)) /\
    gorm.rows (migrator.db w')
      = Some (t ++ map migrator.record_of (unstored merged)) /\
    migrator.log w' = migrator.log w ++ applied_steps (unstored merged).
Proof.
  induction merged as [|x merged IH]; intros nv w t Ht Hclean Hz Hnd.
  - exists w. simpl. rewrite !app_nil_r. auto.
  - unfold unstored in *. simpl filter in *. cbn [migrator.Up_range].
    destruct (Stored x) eqn:Sx; simpl negb in *; cbv iota in *.
    + now apply IH.
    + fold (unstored merged) in *.
      destruct (Hclean x (or_introl eq_refl)) as [g [Ug Hg]].
      rewrite Ug. destruct (g (migrator.db w)) as [d1 e1] eqn:F.
      destruct (Hg (migrator.db w)) as [He Hr]. rewrite F in He, Hr.
      simpl in He, Hr. subst e1.
      rewrite Create_keyed
        by (apply record_keyed, Hz; now left).
      rewrite Hr, Ht.
      assert (Hd : gorm.distinct (gorm.keys (t ++ [migrator.record_of x]))
                   = true).
      { apply distinct_NoDup. unfold gorm.keys. rewrite map_app. simpl.
        simpl in Hnd. fold (gorm.keys t).
        change (Version x :: versions (unstored merged))
          with ([Version x] ++ versions (unstored merged)) in Hnd.
        rewrite app_assoc in Hnd.
        now apply NoDup_app_remove_r in Hnd. }
      rewrite Hd.
      destruct (IH (Version x)
                   (migrator.mkWorld
                      (gorm.mkDB (gorm.objects d1)
                                 (Some (t ++ [migrator.record_of x])))
                      ((migrator.log w
                          ++ [migrator.Forward (Version x) None])
                         ++ [migrator.Insert [Version x] None]))
                   (t ++ [migrator.record_of x]))
        as [w' [Hup [Hrows Hlog]]].
      * reflexivity.
      * intros y Hy. apply Hclean. now right.
      * intros y Hy. apply Hz. now right.
      * unfold gorm.keys in *. rewrite map_app. simpl.
        rewrite <- app_assoc. exact Hnd.
      * exists w'. split; [|split].
        -- cbn [migrator.log]. rewrite Hup. simpl versions.
           now rewrite last_cons_default.
        -- rewrite Hrows. simpl. now rewrite <- app_assoc.
        -- rewrite Hlog. cbn [migrator.log]. simpl.
           now rewrite <- !app_assoc.
Qed.

Lemma below_incl max l : incl (below max l) l.
Proof. intros x Hx. unfold below in Hx. apply filter_In in Hx. tauto. Qed.

Lemma unstored_all l :
  (forall x, In x l -> Stored x = false) -> unstored l = l.
Proof.
  induction l as [|x l IH]; intros H; [reflexivity|].
  unfold unstored. simpl. rewrite (H x (or_introl eq_refl)). simpl.
  f_equal. apply IH. intros y Hy. apply H. now right.
Qed.

Lemma NoDup_versions_sub (R : list Migration) k P :
  ascending R -> (forall x, In x P -> In x (skipn k R)) ->
  NoDup (versions P) ->
  NoDup (versions (firstn k R) ++ versions P).
Proof.
  intros HR HP HndP.
  unfold ascending in HR. rewrite <- (firstn_skipn k R), versions_app in HR.
  destruct (sorted_app_inv _ _ HR) as [H1 [H2 H3]].
  apply NoDup_app; [now apply sorted_NoDup | assumption |].
  intros v Hv Hv'. unfold versions in Hv'. apply in_map_iff in Hv'.
  destruct Hv' as [x [E Hx]].
  assert (Hlt : v < Version x).
  { apply H3; [assumption|]. unfold versions. apply in_map. now apply HP. }
  lia.
Qed.

Lemma filter_ascending_NoDup (f : Migration -> bool) l :
  ascending l -> NoDup (versions (filter f l)).
Proof. intros H. apply sorted_NoDup. now apply (filter_ascending f). Qed.

Lemma skipn_ascending k R : ascending R -> ascending (skipn k R).
Proof.
  unfold ascending. intros H.
  rewrite <- (firstn_skipn k R), versions_app in H.
  now destruct (sorted_app_inv _ _ H) as [_ [H2 _]].
Qed.

(** [Up] on a store whose records carry the versions of the first [k]
    registry entries: the entries after them that lie below the bound are
    applied, in registry order. *)
Lemma Up_on_prefix (m : migrator.Migrator) target w t k max :
  ascending (migrator.migrations m) ->
  (forall x, In x (migrator.migrations m) -> Stored x = false) ->
  (k <= length (migrator.migrations m))%nat ->
  gorm.rows (migrator.db w) = Some t ->
  Permutation (gorm.keys t) (versions (firstn k (migrator.migrations m))) ->
  migrator.merge_bound (migrator.migrations m) target = Ok max ->
  (forall x, In x (below max (skipn k (migrator.migrations m))) ->
             runs_clean (Up x)) ->
  keyed (below max (skipn k (migrator.migrations m))) ->
  let pending := below max (skipn k (migrator.migrations m)) in
  let old := last (versions (firstn k (migrator.migrations m))) 0 in
  exists w',
    migrator.Up m target w
      = (w', Ok (old, last (versions pending) old, None)) /\
    gorm.rows (migrator.db w')
      = Some (t ++ map migrator.record_of pending) /\
    migrator.log w' = migrator.log w ++ applied_steps pending.
Proof.
  intros Hasc Hun Hk Ht Hperm Hb Hclean Hz pending old.
  set (R := migrator.migrations m) in *.
  set (A := migrator.history_of (gorm.order_asc t)).
  assert (HAR : versions A = versions (firstn k R)).
  { unfold A. rewrite versions_history_of.
    apply sorted_perm_unique.
    - apply order_asc_nondecreasing.
    - unfold ascending in Hasc.
      rewrite <- (firstn_skipn k R), versions_app in Hasc.
      now destruct (sorted_app_inv _ _ Hasc) as [H1 _].
    - rewrite <- Hperm. unfold gorm.keys.
      apply Permutation_map, order_asc_perm. }
  pose proof (ascending_nondecreasing _ Hasc) as HR.
  pose proof (merge_prefix A R max k Hk HAR HR target Hb) as HM.
  fold pending in HM.
  assert (HU : unstored (A ++ pending) = pending).
  { rewrite unstored_app.
    rewrite (unstored_applied A (fun x => history_of_Stored _ x) A)
      by apply incl_refl.
    simpl. apply unstored_all. intros x Hx. apply Hun.
    apply below_incl in Hx. eapply skipn_incl; eauto. }
  destruct (Up_range_runs (A ++ pending) old w t Ht) as [w' [Hup [Hrows Hlog]]].
  - rewrite HU. exact Hclean.
  - rewrite HU. exact Hz.
  - rewrite HU.
    apply (Permutation_NoDup
             (l := versions (firstn k R) ++ versions pending)).
    + apply Permutation_app_tail. now symmetry.
    + apply NoDup_versions_sub; [assumption | apply below_incl |].
      apply filter_ascending_NoDup. now apply skipn_ascending.
  - rewrite HU in Hup, Hrows, Hlog.
    exists w'. split; [|split; assumption].
    unfold migrator.Up, gorm.Find. rewrite Ht.
    change (migrator.history_of (gorm.order_asc t)) with A.
    rewrite last_version_last, HAR.
    change (last (versions (firstn k R)) 0) with old.
    change (migrator.migrations m) with R.
    rewrite HM, Hup. reflexivity.
Qed.

Lemma below_all max l :
  (forall x, In x l -> Version x < max) -> below max l = l.
Proof.
  induction l as [|x l IH]; intros H; [reflexivity|].
  unfold below. simpl.
  replace (Version x <? max) with true
    by (symmetry; apply Z.ltb_lt; apply H; now left).
  f_equal. apply IH. intros y Hy. apply H. now right.
Qed.

Lemma wrap_succ z :
  Int64.min_int <= z < Int64.max_int -> Int64.add z 1 = z + 1.
Proof.
  intros H. unfold Int64.add. apply wrap_in_range.
  unfold Int64.in_range, Int64.min_int, Int64.max_int in *. lia.
Qed.

Lemma wrap_max_int : Int64.add Int64.max_int 1 = Int64.min_int.
Proof. reflexivity. Qed.

(** With no target and no overflow, the bound lies above every registry
    version. *)
Lemma merge_bound_unset R :
  nondecreasing (versions R) ->
  (forall x, In x R -> Int64.min_int <= Version x < Int64.max_int) ->
  exists max,
    migrator.merge_bound R (-1) = Ok max /\
    forall x, In x R -> Version x < max.
Proof.
  intros HR Hrange. unfold migrator.merge_bound.
  destruct (0 <? length R)%nat eqn:C.
  - apply Nat.ltb_lt in C. simpl (-1 =? -1).
    destruct (index_in_range R (length R - 1)) as [l [Hl ->]]; [lia|].
    cbn [bind]. eexists. split; [reflexivity|].
    intros x Hx. rewrite wrap_succ by (apply Hrange; eapply nth_error_In; eauto).
    assert (Version x <= Version l); [|lia].
    apply In_nth_error in Hx. destruct Hx as [n Hn].
    apply (nondecreasing_nth (versions R) n (length R - 1));
      auto using nth_error_versions.
    assert (n < length R)%nat; [|lia].
    apply nth_error_Some. rewrite Hn. discriminate.
  - apply Nat.ltb_ge in C. destruct R; [|simpl in C; lia].
    exists 0. split; [reflexivity|]. intros x [].
Qed.

(** With a target below [MaxInt64], the entries below the bound are those
    up to the target. *)
Lemma merge_bound_target R target l :
  target <> -1 -> Int64.min_int <= target < Int64.max_int -> incl l R ->
  exists max,
    migrator.merge_bound R target = Ok max /\
    below max l = upto target l.
Proof.
  intros Hset Hrange Hl. unfold migrator.merge_bound.
  apply Z.eqb_neq in Hset. rewrite Hset.
  destruct (0 <? length R)%nat eqn:C.
  - eexists. split; [reflexivity|]. rewrite wrap_succ by assumption.
    unfold below, upto. apply filter_ext. intros x.
    destruct (Version x <=? target) eqn:E.
    + apply Z.leb_le in E. apply Z.ltb_lt. lia.
    + apply Z.leb_gt in E. apply Z.ltb_ge. lia.
  - exists 0. split; [reflexivity|].
    apply Nat.ltb_ge in C. destruct R; [|simpl in C; lia].
    destruct l as [|x l]; [reflexivity|].
    destruct (Hl x (or_introl eq_refl)).
Qed.

Lemma Sample_create_clean name : runs_clean (Sample.create name).
Proof. eexists. split; [reflexivity|]. intros d. split; reflexivity. Qed.

Lemma Sample_drop_clean name : runs_clean (Sample.drop name).
Proof. eexists. split; [reflexivity|]. intros d. split; reflexivity. Qed.

(** X1: on a store whose records carry exactly the versions of the first
    [k] entries of a strictly ascending registry (versions below MaxInt64,
    descriptors not marked stored), [Up] with no target runs the forward
    procedure of every later entry once, in registry order, inserts their
    records in that order, and returns the greatest recorded version as
    oldVersion and the last applied version as newVersion, provided these
    procedures run clean and none of the later entries has version 0 (the
    value gorm takes for a key that is not set). *)
Theorem X1_Up_unset_applies_pending
        (m : migrator.Migrator) (w : migrator.World) (t : list gorm.Row)
        (k : nat)
        (Hasc : ascending (migrator.migrations m))
        (Hun : forall x, In x (migrator.migrations m) -> Stored x = false)
        (Hrange : forall x, In x (migrator.migrations m) ->
                            Int64.min_int <= Version x < Int64.max_int)
        (Hk : (k <= length (migrator.migrations m))%nat)
        (Hrows : gorm.rows (migrator.db w) = Some t)
        (Hperm : Permutation (gorm.keys t)
                             (versions (firstn k (migrator.migrations m))))
        (Hclean : forall x, In x (skipn k (migrator.migrations m)) ->
                            runs_clean (Up x))
        (Hkeyed : keyed (skipn k (migrator.migrations m))) :
  let pending := skipn k (migrator.migrations m) in
  let old := last (versions (firstn k (migrator.migrations m))) 0 in
  exists w',
    migrator.Up m (-1) w = (w', Ok (old, last (versions pending) old, None)) /\
    gorm.rows (migrator.db w') = Some (t ++ map migrator.record_of pending) /\
    migrator.log w' = migrator.log w ++ applied_steps pending.
Proof.
  destruct (merge_bound_unset (migrator.migrations m)
              (ascending_nondecreasing _ Hasc) Hrange) as [max [Hb Hlt]].
  assert (E : below max (skipn k (migrator.migrations m))
              = skipn k (migrator.migrations m)).
  { apply below_all. intros x Hx. apply Hlt. eapply skipn_incl; eauto. }
  pose proof (Up_on_prefix m (-1) w t k max Hasc Hun Hk Hrows Hperm Hb) as H.
  rewrite E in H. apply H; assumption.
Qed.

Lemma X1_Up_unset_applies_pending_witness :
  let w := Sample.store [(1, "-"%string)] in
  let pending := skipn 1 (migrator.migrations Sample.registry3) in
  exists w',
    migrator.Up Sample.registry3 (-1) w = (w', Ok (1, 3, None)) /\
    gorm.rows (migrator.db w')
      = Some ([(1, "-"%string)] ++ map migrator.record_of pending) /\
    migrator.log w' = [] ++ applied_steps pending.
Proof.
  apply (X1_Up_unset_applies_pending Sample.registry3
           (Sample.store [(1, "-"%string)]) [(1, "-"%string)] 1).
  - unfold ascending. simpl. repeat constructor.
  - simpl. intros x [<-|[<-|[<-|[]]]]; reflexivity.
  - simpl. intros x [<-|[<-|[<-|[]]]]; simpl;
      unfold Int64.min_int, Int64.max_int; lia.
  - simpl. lia.
  - reflexivity.
  - simpl. apply Permutation_refl.
  - simpl. intros x [<-|[<-|[]]]; apply Sample_create_clean.
  - keyed_list.
Defined.

(** X2: on such a store, [Up] with a set target below MaxInt64 applies, in
    registry order, exactly the later entries whose version is at most the
    target, and no other, provided their forward procedures run clean and
    none of them has version 0. *)
Theorem X2_Up_target_applies_upto
        (m : migrator.Migrator) (target : Z) (w : migrator.World)
        (t : list gorm.Row) (k : nat)
        (Hasc : ascending (migrator.migrations m))
        (Hun : forall x, In x (migrator.migrations m) -> Stored x = false)
        (Hset : target <> -1)
        (Htarget : Int64.min_int <= target < Int64.max_int)
        (Hk : (k <= length (migrator.migrations m))%nat)
        (Hrows : gorm.rows (migrator.db w) = Some t)
        (Hperm : Permutation (gorm.keys t)
                             (versions (firstn k (migrator.migrations m))))
        (Hclean : forall x,
            In x (upto target (skipn k (migrator.migrations m))) ->
            runs_clean (Up x))
        (Hkeyed : keyed (upto target (skipn k (migrator.migrations m)))) :
  let pending := upto target (skipn k (migrator.migrations m)) in
  let old := last (versions (firstn k (migrator.migrations m))) 0 in
  exists w',
    migrator.Up m target w
      = (w', Ok (old, last (versions pending) old, None)) /\
    gorm.rows (migrator.db w') = Some (t ++ map migrator.record_of pending) /\
    migrator.log w' = migrator.log w ++ applied_steps pending.
Proof.
  destruct (merge_bound_target (migrator.migrations m) target
              (skipn k (migrator.migrations m)) Hset Htarget
              (skipn_incl _ _)) as [max [Hb E]].
  pose proof (Up_on_prefix m target w t k max Hasc Hun Hk Hrows Hperm Hb) as H.
  rewrite E in H. apply H; assumption.
Qed.

Lemma X2_Up_target_applies_upto_witness :
  let w := Sample.store [(1, "-"%string)] in
  exists w',
    migrator.Up Sample.registry3 2 w = (w', Ok (1, 2, None)) /\
    gorm.rows (migrator.db w')
      = Some ([(1, "-"%string)] ++ [(2, "addUsers"%string)]) /\
    migrator.log w'
      = [] ++ [migrator.Forward 2 None; migrator.Insert [2] None].
Proof.
  apply (X2_Up_target_applies_upto Sample.registry3 2
           (Sample.store [(1, "-"%string)]) [(1, "-"%string)] 1).
  - unfold ascending. simpl. repeat constructor.
  - simpl. intros x [<-|[<-|[<-|[]]]]; reflexivity.
  - discriminate.
  - unfold Int64.min_int, Int64.max_int; lia.
  - simpl. lia.
  - reflexivity.
  - simpl. apply Permutation_refl.
  - simpl. intros x [<-|[]]; apply Sample_create_clean.
  - keyed_list.
Defined.

(** ** The bound of the merge at the end of the int64 range *)

(** When no registry version lies below the bound, the merge returns the
    applied history as it is. *)
Lemma merge_nothing_below A R target max :
  migrator.merge_bound R target = Ok max ->
  (forall x, In x R -> max <= Version x) ->
  migrator.mergeMigrations A R target = Ok A.
Proof.
  intros Hb Hge. unfold migrator.mergeMigrations. rewrite Hb. cbn [bind].
  assert (Hstop : 0%nat = length R \/
                  exists r, nth_error R 0 = Some r /\ max <= Version r).
  { destruct R as [|r R']; [now left|]. right. exists r.
    split; [reflexivity|]. apply Hge. now left. }
  assert (W : migrator.merge_walk A R max (S (length A + length R)) 0 0 []
              = Ok (0%nat, 0%nat, [])).
  { cbn [migrator.merge_walk].
    destruct ((0 <? length A)%nat && (0 <? length R)%nat) eqn:G;
      [|reflexivity].
    destruct Hstop as [E|[r [Hr Hmax]]].
    - rewrite <- E in G. rewrite andb_false_r in G. discriminate G.
    - rewrite (below_max_Some _ _ _ _ Hr). cbn [bind].
      replace (Version r <? max) with false; [reflexivity|].
      symmetry. apply Z.ltb_ge. lia. }
  rewrite W. cbn [bind].
  rewrite merge_rest_applied_skipn by lia. cbn [bind]. simpl app.
  now apply (merge_rest_actual_stops R max 0 (Nat.le_0_l _)).
Qed.

(** X3: the bound of the merge is computed with [+ 1] on int64.  When the
    target is MaxInt64, or no target is given and the last registry version
    is MaxInt64, the bound wraps to MinInt64 and [Up] applies nothing at
    all, whatever is pending: it reports success and leaves the world as it
    is. *)
Theorem X3_Up_applies_nothing_when_bound_wraps
        (m : migrator.Migrator) (target : Z) (w : migrator.World)
        (t : list gorm.Row)
        (Hne : migrator.migrations m <> [])
        (Hrange : forall x, In x (migrator.migrations m) ->
                            Int64.in_range (Version x))
        (Hrows : gorm.rows (migrator.db w) = Some t)
        (Hwrap : target = Int64.max_int \/
                 (target = -1 /\
                  last (versions (migrator.migrations m)) 0 = Int64.max_int)) :
  exists old, migrator.Up m target w = (w, Ok (old, old, None)).
Proof.
  set (R := migrator.migrations m) in *.
  assert (Hb : migrator.merge_bound R target = Ok Int64.min_int).
  { unfold migrator.merge_bound.
    destruct R as [|r0 R'] eqn:ER; [contradiction|]. rewrite <- ER in *.
    assert (Hl : (0 < length R)%nat) by (rewrite ER; simpl; lia).
    apply Nat.ltb_lt in Hl. rewrite Hl.
    destruct Hwrap as [->|[-> Hlast]]; [reflexivity|].
    simpl (-1 =? -1).
    pose proof (last_version_last R) as HL.
    unfold migrator.last_version in HL. rewrite Hl in HL.
    destruct (index R (length R - 1)) as [l| |]; cbn [bind] in *;
      try discriminate.
    inversion HL as [E]. rewrite E, Hlast. reflexivity. }
  exists (last (versions (migrator.history_of (gorm.order_asc t))) 0).
  unfold migrator.Up, gorm.Find. rewrite Hrows, last_version_last.
  fold R. rewrite (merge_nothing_below _ R target Int64.min_int Hb).
  - rewrite Up_range_stored by (intros x; apply history_of_Stored).
    reflexivity.
  - intros x Hx. apply (Hrange x Hx).
Qed.

Lemma X3_Up_applies_nothing_when_bound_wraps_witness :
  let w := Sample.store [(1, "-"%string)] in
  exists old,
    migrator.Up Sample.registry3 Int64.max_int w = (w, Ok (old, old, None)).
Proof.
  apply (X3_Up_applies_nothing_when_bound_wraps Sample.registry3 Int64.max_int
           (Sample.store [(1, "-"%string)]) [(1, "-"%string)]).
  - discriminate.
  - simpl. intros x [<-|[<-|[<-|[]]]]; simpl;
      unfold Int64.in_range, Int64.min_int, Int64.max_int; lia.
  - reflexivity.
  - now left.
Defined.

(** * Down *)

Lemma Last_greatest_key d t v :
  gorm.rows d = Some t -> greatest_key v t ->
  exists r, gorm.Last d = inl r /\ fst r = v.
Proof.
  intros Ht [Hin Hmax]. unfold gorm.Last. rewrite Ht.
  destruct t as [|x t]; [destruct Hin|].
  exists (gorm.greatest x t). split; [reflexivity|].
  destruct (greatest_spec t x) as [Hg Hge].
  assert (H1 : fst (gorm.greatest x t) <= v).
  { apply Hmax. unfold gorm.keys. now apply in_map. }
  unfold gorm.keys in Hin. apply in_map_iff in Hin.
  destruct Hin as [y [Hy Hy']]. specialize (Hge y Hy'). lia.
Qed.

(** The scan passes over entries of another version. *)
Lemma Down_scan_skip l : forall rest v w,
  (forall y, In y l -> Version y <> v) ->
  migrator.Down_scan (l ++ rest) v w = migrator.Down_scan rest v w.
Proof.
  induction l as [|y l IH]; intros rest v w H; [reflexivity|].
  simpl. replace (Version y =? v) with false.
  - apply IH. intros z Hz. apply H. now right.
  - symmetry. apply Z.eqb_neq. apply H. now left.
Qed.

Lemma Down_scan_absent l v w :
  (forall y, In y l -> Version y <> v) ->
  migrator.Down_scan l v w = (w, Ok (v, None)).
Proof.
  intros H. rewrite <- (app_nil_r l). now rewrite Down_scan_skip.
Qed.




Lemma Down_unfold m w t v :
  gorm.rows (migrator.db w) = Some t -> greatest_key v t ->
  migrator.Down m w
    = (let '(w', r) :=
         migrator.Down_scan (rev (migrator.migrations m)) v w in
       (w', nv <- r ;; Ok (v, fst nv, snd nv))).
Proof.
  intros Ht Hv. unfold migrator.Down, gorm.FirstByVersionDesc.
  destruct (Last_greatest_key _ _ _ Ht Hv) as [r [-> <-]]. reflexivity.
Qed.

(** [Down] when the greatest recorded version is that of the registry entry
    [x], no later entry carrying it: with nothing before [x] nothing is
    done; else the backward procedure of [x] runs, the record goes, and the
    entry just before [x] gives newVersion. *)
Lemma Down_at_first m w t v x post :
  migrator.migrations m = x :: post ->
  (forall y, In y post -> Version y <> v) -> Version x = v ->
  gorm.rows (migrator.db w) = Some t -> greatest_key v t ->
  migrator.Down m w = (w, Ok (v, v, None)).
Proof.
  intros Hm Hpost Hx Ht Hv. rewrite (Down_unfold m w t v Ht Hv), Hm.
  simpl rev. rewrite Down_scan_skip.
  - simpl. apply Z.eqb_eq in Hx. rewrite Hx. reflexivity.
  - intros y Hy. apply Hpost. now apply in_rev.
Qed.

Lemma Down_at_later m w t v pre previous x post :
  migrator.migrations m = pre ++ previous :: x :: post ->
  (forall y, In y post -> Version y <> v) -> Version x = v ->
  gorm.rows (migrator.db w) = Some t -> greatest_key v t ->
  runs_clean (Down x) -> v <> 0 ->
  exists w',
    migrator.Down m w = (w', Ok (v, Version previous, None)) /\
    gorm.rows (migrator.db w') = Some (without v t) /\
    migrator.log w'
      = migrator.log w ++ [migrator.Backward v None;
                           migrator.DeleteRow v None].
Proof.
  intros Hm Hpost Hx Ht Hv [g [Dg Hg]] Hz.
  rewrite (Down_unfold m w t v Ht Hv), Hm.
  replace (rev (pre ++ previous :: x :: post))
    with (rev post ++ x :: previous :: rev pre).
  2:{ rewrite rev_app_distr. simpl. now rewrite <- !app_assoc. }
  rewrite Down_scan_skip by (intros y Hy; apply Hpost; now apply in_rev).
  cbn [migrator.Down_scan].
  pose proof Hx as Hx'. apply Z.eqb_eq in Hx'. rewrite Hx', Dg.
  destruct (g (migrator.db w)) as [d1 e1] eqn:G.
  destruct (Hg (migrator.db w)) as [He Hr]. rewrite G in He, Hr.
  simpl in He, Hr. subst e1.
  rewrite Hx, (Delete_keyed v d1 Hz), Hr, Ht.
  eexists. split; [reflexivity|]. cbn [migrator.db migrator.log gorm.rows].
  split; [reflexivity|]. now rewrite <- app_assoc.
Qed.

Lemma ascending_later_differ (R : list Migration) pre x post :
  ascending R -> R = pre ++ x :: post ->
  forall y, In y post -> Version y <> Version x.
Proof.
  intros HR -> y Hy. unfold ascending in HR. rewrite versions_app in HR.
  destruct (sorted_app_inv _ _ HR) as [_ [H2 _]].
  simpl in H2. apply StronglySorted_inv in H2. destruct H2 as [_ H2].
  rewrite Forall_forall in H2.
  assert (Version x < Version y); [|lia].
  apply H2. unfold versions. now apply in_map.
Qed.

Lemma split_at_nth {X : Type} (l : list X) j y x :
  nth_error l j = Some y -> nth_error l (S j) = Some x ->
  l = firstn j l ++ y :: x :: skipn (S (S j)) l.
Proof.
  intros Hy Hx. rewrite <- (firstn_skipn j l) at 1. f_equal.
  rewrite (skipn_cons_nth _ _ _ Hy). f_equal.
  now rewrite (skipn_cons_nth _ _ _ Hx).
Qed.

(** X5: with a strictly ascending registry, when the greatest recorded
    version is not 0 (the value gorm takes for a key that is not set) and
    is that of a registry entry which is not the first and whose backward
    procedure runs clean, [Down] runs that procedure once, deletes the
    record of that version and no other, and returns as newVersion the
    version of the entry just before it in the registry (whether or not a
    record of that version exists). *)
Theorem X5_Down_reverses_latest
        (m : migrator.Migrator) (w : migrator.World) (t : list gorm.Row)
        (j : nat) (previous x : Migration)
        (Hasc : ascending (migrator.migrations m))
        (Hprev : nth_error (migrator.migrations m) j = Some previous)
        (Hx : nth_error (migrator.migrations m) (S j) = Some x)
        (Hrows : gorm.rows (migrator.db w) = Some t)
        (Hgreatest : greatest_key (Version x) t)
        (Hclean : runs_clean (Down x))
        (Hkeyed : Version x <> 0) :
  exists w',
    migrator.Down m w = (w', Ok (Version x, Version previous, None)) /\
    gorm.rows (migrator.db w') = Some (without (Version x) t) /\
    migrator.log w'
      = migrator.log w ++ [migrator.Backward (Version x) None;
                           migrator.DeleteRow (Version x) None].
Proof.
  pose proof (split_at_nth _ _ _ _ Hprev Hx) as Hm.
  apply (Down_at_later m w t (Version x) _ previous x _ Hm); auto.
  apply (ascending_later_differ (migrator.migrations m)
           (firstn j (migrator.migrations m) ++ [previous]) x _ Hasc).
  now rewrite <- app_assoc.
Qed.

Lemma X5_Down_reverses_latest_witness :
  let w := Sample.store [(1, "-"); (3, "addIndex")]%string in
  exists w',
    migrator.Down Sample.registry3 w = (w', Ok (3, 2, None)) /\
    gorm.rows (migrator.db w') = Some [(1, "-"%string)] /\
    migrator.log w'
      = [] ++ [migrator.Backward 3 None; migrator.DeleteRow 3 None].
Proof.
  apply (X5_Down_reverses_latest Sample.registry3
           (Sample.store [(1, "-"); (3, "addIndex")]%string)
           [(1, "-"); (3, "addIndex")]%string 1
           (Sample.descriptor 2 "addUsers") (Sample.descriptor 3 "addIndex")).
  - unfold ascending. simpl. repeat constructor.
  - reflexivity.
  - reflexivity.
  - reflexivity.
  - split; [simpl; tauto|]. simpl. intros k [<-|[<-|[]]]; lia.
  - apply Sample_drop_clean.
  - discriminate.
Defined.

(** X6: [Down] does nothing and reports success, with newVersion equal to
    oldVersion, in two cases: when the greatest recorded version is not in
    the registry at all, and when (the registry being strictly ascending) it
    is the version of the first registry entry. *)
Theorem X6_Down_without_effect
        (m : migrator.Migrator) (w : migrator.World) (t : list gorm.Row)
        (v : Z)
        (Hrows : gorm.rows (migrator.db w) = Some t)
        (Hgreatest : greatest_key v t)
        (Hcase : ~ In v (versions (migrator.migrations m)) \/
                 (ascending (migrator.migrations m) /\
                  exists x rest,
                    migrator.migrations m = x :: rest /\ Version x = v)) :
  migrator.Down m w = (w, Ok (v, v, None)).
Proof.
  destruct Hcase as [Habsent|[Hasc [x [rest [Hm Hx]]]]].
  - rewrite (Down_unfold m w t v Hrows Hgreatest).
    rewrite Down_scan_absent; [reflexivity|].
    intros y Hy E. apply Habsent. unfold versions. rewrite <- E.
    apply in_map. now apply in_rev.
  - apply (Down_at_first m w t v x rest Hm); auto.
    rewrite <- Hx.
    apply (ascending_later_differ (migrator.migrations m) [] x rest Hasc Hm).
Qed.

Lemma X6_Down_without_effect_witness :
  let w := Sample.store [(1, "-"); (7, "unknown")]%string in
  migrator.Down Sample.registry3 w = (w, Ok (7, 7, None)).
Proof.
  apply (X6_Down_without_effect Sample.registry3
           (Sample.store [(1, "-"); (7, "unknown")]%string)
           [(1, "-"); (7, "unknown")]%string 7).
  - reflexivity.
  - split; [simpl; tauto|]. simpl. intros k [<-|[<-|[]]]; lia.
  - left. simpl. intros [H|[H|[H|[]]]]; discriminate H.
Defined.

(** * Down, then Up again *)









(** * Reset *)

Lemma corr_error R : forall A c e,
  corr R A = (c, Some e) -> e = ErrorSomeMigrationsAreAbsent.
Proof.
  induction R as [|r R IH]; intros A c e H.
  - destruct A; simpl in H; inversion H. reflexivity.
  - destruct A as [|a A]; cbn [corr] in H; [discriminate|].
    destruct (Less a r); [now inversion H|].
    destruct (Less r a); [now apply (IH _ _ _ H)|].
    destruct (corr R A) as [c' e'] eqn:E. inversion H; subst.
    now apply (IH _ _ _ E).
Qed.

Lemma keys_in_history t v :
  In v (gorm.keys t) <->
  In v (versions (migrator.history_of (gorm.order_asc t))).
Proof.
  rewrite versions_history_of. unfold gorm.keys. split; intros H.
  - eapply Permutation_in; [|exact H].
    apply Permutation_map. symmetry. apply order_asc_perm.
  - eapply Permutation_in; [|exact H].
    apply Permutation_map, order_asc_perm.
Qed.

(** X8: when some recorded version is not in the registry, [Reset] reports
    [ErrorSomeMigrationsAreAbsent] before reversing anything: no backward
    procedure runs, no record is deleted, and both versions returned are the
    greatest recorded version. *)
Theorem X8_Reset_refuses_unknown_version
        (m : migrator.Migrator) (w : migrator.World) (t : list gorm.Row)
        (Hrows : gorm.rows (migrator.db w) = Some t)
        (Hunknown : exists v, In v (gorm.keys t) /\
                              ~ In v (versions (migrator.migrations m))) :
  exists old,
    migrator.Reset m w = (w, Ok (old, old, Some ErrorSomeMigrationsAreAbsent)) /\
    greatest_key old t.
Proof.
  destruct Hunknown as [v [Hv Hout]].
  set (A := migrator.history_of (gorm.order_asc t)).
  exists (last (versions A) 0). split.
  - unfold migrator.Reset, gorm.Find. rewrite Hrows. fold A.
    rewrite last_version_last, correlate_fuel_enough.
    destruct (corr (migrator.migrations m) A) as [c [e|]] eqn:E.
    + now rewrite (corr_error _ _ _ _ E).
    + exfalso. destruct (corr_success _ _ _ E) as [Hvs Hi].
      apply Hout. apply keys_in_history in Hv. fold A in Hv.
      rewrite <- Hvs in Hv. unfold versions in *.
      apply in_map_iff in Hv. destruct Hv as [x [<- Hx]].
      apply in_map. now apply Hi.
  - assert (HA : nondecreasing (versions A)).
    { unfold A. rewrite versions_history_of. apply order_asc_nondecreasing. }
    destruct (last_version_greatest A _ HA (last_version_last A))
      as [Hmax [Hmem _]].
    split.
    + apply keys_in_history. apply Hmem. intros EA.
      apply keys_in_history in Hv. fold A in Hv. rewrite EA in Hv.
      destruct Hv.
    + intros k Hk. apply Hmax. now apply keys_in_history.
Qed.

Lemma X8_Reset_refuses_unknown_version_witness :
  let w := Sample.store [(1, "-"); (4, "gone")]%string in
  exists old,
    migrator.Reset Sample.registry3 w
      = (w, Ok (old, old, Some ErrorSomeMigrationsAreAbsent)) /\
    greatest_key old [(1, "-"); (4, "gone")]%string.
Proof.
  apply (X8_Reset_refuses_unknown_version Sample.registry3
           (Sample.store [(1, "-"); (4, "gone")]%string)
           [(1, "-"); (4, "gone")]%string eq_refl).
  exists 4. split; [simpl; tauto|].
  simpl. intros [H|[H|[H|[]]]]; discriminate H.
Defined.

Lemma last_any_default (l : list Z) a d d' :
  last (a :: l) d = last (a :: l) d'.
Proof. now rewrite !last_cons_default. Qed.

Lemma filter_filter {X : Type} (f g : X -> bool) l :
  filter f (filter g l) = filter (fun x => g x && f x) l.
Proof.
  induction l as [|x l IH]; [reflexivity|]. simpl.
  destruct (g x); simpl; [destruct (f x)|]; now rewrite IH.
Qed.

Lemma filter_all {X : Type} (f : X -> bool) l :
  (forall x, f x = true) -> filter f l = l.
Proof.
  intros H. induction l as [|x l IH]; [reflexivity|]. simpl.
  now rewrite H, IH.
Qed.

(** When every backward procedure runs clean, the loop of [Reset] reverses
    all its entries and deletes the records of those above version 1. *)
Lemma Reset_range_runs L : forall nv w t,
  gorm.rows (migrator.db w) = Some t ->
  (forall x, In x L -> runs_clean (Down x)) ->
  exists w',
    migrator.Reset_range L nv w = (w', Ok (last (versions L) nv, None)) /\
    gorm.rows (migrator.db w') = Some (filter (survives L) t) /\
    migrator.log w' = migrator.log w ++ reversed_steps L.
Proof.
  induction L as [|x L IH]; intros nv w t Ht Hclean.
  - exists w. simpl. rewrite app_nil_r. repeat split; try reflexivity.
    rewrite Ht. f_equal. symmetry. now apply filter_all.
  - cbn [migrator.Reset_range].
    destruct (Hclean x (or_introl eq_refl)) as [g [Dg Hg]]. rewrite Dg.
    destruct (g (migrator.db w)) as [d1 e1] eqn:G.
    destruct (Hg (migrator.db w)) as [He Hr]. rewrite G in He, Hr.
    simpl in He, Hr. subst e1.
    set (nv' := match L with
                | previous :: _ => Version previous
                | [] => Version x
                end).
    assert (Hnv : last (versions L) nv' = last (versions (x :: L)) nv).
    { simpl versions. rewrite last_cons_default. subst nv'.
      destruct L as [|p L']; [reflexivity|]. apply last_any_default. }
    destruct (1 <? Version x) eqn:C.
    + rewrite Delete_keyed by (apply Z.ltb_lt in C; lia).
      rewrite Hr, Ht.
      destruct (IH nv'
                  (migrator.mkWorld
                     (gorm.mkDB (gorm.objects d1)
                        (Some (filter (fun r => negb (fst r =? Version x)) t)))
                     ((migrator.log w ++ [migrator.Backward (Version x) None])
                        ++ [migrator.DeleteRow (Version x) None]))
                  (filter (fun r => negb (fst r =? Version x)) t))
        as [w' [Hrun [Hrows Hlog]]]; [reflexivity | |].
      { intros y Hy. apply Hclean. now right. }
      exists w'. cbn [migrator.log]. split; [|split].
      * rewrite Hrun, Hnv. reflexivity.
      * rewrite Hrows, filter_filter. f_equal. apply filter_ext.
        intros r. unfold survives. simpl. rewrite C. simpl.
        now rewrite negb_orb.
      * rewrite Hlog. cbn [migrator.log]. simpl. rewrite C.
        now rewrite <- !app_assoc.
    + destruct (IH nv'
                  (migrator.mkWorld d1
                     (migrator.log w ++ [migrator.Backward (Version x) None]))
                  t) as [w' [Hrun [Hrows Hlog]]];
        [cbn [migrator.db]; now rewrite Hr | |].
      { intros y Hy. apply Hclean. now right. }
      exists w'. split; [|split].
      * rewrite Hrun, Hnv. reflexivity.
      * rewrite Hrows. f_equal. apply filter_ext.
        intros r. unfold survives. simpl. rewrite C. reflexivity.
      * rewrite Hlog. cbn [migrator.log]. simpl. rewrite C.
        now rewrite <- !app_assoc.
Qed.

Lemma nondecreasing_NoDup_sorted l :
  nondecreasing l -> NoDup l -> StronglySorted Z.lt l.
Proof.
  induction 1 as [|x l Hs IH Hx]; intros Hnd; constructor.
  - apply IH. now inversion Hnd.
  - inversion Hnd as [|? ? Hnotin _]; subst.
    rewrite Forall_forall in *. intros y Hy.
    specialize (Hx y Hy). assert (x <> y) by (intros ->; contradiction). lia.
Qed.

Lemma last_rev_hd (l : list Z) d : last (rev l) d = hd d l.
Proof.
  destruct l as [|x l]; [reflexivity|]. simpl. apply last_last.
Qed.

(** X9: when the recorded versions are distinct and all in the strictly
    ascending registry, and the backward procedures of the recorded
    entries run clean, [Reset] runs the backward procedure of every
    recorded entry once, from the greatest version down to the lowest
    (the sentinel included), deletes the record of every version above 1 and
    keeps the others, and returns the greatest recorded version as
    oldVersion and the lowest as newVersion. *)
Theorem X9_Reset_reverses_all
        (m : migrator.Migrator) (w : migrator.World) (t : list gorm.Row)
        (Hasc : ascending (migrator.migrations m))
        (Hrows : gorm.rows (migrator.db w) = Some t)
        (Hkeys : NoDup (gorm.keys t))
        (Hknown : forall v, In v (gorm.keys t) ->
                            In v (versions (migrator.migrations m)))
        (Hclean : forall x, In x (migrator.migrations m) ->
                            In (Version x) (gorm.keys t) ->
                            runs_clean (Down x)) :
  let recorded :=
    matching (migrator.history_of (gorm.order_asc t))
             (migrator.migrations m) in
  let old := last (gorm.keys (gorm.order_asc t)) 0 in
  exists w',
    migrator.Reset m w
      = (w', Ok (old, hd old (gorm.keys (gorm.order_asc t)), None)) /\
    versions recorded = gorm.keys (gorm.order_asc t) /\
    gorm.rows (migrator.db w') = Some (filter (fun r => fst r <=? 1) t) /\
    migrator.log w' = migrator.log w ++ reversed_steps (rev recorded).
Proof.
  intros recorded old.
  set (R := migrator.migrations m) in *.
  set (A := migrator.history_of (gorm.order_asc t)) in *.
  assert (HvA : versions A = gorm.keys (gorm.order_asc t))
    by apply versions_history_of.
  assert (HA : ascending A).
  { unfold ascending. rewrite HvA. apply nondecreasing_NoDup_sorted.
    - apply order_asc_nondecreasing.
    - eapply Permutation_NoDup; [|exact Hkeys].
      unfold gorm.keys. apply Permutation_map. symmetry.
      apply order_asc_perm. }
  assert (Hin : forall v, In v (versions A) -> In v (versions R)).
  { intros v Hv. apply Hknown. now apply keys_in_history. }
  assert (E : corr R A = (recorded, None)).
  { pose proof (corr_prefix R A [] Hasc) as H.
    rewrite !app_nil_r in H. apply H; try assumption.
    intros a Ha. discriminate Ha. }
  destruct (corr_success _ _ _ E) as [Hvs _].
  destruct (Reset_range_runs (rev recorded) old w t Hrows)
    as [w' [Hrun [Hrows' Hlog]]].
  { intros x Hx. apply in_rev in Hx. unfold recorded, matching in Hx.
    apply filter_In in Hx. destruct Hx as [HxR Hx].
    apply has_version_In in Hx. apply Hclean; [assumption|].
    now apply keys_in_history. }
  exists w'. split; [|split; [|split]].
  - unfold migrator.Reset, gorm.Find. rewrite Hrows. fold A.
    rewrite last_version_last, HvA. fold old. fold R.
    rewrite correlate_fuel_enough, E, Hrun.
    cbn [bind fst snd]. unfold versions. rewrite map_rev.
    fold (versions recorded). now rewrite last_rev_hd, Hvs, HvA.
  - now rewrite Hvs.
  - rewrite Hrows'. f_equal. apply filter_ext_in. intros r Hr.
    unfold survives. destruct (fst r <=? 1) eqn:C.
    + apply Z.leb_le in C. apply negb_true_iff.
      apply not_true_is_false. intros H. apply existsb_exists in H.
      destruct H as [x [_ H]]. apply andb_true_iff in H.
      destruct H as [H1 H2]. apply Z.ltb_lt in H1. apply Z.eqb_eq in H2. lia.
    + apply Z.leb_gt in C. apply negb_false_iff. apply existsb_exists.
      assert (Hk : In (fst r) (versions recorded)).
      { rewrite Hvs. apply keys_in_history. unfold gorm.keys.
        now apply in_map. }
      unfold versions in Hk. apply in_map_iff in Hk.
      destruct Hk as [x [Hx Hx']]. exists x. split; [now apply in_rev in Hx'|].
      apply andb_true_iff. split; [apply Z.ltb_lt; lia | apply Z.eqb_eq; lia].
  - assumption.
Qed.

Lemma X9_Reset_reverses_all_witness :
  let t := [(1, "-"); (3, "addIndex"); (2, "addUsers")]%string in
  let w := Sample.store t in
  exists w',
    migrator.Reset Sample.registry3 w = (w', Ok (3, 1, None)) /\
    versions (matching (migrator.history_of (gorm.order_asc t))
                       (migrator.migrations Sample.registry3))
      = [1; 2; 3] /\
    gorm.rows (migrator.db w') = Some [(1, "-"%string)] /\
    migrator.log w'
      = [] ++ [migrator.Backward 3 None; migrator.DeleteRow 3 None;
               migrator.Backward 2 None; migrator.DeleteRow 2 None;
               migrator.Backward 1 None].
Proof.
  apply (X9_Reset_reverses_all Sample.registry3
           (Sample.store [(1, "-"); (3, "addIndex"); (2, "addUsers")]%string)
           [(1, "-"); (3, "addIndex"); (2, "addUsers")]%string).
  - unfold ascending. simpl. repeat constructor.
  - reflexivity.
  - simpl. repeat constructor; simpl; intuition discriminate.
  - simpl. tauto.
  - simpl. intros x [<-|[<-|[<-|[]]]] _; apply Sample_drop_clean.
Defined.

(** What [Reset] deletes lies above version 1. *)
Lemma Reset_range_deletes L : forall nv w w' r v e,
  migrator.Reset_range L nv w = (w', r) ->
  In (migrator.DeleteRow v e) (migrator.log w') ->
  In (migrator.DeleteRow v e) (migrator.log w) \/ 1 < v.
Proof.
  induction L as [|x L IH]; intros nv w w' r v e H Hin; simpl in H.
  - inversion H; subst. now left.
  - destruct (Down x) as [g|]; [|inversion H; subst; now left].
    destruct (g (migrator.db w)) as [d1 [e1|]].
    + inversion H; subst. cbn [migrator.log] in Hin.
      apply in_app_or in Hin. destruct Hin as [Hin|[Hin|[]]];
        [now left | discriminate Hin].
    + destruct (1 <? Version x) eqn:C.
      * apply Z.ltb_lt in C.
        destruct (gorm.Delete (Version x) d1) as [d2 [e2|]].
        -- inversion H; subst. cbn [migrator.log] in Hin.
           apply in_app_or in Hin. destruct Hin as [Hin|[Hin|[]]].
           ++ apply in_app_or in Hin. destruct Hin as [Hin|[Hin|[]]];
                [now left | discriminate Hin].
           ++ inversion Hin; subst. now right.
        -- destruct (IH _ _ _ _ _ _ H Hin) as [Hin'|Hv]; [|now right].
           cbn [migrator.log] in Hin'.
           apply in_app_or in Hin'. destruct Hin' as [Hin'|[Hin'|[]]].
           ++ apply in_app_or in Hin'. destruct Hin' as [Hin'|[Hin'|[]]];
                [now left | discriminate Hin'].
           ++ inversion Hin'; subst. now right.
      * destruct (IH _ _ _ _ _ _ H Hin) as [Hin'|Hv]; [|now right].
        cbn [migrator.log] in Hin'.
        apply in_app_or in Hin'. destruct Hin' as [Hin'|[Hin'|[]]];
          [now left | discriminate Hin'].
Qed.

(** X10: whatever the registry, the store and the outcome of the
    procedures, [Reset] never issues a delete for a record whose version is
    1 or less: the baseline record is left alone. *)
Theorem X10_Reset_never_deletes_baseline
        (m : migrator.Migrator) (w w' : migrator.World)
        (r : result migrator.reply) (v : Z) (e : option error)
        (Hreset : migrator.Reset m w = (w', r))
        (Hdelete : In (migrator.DeleteRow v e) (migrator.log w')) :
  In (migrator.DeleteRow v e) (migrator.log w) \/ 1 < v.
Proof.
  unfold migrator.Reset in Hreset.
  destruct (gorm.Find (migrator.db w)) as [found [e0|]].
  - inversion Hreset; subst. now left.
  - destruct (migrator.last_version _) as [version| |];
      try (inversion Hreset; subst; now left).
    destruct (migrator.correlateMigrations _ _) as [[c [e1|]]| |];
      try (inversion Hreset; subst; now left).
    destruct (migrator.Reset_range (rev c) version w) as [w1 r1] eqn:E.
    inversion Hreset; subst.
    apply (Reset_range_deletes _ _ _ _ _ _ _ E Hdelete).
Qed.

Lemma X10_Reset_never_deletes_baseline_witness :
  let w := Sample.store [(1, "-"); (2, "addUsers")]%string in
  In (migrator.DeleteRow 2 None) (migrator.log w) \/ 1 < 2.
Proof.
  apply (X10_Reset_never_deletes_baseline Sample.registry3
           (Sample.store [(1, "-"); (2, "addUsers")]%string)
           (fst (migrator.Reset Sample.registry3
                   (Sample.store [(1, "-"); (2, "addUsers")]%string)))
           (snd (migrator.Reset Sample.registry3
                   (Sample.store [(1, "-"); (2, "addUsers")]%string)))
           2 None).
  - reflexivity.
  - simpl. tauto.
Defined.

(** * SetVersion and what follows it *)

Lemma collect_until_at target pre found post : forall i migs,
  ~ In target (versions pre) -> Version found = target ->
  migrator.collect_until target (pre ++ found :: post) i migs
    = (migs ++ pre ++ [found], Z.of_nat (i + length pre)).
Proof.
  induction pre as [|x pre IH]; intros i migs Hout Hv; simpl.
  - apply Z.eqb_eq in Hv. rewrite Hv, Nat.add_0_r. reflexivity.
  - replace (Version x =? target) with false.
    + rewrite IH; [|intros H; apply Hout; now right | assumption].
      rewrite <- app_assoc. simpl. do 2 f_equal. lia.
    + symmetry. apply Z.eqb_neq. intros E. apply Hout. now left.
Qed.

(** [SetVersion] up to its two writes, for a target that the registry has
    first at [found]: the records go, and the descriptors up to [found] are
    written in one insert. *)
Lemma SetVersion_writes m target w x t pre found post :
  migrator.migrations m = pre ++ found :: post ->
  ~ In target (versions pre) -> Version found = target ->
  keyed (pre ++ [found]) ->
  gorm.rows (migrator.db w) = Some (x :: t) ->
  exists old nv,
    migrator.SetVersion m target w
      = (let d1 := gorm.mkDB (gorm.objects (migrator.db w)) (Some []) in
         let '(d2, e2) :=
           gorm.Create (map migrator.record_of (pre ++ [found])) d1 in
         (migrator.mkWorld d2
            ((migrator.log w ++ [migrator.DeleteAllRows None])
               ++ [migrator.Insert (map Version (pre ++ [found])) e2]),
          match e2 with
          | Some e => Ok (old, nv, Some e)
          | None => Ok (old, target, None)
          end)).
Proof.
  intros Hm Hout Hv Hz Hrows.
  unfold migrator.SetVersion, migrator.Version, gorm.Last.
  rewrite Hrows, Hm, (collect_until_at target pre found post 0 [] Hout Hv).
  simpl app.
  replace (Z.of_nat (0 + length pre) =? -1) with false
    by (symmetry; apply Z.eqb_neq; lia).
  rewrite Nat2Z.id. simpl Nat.add.
  rewrite (index_Some _ _ found)
    by (rewrite nth_error_app2, Nat.sub_diag; [reflexivity | lia]).
  unfold gorm.DeleteAll. rewrite Hrows.
  destruct (gorm.Create (map migrator.record_of (pre ++ [found])) _)
    as [d2 [e2|]] eqn:C.
  - eexists. eexists. cbn [migrator.log]. reflexivity.
  - rewrite written_back_keyed by (apply records_keyed, Hz).
    rewrite keys_record_of, versions_app. simpl versions.
    rewrite (index_Some _ _ target).
    + exists (fst (gorm.greatest x t)), 0. cbn [migrator.log]. reflexivity.
    + rewrite length_app. simpl.
      rewrite nth_error_app2 by (unfold versions; rewrite length_map; lia).
      unfold versions. rewrite length_map.
      replace (length pre + 1 - 1 - length pre)%nat with 0%nat by lia.
      now rewrite Hv.
Qed.

Lemma filter_all_in {X : Type} (f : X -> bool) l :
  (forall x, In x l -> f x = true) -> filter f l = l.
Proof.
  induction l as [|x l IH]; intros H; [reflexivity|]. simpl.
  rewrite (H x (or_introl eq_refl)). f_equal.
  apply IH. intros y Hy. apply H. now right.
Qed.

Lemma filter_none_in {X : Type} (f : X -> bool) l :
  (forall x, In x l -> f x = false) -> filter f l = [].
Proof.
  induction l as [|x l IH]; intros H; [reflexivity|]. simpl.
  rewrite (H x (or_introl eq_refl)).
  apply IH. intros y Hy. apply H. now right.
Qed.

Lemma first_occurrence target R :
  In target (versions R) ->
  exists pre found post,
    R = pre ++ found :: post /\ ~ In target (versions pre) /\
    Version found = target.
Proof.
  induction R as [|x R IH]; intros H; [destruct H|].
  destruct (Z.eq_dec (Version x) target) as [E|E].
  - exists [], x, R. auto.
  - destruct IH as [pre [found [post [-> [Hout Hv]]]]].
    { destruct H as [H|H]; [contradiction | assumption]. }
    exists (x :: pre), found, post. repeat split; try assumption.
    intros [H'|H']; contradiction.
Qed.

(** X11: after [SetVersion v] on a strictly ascending registry (store not
    empty, versions in the int64 range and not 0, the value gorm takes for a
    key that is not set; [v] not -1), the store holds exactly the records
    of the registry entries up to [v], in registry order, and a following
    [Up v] changes nothing: it runs no procedure, inserts nothing and
    returns (v, v). *)
Theorem X11_SetVersion_then_Up_is_settled
        (m : migrator.Migrator) (v : Z) (w : migrator.World)
        (x : gorm.Row) (t : list gorm.Row)
        (Hasc : ascending (migrator.migrations m))
        (Hrange : forall y, In y (migrator.migrations m) ->
                            Int64.in_range (Version y))
        (Hkeyed : keyed (migrator.migrations m))
        (Hin : In v (versions (migrator.migrations m)))
        (Hset : v <> -1)
        (Hrows : gorm.rows (migrator.db w) = Some (x :: t)) :
  exists old w',
    migrator.SetVersion m v w = (w', Ok (old, v, None)) /\
    gorm.rows (migrator.db w')
      = Some (map migrator.record_of (upto v (migrator.migrations m))) /\
    migrator.Up m v w' = (w', Ok (v, v, None)).
Proof.
  set (R := migrator.migrations m) in *.
  destruct (first_occurrence v R Hin) as [pre [found [post [HR [Hout Hv]]]]].
  assert (Hs : StronglySorted Z.lt (versions pre ++ Version found :: versions post)).
  { unfold ascending in Hasc. rewrite HR, versions_app in Hasc. exact Hasc. }
  destruct (sorted_app_inv _ _ Hs) as [Hpre [Hfp Hlt]].
  apply StronglySorted_inv in Hfp. destruct Hfp as [_ Hpost].
  rewrite Forall_forall in Hpost.
  assert (Hupto : upto v R = pre ++ [found]).
  { rewrite HR. unfold upto. rewrite filter_app. simpl.
    rewrite Hv, Z.leb_refl. f_equal.
    - apply filter_all_in. intros y Hy. apply Z.leb_le.
      assert (Version y < Version found); [|lia].
      apply Hlt; [unfold versions; now apply in_map | now left].
    - f_equal. apply filter_none_in. intros y Hy. apply Z.leb_gt.
      rewrite <- Hv. apply Hpost. unfold versions. now apply in_map. }
  assert (Hsorted : StronglySorted Z.lt (versions (pre ++ [found]))).
  { rewrite versions_app. simpl.
    change (versions pre ++ Version found :: versions post)
      with (versions pre ++ [Version found] ++ versions post) in Hs.
    rewrite app_assoc in Hs. now destruct (sorted_app_inv _ _ Hs) as [H1 _]. }
  assert (Hz : keyed (pre ++ [found])).
  { intros y Hy. apply Hkeyed. fold R. rewrite HR.
    apply in_app_or in Hy. apply in_or_app.
    destruct Hy as [Hy|[<-|[]]]; [now left | right; now left]. }
  destruct (SetVersion_writes m v w x t pre found post HR Hout Hv Hz Hrows)
    as [old [nv HS]].
  cbv zeta in HS.
  rewrite Create_keyed in HS by (apply records_keyed, Hz).
  cbn [gorm.rows gorm.objects app] in HS.
  rewrite keys_record_of in HS.
  replace (gorm.distinct (versions (pre ++ [found]))) with true in HS
    by (symmetry; apply distinct_NoDup, sorted_NoDup, Hsorted).
  eexists. eexists. split; [exact HS|]. cbn [migrator.db gorm.rows].
  split; [now rewrite Hupto|].
  (* the following Up *)
  set (t' := map migrator.record_of (pre ++ [found])).
  set (A := migrator.history_of (gorm.order_asc t')).
  assert (Hk : (length (pre ++ [found]) <= length R)%nat).
  { rewrite HR, !length_app. simpl. lia. }
  assert (Hfirst : firstn (length (pre ++ [found])) R = pre ++ [found]).
  { rewrite HR.
    change (pre ++ found :: post) with (pre ++ [found] ++ post).
    rewrite app_assoc, firstn_app, firstn_all, Nat.sub_diag. simpl.
    now rewrite app_nil_r. }
  assert (HAR : versions A
                = versions (firstn (length (pre ++ [found])) R)).
  { rewrite Hfirst. unfold A. rewrite versions_history_of.
    apply sorted_perm_unique; [apply order_asc_nondecreasing | assumption |].
    unfold t'. rewrite <- keys_record_of. unfold gorm.keys.
    apply Permutation_map, order_asc_perm. }
  assert (Hskip : skipn (length (pre ++ [found])) R = post).
  { rewrite HR.
    change (pre ++ found :: post) with (pre ++ [found] ++ post).
    rewrite app_assoc, skipn_app, skipn_all, Nat.sub_diag. reflexivity. }
  assert (Hbound : exists max,
             migrator.merge_bound R v = Ok max /\ below max post = []).
  { unfold migrator.merge_bound.
    replace (0 <? length R)%nat with true
      by (symmetry; apply Nat.ltb_lt; rewrite HR, length_app; simpl; lia).
    apply Z.eqb_neq in Hset. rewrite Hset.
    eexists. split; [reflexivity|].
    unfold below. apply filter_none_in. intros y Hy. apply Z.ltb_ge.
    assert (Hy' : Version found < Version y)
      by (apply Hpost; unfold versions; now apply in_map).
    assert (HyR : Int64.in_range (Version y)).
    { apply Hrange. rewrite HR. apply in_or_app. right. now right. }
    assert (HvR : Int64.in_range v).
    { rewrite <- Hv. apply Hrange. rewrite HR. apply in_or_app.
      right. now left. }
    unfold Int64.add, Int64.wrap, Int64.in_range, Int64.min_int,
      Int64.max_int, Int64.modulus in *.
    rewrite Z.mod_small; lia. }
  destruct Hbound as [max [Hb Hnone]].
  pose proof (merge_prefix A R max _ Hk HAR (ascending_nondecreasing _ Hasc)
                v Hb) as HM.
  rewrite Hskip, Hnone, app_nil_r in HM.
  unfold migrator.Up, gorm.Find. cbn [migrator.db gorm.rows].
  fold t'. fold A. rewrite last_version_last, HAR, Hfirst, versions_app.
  simpl. rewrite last_app_singleton, Hv. fold R. rewrite HM.
  rewrite Up_range_stored by (intros y; apply history_of_Stored).
  reflexivity.
Qed.

Lemma X11_SetVersion_then_Up_is_settled_witness :
  let w := Sample.store [(1, "-"%string)] in
  exists old w',
    migrator.SetVersion Sample.registry3 2 w = (w', Ok (old, 2, None)) /\
    gorm.rows (migrator.db w')
      = Some (map migrator.record_of
                  (upto 2 (migrator.migrations Sample.registry3))) /\
    migrator.Up Sample.registry3 2 w' = (w', Ok (2, 2, None)).
Proof.
  apply (X11_SetVersion_then_Up_is_settled Sample.registry3 2
           (Sample.store [(1, "-"%string)]) (1, "-"%string) []).
  - unfold ascending. simpl. repeat constructor.
  - simpl. intros y [<-|[<-|[<-|[]]]]; simpl;
      unfold Int64.in_range, Int64.min_int, Int64.max_int; lia.
  - keyed_list.
  - simpl. tauto.
  - discriminate.
  - reflexivity.
Defined.

(** X12: [SetVersion] deletes all records before it inserts, and the insert
    is refused as a whole when two registry entries before the target share
    a version (no entry up to the target having version 0, the value gorm
    takes for a key that is not set).  It then returns the duplicate-key
    error and leaves the store without any record, so that [Version] finds
    nothing afterwards. *)
Theorem X12_SetVersion_clash_empties_store
        (m : migrator.Migrator) (v : Z) (w : migrator.World)
        (x : gorm.Row) (t : list gorm.Row)
        (pre post : list Migration) (found : Migration)
        (Hsplit : migrator.migrations m = pre ++ found :: post)
        (Hfirst : ~ In v (versions pre))
        (Hfound : Version found = v)
        (Hclash : ~ NoDup (versions pre))
        (Hkeyed : keyed (pre ++ [found]))
        (Hrows : gorm.rows (migrator.db w) = Some (x :: t)) :
  exists old nv w',
    migrator.SetVersion m v w = (w', Ok (old, nv, Some ErrDuplicatedKey)) /\
    gorm.rows (migrator.db w') = Some [] /\
    migrator.Version m w' = (0, 0, Some ErrRecordNotFound).
Proof.
  destruct (SetVersion_writes m v w x t pre found post Hsplit Hfirst Hfound
              Hkeyed Hrows) as [old [nv HS]].
  cbv zeta in HS.
  rewrite Create_keyed in HS by (apply records_keyed, Hkeyed).
  cbn [gorm.rows gorm.objects app] in HS.
  rewrite keys_record_of in HS.
  replace (gorm.distinct (versions (pre ++ [found]))) with false in HS.
  - exists old, nv. eexists. split; [exact HS|].
    cbn [migrator.db gorm.rows]. split; reflexivity.
  - symmetry. apply not_true_is_false. intros H.
    apply distinct_NoDup in H. rewrite versions_app in H.
    apply Hclash. eapply NoDup_app_remove_r; eauto.
Qed.

Lemma X12_SetVersion_clash_empties_store_witness :
  let w := Sample.store [(1, "-"%string)] in
  exists old nv w',
    migrator.SetVersion registry_with_two_baselines 2 w
      = (w', Ok (old, nv, Some ErrDuplicatedKey)) /\
    gorm.rows (migrator.db w') = Some [] /\
    migrator.Version registry_with_two_baselines w'
      = (0, 0, Some ErrRecordNotFound).
Proof.
  apply (X12_SetVersion_clash_empties_store registry_with_two_baselines 2
           (Sample.store [(1, "-"%string)]) (1, "-"%string) []
           [Sample.descriptor 1 "-"; Sample.descriptor 1 "baseline"] []
           (Sample.descriptor 2 "addUsers")).
  - reflexivity.
  - simpl. intros [H|[H|[]]]; discriminate H.
  - reflexivity.
  - simpl. intros H. inversion H as [|? ? Hn _]; subst. apply Hn. now left.
  - keyed_list.
  - reflexivity.
Defined.

(** * The engine on arbitrary sequences *)

(** The shape of what the walk of [correlateMigrations] returns, sorted
    input or not. *)
Lemma corr_shape R : forall A c e,
  corr R A = (c, e) ->
  match e with
  | None => versions c = versions A /\ incl c R
  | Some e' =>
      e' = ErrorSomeMigrationsAreAbsent /\
      exists c0 a,
        c = c0 ++ [a] /\ nth_error A (length c0) = Some a /\
        versions c0 = versions (firstn (length c0) A) /\ incl c0 R
  end.
Proof.
  induction R as [|r R IH]; intros A c e H.
  - destruct A as [|a A]; simpl in H; inversion H; subst.
    + split; [reflexivity | intros ? []].
    + split; [reflexivity|]. exists [], a.
      repeat split; intros ? [].
  - destruct A as [|a A]; cbn [corr] in H.
    + inversion H; subst. split; [reflexivity | intros ? []].
    + unfold Less, CompareMigrations in H.
      destruct (Version a <? Version r) eqn:C1.
      * inversion H; subst. split; [reflexivity|]. exists [], a.
        repeat split; intros ? [].
      * destruct (Version r <? Version a) eqn:C2.
        -- specialize (IH _ _ _ H). destruct e as [e'|].
           ++ destruct IH as [He [c0 [a0 [Hc [Hn [Hv Hi]]]]]].
              split; [assumption|]. exists c0, a0.
              repeat split; try assumption.
              intros y Hy. right. now apply Hi.
           ++ destruct IH as [Hv Hi]. split; [assumption|].
              intros y Hy. right. now apply Hi.
        -- destruct (corr R A) as [c' e'] eqn:E. inversion H; subst.
           specialize (IH _ _ _ E).
           apply Z.ltb_ge in C1, C2.
           assert (Er : Version r = Version a) by lia.
           destruct e as [e''|].
           ++ destruct IH as [He [c0 [a0 [Hc [Hn [Hv Hi]]]]]].
              split; [assumption|]. exists (r :: c0), a0. subst c'.
              repeat split.
              ** exact Hn.
              ** simpl. now rewrite Er, Hv.
              ** intros y [<-|Hy]; [now left | right; now apply Hi].
           ++ destruct IH as [Hv Hi]. split.
              ** simpl. now rewrite Er, Hv.
              ** intros y [<-|Hy]; [now left | right; now apply Hi].
Qed.

(** X13: on any two sequences, sorted or not, [correlateMigrations] stays
    within bounds and returns.  On success the result has the versions of
    the applied sequence, entry by entry, and consists of registry
    descriptors; on failure the error is [ErrorSomeMigrationsAreAbsent] and
    the last item of the result is the applied record at which the walk
    stopped, the items before it being the registry descriptors matched
    with the applied records before that one. *)
Theorem X13_correlate_returns_matched_then_missing
        (A R : list Migration) :
  exists c e,
    migrator.correlateMigrations A R = Ok (c, e) /\
    match e with
    | None => versions c = versions A /\ incl c R
    | Some e' =>
        e' = ErrorSomeMigrationsAreAbsent /\
        exists c0 a,
          c = c0 ++ [a] /\ nth_error A (length c0) = Some a /\
          versions c0 = versions (firstn (length c0) A) /\ incl c0 R
    end.
Proof.
  rewrite correlate_fuel_enough.
  destruct (corr R A) as [c e] eqn:E. exists c, e.
  split; [reflexivity|]. now apply corr_shape.
Qed.

(** The stored entries of what the merge builds are the applied entries
    passed so far. *)
Section MergeKeepsHistory.
Variables A R : list Migration.
Variable max : Z.
Hypothesis HAs : forall x, In x A -> Stored x = true.
Hypothesis HRs : forall x, In x R -> Stored x = false.

Lemma filter_Stored_snoc_applied merged a :
  In a A -> filter Stored (merged ++ [a]) = filter Stored merged ++ [a].
Proof. intros H. rewrite filter_app. simpl. now rewrite (HAs a H). Qed.

Lemma filter_Stored_snoc_actual merged r :
  In r R -> filter Stored (merged ++ [r]) = filter Stored merged.
Proof.
  intros H. rewrite filter_app. simpl. rewrite (HRs r H). apply app_nil_r.
Qed.

Lemma merge_walk_keeps fuel : forall i j merged i' j' merged',
  filter Stored merged = firstn i A ->
  migrator.merge_walk A R max fuel i j merged = Ok (i', j', merged') ->
  filter Stored merged' = firstn i' A.
Proof.
  induction fuel as [|fuel IH]; intros i j merged i' j' merged' Hk H;
    [discriminate|].
  cbn [migrator.merge_walk] in H.
  destruct ((i <? length A)%nat && (j <? length R)%nat) eqn:G;
    [|inversion H; now subst].
  apply andb_true_iff in G. destruct G as [Gi Gj].
  apply Nat.ltb_lt in Gi, Gj.
  destruct (index_in_range A i Gi) as [a [Ha Hia]].
  destruct (index_in_range R j Gj) as [r [Hr Hjr]].
  rewrite (below_max_Some _ _ _ _ Hr) in H. cbn [bind] in H.
  destruct (Version r <? max); [|inversion H; now subst].
  rewrite Hia, Hjr in H. cbn [bind] in H.
  assert (HaA : In a A) by (eapply nth_error_In; eauto).
  assert (HrR : In r R) by (eapply nth_error_In; eauto).
  assert (Htake : filter Stored (merged ++ [a]) = firstn (S i) A).
  { rewrite (filter_Stored_snoc_applied _ _ HaA), Hk.
    symmetry. now apply firstn_S_nth. }
  destruct (Less a r); [apply (IH _ _ _ _ _ _ Htake H)|].
  destruct (index A j) as [a'| |]; cbn [bind] in H; try discriminate.
  destruct (Less r a'); [|apply (IH _ _ _ _ _ _ Htake H)].
  apply (IH i (S j) (merged ++ [r]) i' j' merged'); [|exact H].
  now rewrite (filter_Stored_snoc_actual _ _ HrR).
Qed.

Lemma merge_rest_actual_keeps fuel : forall j merged merged',
  migrator.merge_rest_actual R max fuel j merged = Ok merged' ->
  filter Stored merged' = filter Stored merged.
Proof.
  induction fuel as [|fuel IH]; intros j merged merged' H; [discriminate|].
  cbn [migrator.merge_rest_actual] in H.
  destruct (j <? length R)%nat eqn:G; [|inversion H; now subst].
  apply Nat.ltb_lt in G.
  destruct (index_in_range R j G) as [r [Hr Hjr]].
  rewrite (below_max_Some _ _ _ _ Hr) in H. cbn [bind] in H.
  destruct (Version r <? max); [|inversion H; now subst].
  rewrite Hjr in H. cbn [bind] in H.
  rewrite (IH _ _ _ H).
  apply filter_Stored_snoc_actual. eapply nth_error_In; eauto.
Qed.

End MergeKeepsHistory.

(** X14: whenever [mergeMigrations] returns (the applied entries being
    marked stored and the registry entries not), the stored entries of the
    result are the applied history itself, complete and in order, and every
    other entry is a registry entry; for a set target and versions in the
    int64 range, none of those lies above the target. *)
Theorem X14_merge_passes_history_through
        (A R M : list Migration) (target : Z)
        (HAs : forall x, In x A -> Stored x = true)
        (HRs : forall x, In x R -> Stored x = false)
        (HM : migrator.mergeMigrations A R target = Ok M) :
  filter Stored M = A /\
  (forall x, In x (unstored M) -> In x R) /\
  (target <> -1 -> Int64.in_range target ->
   (forall r, In r R -> Int64.in_range (Version r)) ->
   forall x, In x (unstored M) -> Version x <= target).
Proof.
  assert (Hfrom : forall x, In x (unstored M) -> Stored x = false /\ In x M).
  { intros x Hx. unfold unstored in Hx. apply filter_In in Hx.
    destruct Hx as [Hx Hs]. apply negb_true_iff in Hs. auto. }
  split; [|split].
  - unfold migrator.mergeMigrations in HM.
    destruct (migrator.merge_bound R target) as [max| |];
      cbn [bind] in HM; try discriminate.
    destruct (migrator.merge_walk A R max _ 0 0 []) as [[[i j] mg]| |] eqn:W;
      cbn [bind] in HM; try discriminate.
    rewrite merge_rest_applied_skipn in HM by lia. cbn [bind] in HM.
    rewrite (merge_rest_actual_keeps R max HRs _ _ _ _ HM).
    rewrite filter_app.
    rewrite (merge_walk_keeps A R max HAs HRs _ 0%nat 0%nat [] i j mg
               eq_refl W).
    rewrite filter_all_in; [apply firstn_skipn|].
    intros x Hx. apply HAs. eapply skipn_incl; eauto.
  - intros x Hx. destruct (Hfrom x Hx) as [Hs HxM].
    unfold migrator.mergeMigrations in HM.
    destruct (migrator.merge_bound R target) as [max| |];
      cbn [bind] in HM; try discriminate.
    destruct (migrator.merge_walk A R max _ 0 0 []) as [[[i j] mg]| |] eqn:W;
      cbn [bind] in HM; try discriminate.
    rewrite merge_rest_applied_skipn in HM by lia. cbn [bind] in HM.
    assert (H0 : delivered A R max 0 []) by (split; intros y []).
    pose proof (merge_walk_delivered A R max _ _ _ _ _ _ _ H0 W) as [H1 H2].
    assert (H3 : delivered A R max i (mg ++ skipn i A)).
    { split.
      - intros y Hy. apply in_or_app. left. now apply H1.
      - intros y Hy. apply in_app_or in Hy.
        destruct Hy as [Hy|Hy]; [now apply H2|].
        left. eapply skipn_incl; eauto. }
    destruct (merge_rest_actual_delivered A R max _ _ _ _ _ H3 HM) as [_ H5].
    destruct (H5 x HxM) as [HxA|[HxR _]]; [|assumption].
    rewrite (HAs x HxA) in Hs. discriminate Hs.
  - intros Hset Ht HRr x Hx. destruct (Hfrom x Hx) as [Hs HxM].
    destruct (merge_returns_applied_and_bounded A R target M Hset Ht HRr HM)
      as [_ Hb].
    destruct (Hb x HxM) as [HxA|[_ Hle]]; [|assumption].
    rewrite (HAs x HxA) in Hs. discriminate Hs.
Qed.

Lemma X14_merge_passes_history_through_witness :
  let A := [Sample.applied 2 "b"; Sample.applied 3 "c"; Sample.applied 10 "j"] in
  let R := [Sample.descriptor 1 "-"; Sample.descriptor 5 "e";
            Sample.descriptor 20 "t"] in
  let M := [Sample.descriptor 1 "-"; Sample.applied 2 "b";
            Sample.applied 3 "c"; Sample.applied 10 "j"] in
  filter Stored M = A /\
  (forall x, In x (unstored M) -> In x R) /\
  (7 <> -1 -> Int64.in_range 7 ->
   (forall r, In r R -> Int64.in_range (Version r)) ->
   forall x, In x (unstored M) -> Version x <= 7).
Proof.
  apply (X14_merge_passes_history_through
           [Sample.applied 2 "b"; Sample.applied 3 "c"; Sample.applied 10 "j"]
           [Sample.descriptor 1 "-"; Sample.descriptor 5 "e";
            Sample.descriptor 20 "t"]
           [Sample.descriptor 1 "-"; Sample.applied 2 "b";
            Sample.applied 3 "c"; Sample.applied 10 "j"] 7).
  - simpl. intros x [<-|[<-|[<-|[]]]]; reflexivity.
  - simpl. intros x [<-|[<-|[<-|[]]]]; reflexivity.
  - reflexivity.
Defined.

Lemma merge_bound_total R target :
  exists max, migrator.merge_bound R target = Ok max.
Proof.
  unfold migrator.merge_bound.
  destruct (0 <? length R)%nat eqn:C; [|eauto].
  destruct (target =? -1); [|eauto].
  apply Nat.ltb_lt in C.
  destruct (index_in_range R (length R - 1)) as [l [_ ->]]; [lia|].
  simpl. eauto.
Qed.

(** X15: when the applied history carries the versions of the first [k]
    entries of a registry sorted by version, [mergeMigrations] returns the
    history followed by the registry entries after the [k]-th that lie below
    the bound, in registry order.  (Both cursors then move together, so the
    read of [applied[j]] is the read of [applied[i]].)  With [k = 0] this
    is the merge of an empty history. *)
Theorem X15_merge_of_registry_prefix
        (A R : list Migration) (target : Z) (k : nat)
        (Hk : (k <= length R)%nat)
        (Hprefix : versions A = versions (firstn k R))
        (Hsorted : nondecreasing (versions R)) :
  exists max,
    migrator.merge_bound R target = Ok max /\
    migrator.mergeMigrations A R target = Ok (A ++ below max (skipn k R)).
Proof.
  destruct (merge_bound_total R target) as [max Hb].
  exists max. split; [assumption|].
  now apply merge_prefix.
Qed.

Lemma X15_merge_of_registry_prefix_witness :
  let A := [Sample.applied 1 "-"; Sample.applied 2 "addUsers"] in
  let R := migrator.migrations Sample.registry3 in
  exists max,
    migrator.merge_bound R (-1) = Ok max /\
    migrator.mergeMigrations A R (-1) = Ok (A ++ below max (skipn 2 R)).
Proof.
  apply (X15_merge_of_registry_prefix
           [Sample.applied 1 "-"; Sample.applied 2 "addUsers"]
           (migrator.migrations Sample.registry3) (-1) 2).
  - simpl. lia.
  - reflexivity.
  - unfold nondecreasing. simpl. repeat constructor; discriminate.
Defined.

(** * Package migration: the order on descriptors *)

(** X16: [Less] is a strict order by version and [Eq] is its equivalence:
    of [a.Less(b)], [a.Eq(b)] and [b.Less(a)] exactly one holds, [Less] is
    transitive, and [Eq] holds exactly between descriptors of the same
    version.  So the last branch of the two walks, taken when neither
    entry is less, is the branch of equal versions. *)
Theorem X16_Less_Eq_trichotomy (a b c : Migration) :
  (Less a b = true /\ Eq a b = false /\ Less b a = false
   \/ Less a b = false /\ Eq a b = true /\ Less b a = false
   \/ Less a b = false /\ Eq a b = false /\ Less b a = true) /\
  (Less a b = true -> Less b c = true -> Less a c = true) /\
  (Eq a b = true <-> Version a = Version b) /\
  (Less a b = false -> Less b a = false -> Eq a b = true).
Proof.
  unfold Less, CompareMigrations, Eq.
  repeat split.
  - destruct (Z.lt_trichotomy (Version a) (Version b)) as [H|[H|H]].
    + left. repeat split;
        [apply Z.ltb_lt | apply Z.eqb_neq | apply Z.ltb_ge]; lia.
    + right. left. repeat split;
        [apply Z.ltb_ge | apply Z.eqb_eq | apply Z.ltb_ge]; lia.
    + right. right. repeat split;
        [apply Z.ltb_ge | apply Z.eqb_neq | apply Z.ltb_lt]; lia.
  - intros H1 H2. apply Z.ltb_lt in H1, H2. apply Z.ltb_lt. lia.
  - intros H. apply Z.eqb_eq in H. lia.
  - intros H. apply Z.eqb_eq. lia.
  - intros H1 H2. apply Z.ltb_ge in H1, H2. apply Z.eqb_eq. lia.
Qed.

(** * NewMigrator *)

Lemma insert_by_version_perm x l :
  Permutation (insert_by_version x l) (x :: l).
Proof.
  induction l as [|y l IH]; simpl; [reflexivity|].
  destruct (Less y x); [|reflexivity].
  rewrite IH. apply perm_swap.
Qed.

Lemma sort_by_version_perm l : Permutation (sort_by_version l) l.
Proof.
  induction l as [|x l IH]; simpl; [reflexivity|].
  rewrite insert_by_version_perm. now constructor.
Qed.

Lemma insert_by_version_sorted x l :
  nondecreasing (versions l) ->
  nondecreasing (versions (insert_by_version x l)).
Proof.
  unfold nondecreasing. induction l as [|y l IH]; simpl; intros H.
  - repeat constructor.
  - unfold Less, CompareMigrations.
    apply StronglySorted_inv in H. destruct H as [Hs Hy].
    destruct (Version y <? Version x) eqn:C; simpl.
    + apply Z.ltb_lt in C. constructor; [now apply IH|].
      apply Forall_forall. intros k Hk.
      assert (Hk' : In k (versions (x :: l))).
      { eapply Permutation_in; [|exact Hk].
        unfold versions. apply Permutation_map, insert_by_version_perm. }
      destruct Hk' as [<-|Hk']; [lia|].
      rewrite Forall_forall in Hy. now apply Hy.
    + apply Z.ltb_ge in C. constructor.
      * now constructor.
      * constructor; [assumption|].
        eapply Forall_impl; [|exact Hy]. intros; lia.
Qed.

Lemma sort_by_version_sorted l : nondecreasing (versions (sort_by_version l)).
Proof.
  induction l as [|x l IH]; simpl; [constructor|].
  now apply insert_by_version_sorted.
Qed.

Section Registry.
Variable sort : list Migration -> list Migration.
Variable DummyUpDown : ApplyFunc.
Hypothesis sort_perm : forall l, Permutation (sort l) l.
Hypothesis sort_sorted : forall l, nondecreasing (versions (sort l)).

Lemma registry_perm migs :
  Permutation (migrator.migrations (migrator.NewMigrator sort DummyUpDown migs))
              (migs ++ [sentinel DummyUpDown]).
Proof. apply sort_perm. Qed.

Lemma registry_versions_perm migs :
  Permutation
    (versions (migrator.migrations
                 (migrator.NewMigrator sort DummyUpDown migs)))
    (versions migs ++ [1]).
Proof.
  unfold versions at 1. rewrite (Permutation_map Version (registry_perm migs)).
  unfold versions. now rewrite map_app.
Qed.

Lemma registry_ascending_iff migs :
  ascending (migrator.migrations (migrator.NewMigrator sort DummyUpDown migs))
  <-> NoDup (versions migs) /\ ~ In 1 (versions migs).
Proof.
  pose proof (registry_versions_perm migs) as HP. split.
  - intros H. apply sorted_NoDup in H.
    apply (Permutation_NoDup HP) in H. split.
    + eapply NoDup_app_remove_r; eauto.
    + intros Hin. apply NoDup_remove_2 in H. rewrite app_nil_r in H.
      contradiction.
  - intros [Hnd Hout]. apply nondecreasing_NoDup_sorted.
    + apply sort_sorted.
    + apply (Permutation_NoDup (Permutation_sym HP)).
      apply NoDup_app; [assumption | repeat constructor; intros [] |].
      intros v Hv [<-|[]]. contradiction.
Qed.

Lemma registry_head migs :
  (forall x, In x migs -> 1 < Version x) ->
  exists rest,
    migrator.migrations (migrator.NewMigrator sort DummyUpDown migs)
      = sentinel DummyUpDown :: rest /\
    Permutation rest migs.
Proof.
  intros Hgt.
  pose proof (registry_perm migs) as HP.
  pose proof (sort_sorted (migs ++ [sentinel DummyUpDown])) as HS.
  unfold migrator.NewMigrator in *. cbn [migrator.migrations] in *.
  change (mkMigration 1 "-" DummyUpDown DummyUpDown false)
    with (sentinel DummyUpDown) in *.
  destruct (sort (migs ++ [sentinel DummyUpDown])) as [|y rest] eqn:E.
  - apply Permutation_nil in HP.
    destruct migs; discriminate HP.
  - assert (Hy : In y (migs ++ [sentinel DummyUpDown])).
    { eapply Permutation_in; [exact HP | now left]. }
    assert (Hs : In (sentinel DummyUpDown) (y :: rest)).
    { eapply Permutation_in; [symmetry; exact HP|].
      apply in_or_app. right. now left. }
    assert (Hle : Version y <= 1).
    { destruct Hs as [Hs|Hs]; [rewrite Hs; simpl; lia|].
      simpl in HS. apply StronglySorted_inv in HS. destruct HS as [_ HS].
      rewrite Forall_forall in HS.
      apply (HS (Version (sentinel DummyUpDown))).
      unfold versions. now apply in_map. }
    apply in_app_or in Hy. destruct Hy as [Hy|[Hy|[]]].
    + specialize (Hgt y Hy). lia.
    + subst y. exists rest. split; [reflexivity|].
      pose proof (@Permutation_cons_app_inv _ rest migs []
                    (sentinel DummyUpDown) HP) as HP'.
      now rewrite app_nil_r in HP'.
Qed.

End Registry.

(** X17: let [sort.Sort] return a permutation of its input sorted by
    version.  Then the registry of [NewMigrator] is strictly ascending
    exactly when the given descriptors have distinct versions, none of them
    1; and when all given versions are above 1, the registry is the
    sentinel followed by the given descriptors, rearranged. *)
Theorem X17_NewMigrator_registry
        (sort : list Migration -> list Migration) (DummyUpDown : ApplyFunc)
        (migs : list Migration)
        (sort_perm : forall l, Permutation (sort l) l)
        (sort_sorted : forall l, nondecreasing (versions (sort l))) :
  let registry :=
    migrator.migrations (migrator.NewMigrator sort DummyUpDown migs) in
  (ascending registry <-> NoDup (versions migs) /\ ~ In 1 (versions migs)) /\
  ((forall x, In x migs -> 1 < Version x) ->
   exists rest,
     registry = sentinel DummyUpDown :: rest /\ Permutation rest migs).
Proof.
  split.
  - now apply registry_ascending_iff.
  - now apply registry_head.
Qed.

Lemma X17_NewMigrator_registry_witness :
  let migs := [Sample.descriptor 3 "addIndex"; Sample.descriptor 2 "addUsers"] in
  let registry :=
    migrator.migrations (migrator.NewMigrator sort_by_version no_op migs) in
  (ascending registry <-> NoDup (versions migs) /\ ~ In 1 (versions migs)) /\
  ((forall x, In x migs -> 1 < Version x) ->
   exists rest,
     registry = sentinel no_op :: rest /\ Permutation rest migs).
Proof.
  exact (X17_NewMigrator_registry sort_by_version no_op
           [Sample.descriptor 3 "addIndex"; Sample.descriptor 2 "addUsers"]
           sort_by_version_perm sort_by_version_sorted).
Defined.

(** * Init *)

Lemma Init_fresh m w :
  fresh w ->
  migrator.Init m w
    = (migrator.mkWorld
         (gorm.mkDB (gorm.objects (migrator.db w)) (Some [(1, "-"%string)]))
         (migrator.log w ++ [migrator.Insert [1] None]),
       Ok (0, 0, None)).
Proof.
  unfold fresh, migrator.Init, gorm.CreateTable. intros ->. reflexivity.
Qed.

Lemma Init_again m w t :
  gorm.rows (migrator.db w) = Some t ->
  migrator.Init m w = (w, Ok (0, 0, Some ErrTableExists)).
Proof.
  unfold migrator.Init, gorm.CreateTable. intros ->. now destruct w.
Qed.

(** X18: on a database without the [migrations] table, [Init] creates it,
    records version 1 under the name "-" and reports no error; [Version]
    then answers 1.  On a database that has the table, empty or not,
    [Init] reports the error of [CreateTable] and leaves everything as it
    was, so a second [Init] fails and an emptied table is not given its
    baseline back. *)
Theorem X18_Init_only_on_missing_table
        (m : migrator.Migrator) (w : migrator.World) (Hfresh : fresh w) :
  exists w1,
    migrator.Init m w = (w1, Ok (0, 0, None)) /\
    migrator.db w1
      = gorm.mkDB (gorm.objects (migrator.db w)) (Some [(1, "-"%string)]) /\
    migrator.log w1 = migrator.log w ++ [migrator.Insert [1] None] /\
    migrator.Version m w1 = (1, 1, None) /\
    forall w2, ~ fresh w2 ->
               migrator.Init m w2 = (w2, Ok (0, 0, Some ErrTableExists)).
Proof.
  eexists. split; [now apply Init_fresh|].
  repeat split.
  intros w2 H2. unfold fresh in H2.
  destruct (gorm.rows (migrator.db w2)) as [t|] eqn:E; [|contradiction].
  now apply (Init_again m w2 t).
Qed.

Lemma X18_Init_only_on_missing_table_witness :
  let w := migrator.mkWorld (gorm.mkDB [] None) [] in
  exists w1,
    migrator.Init Sample.registry3 w = (w1, Ok (0, 0, None)) /\
    migrator.db w1 = gorm.mkDB [] (Some [(1, "-"%string)]) /\
    migrator.log w1 = [] ++ [migrator.Insert [1] None] /\
    migrator.Version Sample.registry3 w1 = (1, 1, None) /\
    forall w2, ~ fresh w2 ->
               migrator.Init Sample.registry3 w2
                 = (w2, Ok (0, 0, Some ErrTableExists)).
Proof.
  apply (X18_Init_only_on_missing_table Sample.registry3
           (migrator.mkWorld (gorm.mkDB [] None) [])).
  reflexivity.
Defined.

(** * Run *)

(** X19: a call of [Run] that cannot be dispatched (no command, a word
    that is none of the six commands, [set_version] without a version,
    [up] or [set_version] with a version that does not parse) returns
    zero versions with the matching error and touches neither the database
    nor any migration procedure. *)
Theorem X19_Run_misuse_has_no_effect
        (ParseInt : string -> Z * bool) (m : migrator.Migrator)
        (args : list string) (e : failure) (w : migrator.World)
        (Hmisuse : misuse ParseInt args e) :
  migrator.Run ParseInt m args w = (w, Ok (0, 0, Some e)).
Proof.
  destruct Hmisuse as [|command rest Hout| |command a rest v Hc Hp].
  - reflexivity.
  - unfold migrator.Run.
    repeat match goal with
    | |- context [String.eqb command ?s] =>
        destruct (String.eqb_spec command s) as [->|_];
        [exfalso; apply Hout; unfold commands; simpl; tauto|]
    end.
    reflexivity.
  - reflexivity.
  - destruct Hc as [->| ->]; unfold migrator.Run; simpl String.eqb; cbv iota;
      unfold migrator.parseVersion; rewrite Hp; reflexivity.
Qed.

Lemma X19_Run_misuse_has_no_effect_witness :
  let ParseInt :=
    fun s => if String.eqb s "2" then (2, false) else (0, true) in
  migrator.Run ParseInt Sample.registry3 ["up"; "two"]%string
               (Sample.store [(1, "-"%string)])
    = (Sample.store [(1, "-"%string)],
       Ok (0, 0, Some ErrorInvalidVersionArgumentFormat)).
Proof.
  apply (X19_Run_misuse_has_no_effect
           (fun s => if String.eqb s "2" then (2, false) else (0, true))
           Sample.registry3 ["up"; "two"]%string
           ErrorInvalidVersionArgumentFormat
           (Sample.store [(1, "-"%string)])).
  apply (bad_version _ "up"%string "two"%string [] 0).
  - now left.
  - reflexivity.
Defined.

(** * A fresh installation *)

(** X20: let [sort.Sort] return a permutation of its input sorted by
    version, and let the declared migrations have distinct versions above
    1 and below MaxInt64, not be marked stored, and have forward procedures
    that run clean.  On a database without the table, [Init] followed by
    [Up] with no target applies every declared migration exactly once, in
    ascending order of version, and records each; the store then holds the
    baseline followed by these records, [Up] returns 1 and the greatest
    declared version, and the procedures of the sentinel are never run. *)
Theorem X20_Init_then_Up_installs_all
        (sort : list Migration -> list Migration) (DummyUpDown : ApplyFunc)
        (migs : list Migration) (w : migrator.World)
        (sort_perm : forall l, Permutation (sort l) l)
        (sort_sorted : forall l, nondecreasing (versions (sort l)))
        (Hdistinct : NoDup (versions migs))
        (Hrange : forall x, In x migs -> 1 < Version x < Int64.max_int)
        (Hun : forall x, In x migs -> Stored x = false)
        (Hclean : forall x, In x migs -> runs_clean (Up x))
        (Hfresh : fresh w) :
  let m := migrator.NewMigrator sort DummyUpDown migs in
  exists rest w1 w2,
    Permutation rest migs /\ ascending rest /\
    migrator.Init m w = (w1, Ok (0, 0, None)) /\
    migrator.Up m (-1) w1 = (w2, Ok (1, last (versions rest) 1, None)) /\
    gorm.rows (migrator.db w2)
      = Some ((1, "-"%string) :: map migrator.record_of rest) /\
    migrator.log w2
      = migrator.log w ++ migrator.Insert [1] None :: applied_steps rest.
Proof.
  intros m.
  destruct (registry_head sort DummyUpDown sort_perm sort_sorted migs)
    as [rest [HR Hrest]].
  { intros x Hx. now apply Hrange. }
  fold m in HR.
  assert (Hasc : ascending (migrator.migrations m)).
  { apply (registry_ascending_iff sort DummyUpDown sort_perm sort_sorted).
    split; [assumption|]. intros H1. unfold versions in H1.
    apply in_map_iff in H1. destruct H1 as [x [E Hx]].
    specialize (Hrange x Hx). lia. }
  assert (Hin : forall x, In x rest -> In x migs).
  { intros x Hx. eapply Permutation_in; eauto. }
  assert (Hall : forall x, In x (migrator.migrations m) ->
                           Int64.min_int <= Version x < Int64.max_int).
  { rewrite HR. intros x [<-|Hx]; [vm_compute; split; [discriminate|reflexivity]|].
    specialize (Hrange x (Hin x Hx)).
    assert (Int64.min_int < 0) by reflexivity. lia. }
  destruct (merge_bound_unset (migrator.migrations m)
              (ascending_nondecreasing _ Hasc) Hall) as [max [Hb Hlt]].
  set (w1 := migrator.mkWorld
               (gorm.mkDB (gorm.objects (migrator.db w))
                          (Some [(1, "-"%string)]))
               (migrator.log w ++ [migrator.Insert [1] None])).
  destruct (Up_on_prefix m (-1) w1 [(1, "-"%string)] 1 max) as [w2 [HU [Hrows Hlog]]];
    try assumption.
  - rewrite HR. intros x [<-|Hx]; [reflexivity|]. now apply Hun, Hin.
  - rewrite HR. simpl. lia.
  - reflexivity.
  - rewrite HR. reflexivity.
  - rewrite HR. cbn [skipn]. intros x Hx.
    apply Hclean, Hin. unfold below in Hx. now apply filter_In in Hx.
  - rewrite HR. cbn [skipn]. intros x Hx.
    unfold below in Hx. apply filter_In in Hx.
    specialize (Hrange x (Hin x (proj1 Hx))). lia.
  - assert (E : below max (skipn 1 (migrator.migrations m)) = rest).
    { rewrite HR. cbn [skipn]. apply below_all. intros x Hx.
      apply Hlt. rewrite HR. now right. }
    rewrite E in HU, Hrows, Hlog. rewrite HR in HU. cbn in HU.
    exists rest, w1, w2. repeat split.
    + assumption.
    + unfold ascending in *. rewrite HR in Hasc. simpl in Hasc.
      now apply StronglySorted_inv in Hasc.
    + now apply Init_fresh.
    + exact HU.
    + exact Hrows.
    + rewrite Hlog. unfold w1. cbn [migrator.log].
      now rewrite <- app_assoc.
Qed.

Lemma X20_Init_then_Up_installs_all_witness :
  let migs := [Sample.descriptor 3 "addIndex"; Sample.descriptor 2 "addUsers"] in
  let w := migrator.mkWorld (gorm.mkDB [] None) [] in
  let m := migrator.NewMigrator sort_by_version no_op migs in
  exists rest w1 w2,
    Permutation rest migs /\ ascending rest /\
    migrator.Init m w = (w1, Ok (0, 0, None)) /\
    migrator.Up m (-1) w1 = (w2, Ok (1, last (versions rest) 1, None)) /\
    gorm.rows (migrator.db w2)
      = Some ((1, "-"%string) :: map migrator.record_of rest) /\
    migrator.log w2
      = migrator.log w ++ migrator.Insert [1] None :: applied_steps rest.
Proof.
  apply (X20_Init_then_Up_installs_all sort_by_version no_op
           [Sample.descriptor 3 "addIndex"; Sample.descriptor 2 "addUsers"]
           (migrator.mkWorld (gorm.mkDB [] None) [])
           sort_by_version_perm sort_by_version_sorted).
  - simpl. repeat constructor; simpl; intuition discriminate.
  - intros x [<-|[<-|[]]]; simpl; split; reflexivity.
  - intros x [<-|[<-|[]]]; reflexivity.
  - intros x [<-|[<-|[]]]; apply Sample_create_clean.
  - reflexivity.
Defined.

(** * A migration of version 0 *)

(** X21: gorm takes version 0 for a key that is not set, so the record of
    a migration of version 0 cannot be deleted by [Down].  With a strictly
    ascending registry, when the greatest recorded version is 0 and belongs
    to a registry entry which is not the first and whose backward procedure
    runs clean, [Down] runs that procedure, is refused the delete with
    [ErrMissingWhereClause] and returns it, with the version of the entry
    before as newVersion; the records stay as they were, that of version 0
    included. *)
Theorem X21_Down_cannot_delete_version_zero
        (m : migrator.Migrator) (w : migrator.World) (t : list gorm.Row)
        (j : nat) (previous x : Migration)
        (Hasc : ascending (migrator.migrations m))
        (Hprev : nth_error (migrator.migrations m) j = Some previous)
        (Hx : nth_error (migrator.migrations m) (S j) = Some x)
        (Hzero : Version x = 0)
        (Hrows : gorm.rows (migrator.db w) = Some t)
        (Hgreatest : greatest_key 0 t)
        (Hclean : runs_clean (Down x)) :
  exists w',
    migrator.Down m w
      = (w', Ok (0, Version previous, Some ErrMissingWhereClause)) /\
    gorm.rows (migrator.db w') = Some t /\
    migrator.log w'
      = migrator.log w
          ++ [migrator.Backward 0 None;
              migrator.DeleteRow 0 (Some ErrMissingWhereClause)].
Proof.
  pose proof (split_at_nth _ _ _ _ Hprev Hx) as Hm.
  assert (Hpost : forall y, In y (skipn (S (S j)) (migrator.migrations m)) ->
                            Version y <> 0).
  { rewrite <- Hzero.
    apply (ascending_later_differ (migrator.migrations m)
             (firstn j (migrator.migrations m) ++ [previous]) x _ Hasc).
    now rewrite <- app_assoc. }
  destruct Hclean as [g [Dg Hg]].
  rewrite (Down_unfold m w t 0 Hrows Hgreatest), Hm.
  replace (rev (firstn j (migrator.migrations m)
                  ++ previous :: x :: skipn (S (S j)) (migrator.migrations m)))
    with (rev (skipn (S (S j)) (migrator.migrations m))
            ++ x :: previous :: rev (firstn j (migrator.migrations m))).
  2:{ rewrite rev_app_distr. simpl. now rewrite <- !app_assoc. }
  rewrite Down_scan_skip by (intros y Hy; apply Hpost; now apply in_rev).
  cbn [migrator.Down_scan]. rewrite Hzero, Dg. simpl (0 =? 0).
  destruct (g (migrator.db w)) as [d1 e1] eqn:G.
  destruct (Hg (migrator.db w)) as [He Hr]. rewrite G in He, Hr.
  simpl in He, Hr. subst e1.
  unfold gorm.Delete. simpl (0 =? 0).
  eexists. split; [reflexivity|]. cbn [migrator.db migrator.log].
  split; [now rewrite Hr|]. now rewrite <- app_assoc.
Qed.

Lemma X21_Down_cannot_delete_version_zero_witness :
  let t := [(-1, "first"); (0, "zero")]%string in
  let w := Sample.store t in
  exists w',
    migrator.Down registry_with_zero w
      = (w', Ok (0, -1, Some ErrMissingWhereClause)) /\
    gorm.rows (migrator.db w') = Some t /\
    migrator.log w'
      = [] ++ [migrator.Backward 0 None;
               migrator.DeleteRow 0 (Some ErrMissingWhereClause)].
Proof.
  apply (X21_Down_cannot_delete_version_zero registry_with_zero
           (Sample.store [(-1, "first"); (0, "zero")]%string)
           [(-1, "first"); (0, "zero")]%string 0
           (Sample.descriptor (-1) "first") (Sample.descriptor 0 "zero")).
  - unfold ascending. simpl. repeat constructor.
  - reflexivity.
  - reflexivity.
  - reflexivity.
  - reflexivity.
  - split; [simpl; tauto|]. simpl. intros k [<-|[<-|[]]]; lia.
  - apply Sample_drop_clean.
Defined.

(** Why the statements about [Up] and [SetVersion] ask for versions other
    than 0.  The record of a migration of version 0 is stored under the key
    the database assigns, here 1: [Up] on an empty table then fails on the
    insert of the sentinel's record, and [SetVersion] fails on its bulk
    insert after it emptied the table. *)
Example Up_with_version_zero :
  let '(w', r) :=
    migrator.Up registry_from_zero (-1) (Sample.store []) in
  r = Ok (0, 1, Some ErrDuplicatedKey) /\
  gorm.rows (migrator.db w') = Some [(1, "zero"%string)] /\
  migrator.log w'
    = [migrator.Forward 0 None; migrator.Insert [0] None;
       migrator.Forward 1 None; migrator.Insert [1] (Some ErrDuplicatedKey)].
Proof. repeat split. Qed.

Example SetVersion_with_version_zero :
  let '(w', r) :=
    migrator.SetVersion registry_from_zero 2 (Sample.store [(1, "-"%string)]) in
  r = Ok (1, 0, Some ErrDuplicatedKey) /\
  gorm.rows (migrator.db w') = Some [] /\
  migrator.log w'
    = [migrator.DeleteAllRows None;
       migrator.Insert [0; 1; 2] (Some ErrDuplicatedKey)].
Proof. repeat split. Qed.
